(** * dnd-file-tree: the tree state engine

    A shallow embedding of the state engine of the drag-and-drop file tree
    (src/impl/tree): the internal tree with parent back-links
    ([buildInternalTree], [hasAncestor], [getChildIndex], [findNodeById]),
    the flattener ([useSelectableItems]), the zustand store ([useTreeStore]
    and its actions), the click handler of [TreeNode] and the drag handlers
    of [Tree].

    Where the code lives: utils.ts and types.ts are in
    src/impl/tree/utils.ts, the store in src/impl/ImplApp.tsx, the click
    handler in src/impl/tree/TreeNode.tsx, useSelectableItems.ts in
    unnamed/part_001 and Tree.tsx in unnamed/part_002.

    Conventions.
    - JavaScript numbers that hold positions and depths are [Z] (so that the
      [-1] of [findIndex] and the decrement of [insertAt] are written as in
      the source); rectangle coordinates are IEEE-754 doubles ([float]).
    - JavaScript arrays are lists; the own properties of the
      [Record<string, boolean>] are a [gmap string bool].  A read
      [collapsed[id]] that finds no own property continues on
      [Object.prototype] ([readCollapsed]), so an id such as [constructor]
      or [toString] reads as a truthy value without any entry in the map.
    - [x === y] on strings is [bool_decide (x = y)].  A string used as a
      condition is false exactly when it is empty ([truthy]).
    - A handler is a function of the store it finds and returns the store
      it leaves.  The values a component subscribes to ([collapsed],
      [anchorId]) and derives from them ([selectableItems]) are read from
      that store: every store update re-renders the component before the
      next event is handled. *)

From Stdlib Require Import ZArith Floats.
From stdpp Require Import strings gmap list.

Local Open Scope Z_scope.
#[local] Set Warnings "-register-all".

(** ** types.ts: the raw tree *)

Inductive TreeNodeType := directory | file.

Module TTreeNode.
Inductive t := mk {
  name : string;
  id : string;
  type : TreeNodeType;
  children : option (list t)
}.
End TTreeNode.
Abbreviation TTreeNode := TTreeNode.t.

(** A string in a boolean position: only the empty string is falsy. *)
Definition truthy (s : string) : bool := negb (bool_decide (s = EmptyString)).

(** ** tree/types.ts: InternalTreeNode

    The source node is [{ item, children?, parent, depth }], where [parent]
    points back at the enclosing node and [children] point down: a cyclic
    object graph.  Here a node is its downward part ([Subtree]: item, depth
    and the downward parts of its children) together with its [parent]
    link; the [children] of a node are its child subtrees, each linked back
    to the node itself, so every field the source reads has the value it
    has in the finished graph. *)

Inductive Subtree := mkSubtree {
  sub_item : TTreeNode;
  sub_depth : Z;
  sub_children : option (list Subtree)
}.

Inductive InternalTreeNode := mkInternalTreeNode {
  subtree : Subtree;
  parent : option InternalTreeNode
}.

Definition item (n : InternalTreeNode) : TTreeNode := sub_item (subtree n).
Definition depth (n : InternalTreeNode) : Z := sub_depth (subtree n).
Definition children (n : InternalTreeNode) : option (list InternalTreeNode) :=
  match sub_children (subtree n) with
  | Some cs => Some (map (fun c => mkInternalTreeNode c (Some n)) cs)
  | None => None
  end.

(** [node.item.id] *)
Definition item_id (n : InternalTreeNode) : string := TTreeNode.id (item n).

Record SelectableTreeNode := mkSelectable {
  node : InternalTreeNode;
  index : Z
}.

(** [s.node.item.id] *)
Definition entry_id (x : SelectableTreeNode) : string := item_id (node x).

Inductive DropIntent := above | below | inside.

Record HoveredParent := mkHoveredParent {
  parentId : option string;
  parentDepth : option Z;
  hp_index : option Z;
  childIndex : option Z;
  dropIntent : option DropIntent
}.

Record DragEndPayload := mkDragEndPayload {
  payload_items : list TTreeNode;
  payload_parent : TTreeNode;
  payload_children : list TTreeNode;
  insertAt : Z
}.

(** ** tree/utils.ts *)

(** The downward part of [buildInternalTree]: [children] stays undefined
    unless the raw node has a non-empty child array. *)
Fixpoint buildSubtree (raw : TTreeNode) (d : Z) : Subtree :=
  match raw with
  | TTreeNode.mk _ _ _ ch =>
      mkSubtree raw d
        match ch with
        | Some (c :: cs) =>
            Some (map (fun x => buildSubtree x (d + 1)) (c :: cs))
        | _ => None
        end
  end.

Definition buildInternalTree (raw : TTreeNode)
    (parent : option InternalTreeNode) (depth : Z) : InternalTreeNode :=
  mkInternalTreeNode (buildSubtree raw depth) parent.

(** [hasAncestor]: the loop [while (current !== null)] walks the parent
    links, which is structural recursion on the node. *)
Fixpoint hasAncestor_from (current : InternalTreeNode) (ancestorId : string)
    : bool :=
  if bool_decide (item_id current = ancestorId) then true
  else match parent current with
       | Some p => hasAncestor_from p ancestorId
       | None => false
       end.

Definition hasAncestor (n : option InternalTreeNode) (ancestorId : string)
    : bool :=
  match n with
  | Some current => hasAncestor_from current ancestorId
  | None => false
  end.

(** [Array.prototype.findIndex]: the first position whose element passes
    the test, or [-1]. *)
Fixpoint findIndex {A} (f : A -> bool) (l : list A) : Z :=
  match l with
  | [] => -1
  | x :: l' =>
      if f x then 0
      else let i := findIndex f l' in if i =? -1 then -1 else i + 1
  end.

Definition getChildIndex (n : InternalTreeNode) : Z :=
  match parent n with
  | None => 0
  | Some p =>
      let siblings := default [] (children p) in
      let i := findIndex (fun child => bool_decide (item_id child = item_id n))
                 siblings in
      if i =? -1 then 0 else i
  end.

(** [findNodeById]: depth-first, the node itself before its children, the
    first hit wins.  The recursion is on the downward part; the parent link
    of each visited node is rebuilt on the way down. *)
Fixpoint findNodeById_sub (t : Subtree) (p : option InternalTreeNode)
    (i : string) : option InternalTreeNode :=
  match t with
  | mkSubtree it d ch =>
      let root := mkInternalTreeNode t p in
      if bool_decide (TTreeNode.id it = i) then Some root
      else match ch with
           | Some cs =>
               (fix loop (cs : list Subtree) : option InternalTreeNode :=
                  match cs with
                  | [] => None
                  | c :: cs' =>
                      match findNodeById_sub c (Some root) i with
                      | Some found => Some found
                      | None => loop cs'
                      end
                  end) cs
           | None => None
           end
  end.

Definition findNodeById (root : InternalTreeNode) (i : string)
    : option InternalTreeNode :=
  findNodeById_sub (subtree root) (parent root) i.

(** ** tree/useSelectableItems.ts *)

(** The property names every plain object inherits from
    [Object.prototype] (ECMAScript 20.1.3 and Annex B.2.2). *)
Definition objectPrototypeKeys : list string :=
  ["constructor"; "hasOwnProperty"; "isPrototypeOf"; "propertyIsEnumerable";
   "toLocaleString"; "toString"; "valueOf"; "__proto__";
   "__defineGetter__"; "__defineSetter__";
   "__lookupGetter__"; "__lookupSetter__"].

(** [collapsed[id]] on the store's plain object (created as [{}] and
    rebuilt by object spreads, which copy own properties only).  The map
    holds the own properties.  A name without an own property is looked up
    on the prototype: there it finds a function (an object for
    [__proto__]), a value that is neither [null] nor [undefined] and is
    truthy.  Every reader uses the truthiness of the value only, so the
    inherited value is recorded as [true]; [None] is [undefined]. *)
Definition readCollapsed (collapsed : gmap string bool) (i : string)
    : option bool :=
  match collapsed !! i with
  | Some b => Some b
  | None => if bool_decide (i ∈ objectPrototypeKeys) then Some true else None
  end.

(** [collapsed[id] ?? false] *)
Definition isCollapsedIn (collapsed : gmap string bool) (i : string) : bool :=
  default false (readCollapsed collapsed i).

(** The two variables [walk] closes over. *)
Record WalkState := mkWalkState {
  items : list SelectableTreeNode;
  next_index : Z
}.

(** [items.push({ node, index: index++ })] *)
Definition push (st : WalkState) (n : InternalTreeNode) : WalkState :=
  mkWalkState (items st ++ [mkSelectable n (next_index st)])
              (next_index st + 1).

(** [walk]: push the node unless it is the root (depth 0), then walk the
    children unless the node is collapsed; the root always shows its
    children.  The recursion is on the downward part. *)
Fixpoint walk_sub (collapsed : gmap string bool) (t : Subtree)
    (p : option InternalTreeNode) (st : WalkState) : WalkState :=
  match t with
  | mkSubtree it d ch =>
      let n := mkInternalTreeNode t p in
      let st1 := if 0 <? d then push st n else st in
      let isCollapsed := isCollapsedIn collapsed (TTreeNode.id it) in
      match ch with
      | Some cs =>
          if (d =? 0) || negb isCollapsed then
            (fix each (cs : list Subtree) (st : WalkState) : WalkState :=
               match cs with
               | [] => st
               | c :: cs' => each cs' (walk_sub collapsed c (Some n) st)
               end) cs st1
          else st1
      | None => st1
      end
  end.

Definition walk (collapsed : gmap string bool) (n : InternalTreeNode)
    (st : WalkState) : WalkState :=
  walk_sub collapsed (subtree n) (parent n) st.

Definition useSelectableItems (root : InternalTreeNode)
    (collapsed : gmap string bool) : list SelectableTreeNode :=
  items (walk collapsed root (mkWalkState [] 0)).

(** ** tree/store.ts: the zustand store *)

Record TreeStore := mkTreeStore {
  selectedIds : list string;
  anchorId : option string;
  collapsed : gmap string bool;
  draggingIds : list string;
  hoveredParent : HoveredParent
}.

Definition initialHoveredParent : HoveredParent :=
  mkHoveredParent None None None None None.

Definition initialStore : TreeStore :=
  mkTreeStore [] None ∅ [] initialHoveredParent.

Definition setSelectedIds (ids : list string) (s : TreeStore) : TreeStore :=
  mkTreeStore ids (anchorId s) (collapsed s) (draggingIds s) (hoveredParent s).

Definition setAnchorId (i : option string) (s : TreeStore) : TreeStore :=
  mkTreeStore (selectedIds s) i (collapsed s) (draggingIds s) (hoveredParent s).

(** [[id]: !state.collapsed[id]]: a name found neither on the object nor
    on its prototype reads as [undefined], whose negation is [true]; an
    inherited value is truthy, its negation is [false]. *)
Definition toggleCollapsed (i : string) (s : TreeStore) : TreeStore :=
  mkTreeStore (selectedIds s) (anchorId s)
    (<[i := negb (default false (readCollapsed (collapsed s) i))]> (collapsed s))
    (draggingIds s) (hoveredParent s).

Definition setCollapsed (i : string) (c : bool) (s : TreeStore) : TreeStore :=
  mkTreeStore (selectedIds s) (anchorId s) (<[i := c]> (collapsed s))
    (draggingIds s) (hoveredParent s).

Definition setDraggingIds (ids : list string) (s : TreeStore) : TreeStore :=
  mkTreeStore (selectedIds s) (anchorId s) (collapsed s) ids (hoveredParent s).

Definition setHoveredParent (hp : HoveredParent) (s : TreeStore) : TreeStore :=
  mkTreeStore (selectedIds s) (anchorId s) (collapsed s) (draggingIds s) hp.

Definition clearDragState (s : TreeStore) : TreeStore :=
  mkTreeStore (selectedIds s) (anchorId s) (collapsed s) [] initialHoveredParent.

(** ** tree/TreeNode.tsx *)

(** [Array.prototype.slice(start, end)], negative arguments counted from
    the end as JavaScript does. *)
Definition slice {A} (start end_ : Z) (l : list A) : list A :=
  let len := Z.of_nat (length l) in
  let k := if start <? 0 then Z.max (len + start) 0 else Z.min start len in
  let final := if end_ <? 0 then Z.max (len + end_) 0 else Z.min end_ len in
  take (Z.to_nat (final - k)) (drop (Z.to_nat k) l).

Record MouseEvent := mkMouseEvent {
  shiftKey : bool;
  metaKey : bool;
  ctrlKey : bool
}.

(** The firing of the auto-expand timer: [setCollapsed(item.id, false)]. *)
Definition autoExpandFire (it : TTreeNode) (s : TreeStore) : TreeStore :=
  setCollapsed (TTreeNode.id it) false s.

(** The condition under which the effect of [TreeNode] arms the
    auto-expand timer. *)
Definition shouldAutoExpand (n : InternalTreeNode) (s : TreeStore) : bool :=
  let isDirectory :=
    match TTreeNode.type (item n) with directory => true | file => false end in
  let isCollapsed := isCollapsedIn (collapsed s) (item_id n) in
  let isDropTarget :=
    bool_decide (parentId (hoveredParent s) = Some (item_id n)) in
  isDirectory && isCollapsed && isDropTarget
  && match children n with
     | Some cs => 0 <? Z.of_nat (length cs)
     | None => false
     end.

(** The body of [if (e.shiftKey && anchorId) { ... }]: [Some] of the new
    store when the branch returns, [None] when control falls through. *)
Definition rangeBranch (it : TTreeNode)
    (selectableItems : list SelectableTreeNode) (anchor : string)
    (s : TreeStore) : option TreeStore :=
  let anchorIndex :=
    findIndex (fun x => bool_decide (entry_id x = anchor))
      selectableItems in
  let clickIndex :=
    findIndex (fun x => bool_decide (entry_id x = TTreeNode.id it))
      selectableItems in
  if negb (anchorIndex =? -1) && negb (clickIndex =? -1) then
    let start := Z.min anchorIndex clickIndex in
    let end_ := Z.max anchorIndex clickIndex in
    let rangeIds :=
      map entry_id (slice start (end_ + 1) selectableItems) in
    Some (setSelectedIds rangeIds s)
  else None.

(** [handleClick] of the node that renders [it].  [anchorId] is the
    subscribed store value; the toggle branch reads [selectedIds] through
    [getState()]. *)
Definition handleClick (it : TTreeNode)
    (selectableItems : list SelectableTreeNode) (e : MouseEvent)
    (s : TreeStore) : TreeStore :=
  let ranged :=
    match anchorId s with
    | Some anchor =>
        if shiftKey e && truthy anchor
        then rangeBranch it selectableItems anchor s
        else None
    | None => None
    end in
  match ranged with
  | Some s' => s'
  | None =>
      if metaKey e || ctrlKey e then
        let currentIds := selectedIds s in
        if bool_decide (TTreeNode.id it ∈ currentIds) then
          setSelectedIds
            (List.filter (fun i => negb (bool_decide (i = TTreeNode.id it)))
               currentIds) s
        else setSelectedIds (currentIds ++ [TTreeNode.id it]) s
      else
        setAnchorId (Some (TTreeNode.id it))
          (setSelectedIds [TTreeNode.id it] s)
  end.

Definition handleChevronClick (it : TTreeNode) (s : TreeStore) : TreeStore :=
  match TTreeNode.type it with
  | directory => toggleCollapsed (TTreeNode.id it) s
  | file => s
  end.

(** ** tree/Tree.tsx *)

Record ClientRect := mkClientRect {
  top : float;
  height : float
}.

Record Over := mkOver {
  over_id : string;
  over_rect : ClientRect
}.

(** [event.active]: its id and [active.rect.current.translated]. *)
Record Active := mkActive {
  active_id : string;
  translated : option ClientRect
}.

Record DragMoveEvent := mkDragMoveEvent {
  over : option Over;
  active : Active
}.

Record DragEndEvent := mkDragEndEvent {
  end_over : option Over
}.

(** The first-render effect that selects the first visible item. *)
Definition initializeSelection (selectableItems : list SelectableTreeNode)
    (s : TreeStore) : TreeStore :=
  match selectedIds s, selectableItems with
  | [], first :: _ =>
      setAnchorId (Some (item_id (node first)))
        (setSelectedIds [item_id (node first)] s)
  | _, _ => s
  end.

Definition handleDragStart (activeId : string) (s : TreeStore) : TreeStore :=
  let selected := selectedIds s in
  if bool_decide (activeId ∈ selected) then setDraggingIds selected s
  else
    setAnchorId (Some activeId)
      (setSelectedIds [activeId] (setDraggingIds [activeId] s)).

(** [ratio]: the centre of the dragged rectangle relative to the hovered
    one, in double arithmetic. *)
Definition ratioOf (activeRect overRect : ClientRect) : float :=
  let activeCenter := (top activeRect + height activeRect / 2)%float in
  let relativeY := (activeCenter - top overRect)%float in
  (relativeY / height overRect)%float.

(** The four variables assigned by the zone detection. *)
Record DropTarget := mkDropTarget {
  targetParent : option InternalTreeNode;
  targetChildIndex : Z;
  target_dropIntent : DropIntent;
  flatIndex : Z
}.

(** Zone detection: the [if (!isOverDirectory) ... else ...] of
    [handleDragMove]. *)
Definition dropTargetOf (collapsedMap : gmap string bool)
    (overItem : SelectableTreeNode) (ratio : float) : DropTarget :=
  let overNode := node overItem in
  let isOverDirectory :=
    match TTreeNode.type (item overNode) with
    | directory => true
    | file => false
    end in
  let isOverCollapsed := isCollapsedIn collapsedMap (item_id overNode) in
  let isOverExpanded := isOverDirectory && negb isOverCollapsed in
  let hasChildren :=
    match children overNode with
    | Some cs => 0 <? Z.of_nat (length cs)
    | None => false
    end in
  if negb isOverDirectory then
    if (ratio <? 0.5)%float then
      mkDropTarget (parent overNode) (getChildIndex overNode) above
        (index overItem)
    else
      mkDropTarget (parent overNode) (getChildIndex overNode + 1) below
        (index overItem + 1)
  else
    if (ratio <? 0.25)%float then
      mkDropTarget (parent overNode) (getChildIndex overNode) above
        (index overItem)
    else if (0.75 <? ratio)%float && negb isOverExpanded then
      mkDropTarget (parent overNode) (getChildIndex overNode + 1) below
        (index overItem + 1)
    else
      mkDropTarget (Some overNode) 0 inside
        (if isOverExpanded && hasChildren then index overItem + 1
         else index overItem).

(** The validation loop: some dragged id lies on the parent chain of the
    target parent (the target parent included). *)
Definition dropsIntoDragged (t : DropTarget) (dragging : list string) : bool :=
  match targetParent t with
  | Some tp => existsb (fun dragId => hasAncestor (Some tp) dragId) dragging
  | None => false
  end.

(** The record written by the final [setHoveredParent]. *)
Definition hoveredOf (t : DropTarget) : HoveredParent :=
  mkHoveredParent (item_id <$> targetParent t) (depth <$> targetParent t)
    (Some (flatIndex t)) (Some (targetChildIndex t))
    (Some (target_dropIntent t)).

Definition handleDragMove (internalRoot : InternalTreeNode)
    (event : DragMoveEvent) (s : TreeStore) : TreeStore :=
  let selectableItems := useSelectableItems internalRoot (collapsed s) in
  match over event with
  | None => setHoveredParent (mkHoveredParent None None None None None) s
  | Some ov =>
      let overId := over_id ov in
      if bool_decide (overId = "__catch_zone_start__"%string) then
        setHoveredParent
          (mkHoveredParent (Some (item_id internalRoot))
             (Some (depth internalRoot)) (Some 0) (Some 0) (Some above)) s
      else if bool_decide (overId = "__catch_zone_end__"%string) then
        let lastIndex := Z.of_nat (length selectableItems) in
        let rootChildCount :=
          match children internalRoot with
          | Some cs => Z.of_nat (length cs)
          | None => 0
          end in
        setHoveredParent
          (mkHoveredParent (Some (item_id internalRoot))
             (Some (depth internalRoot)) (Some lastIndex)
             (Some rootChildCount) (Some below)) s
      else
        match List.find (fun x => bool_decide (entry_id x = overId))
                selectableItems with
        | None => s
        | Some overItem =>
            match translated (active event) with
            | None => s
            | Some activeRect =>
                let ratio := ratioOf activeRect (over_rect ov) in
                let t := dropTargetOf (collapsed s) overItem ratio in
                if dropsIntoDragged t (draggingIds s) then s
                else setHoveredParent (hoveredOf t) s
            end
        end
  end.

(** One turn of the loop that removes a dragged node from the copy of the
    target's children and adjusts [insertAt]. *)
Definition removeDragged (acc : list InternalTreeNode * Z)
    (n : InternalTreeNode) : list InternalTreeNode * Z :=
  let '(currentChildren, at_) := acc in
  let existingIndex :=
    findIndex (fun child => bool_decide (item_id child = item_id n))
      currentChildren in
  if negb (existingIndex =? -1) then
    (delete (Z.to_nat existingIndex) currentChildren,
     if existingIndex <? at_ then at_ - 1 else at_)
  else acc.

(** [currentDraggingIds.map(find ...).filter(node !== undefined)]: the
    dragged ids resolved through the flat list, unresolved ids dropped. *)
Definition draggedNodesOf (selectableItems : list SelectableTreeNode)
    (ids : list string) : list InternalTreeNode :=
  omap (fun i =>
          node <$> List.find (fun x => bool_decide (entry_id x = i))
                     selectableItems)
    ids.

(** [draggedNodes.filter(...)]: neither the target parent nor one of its
    ancestors. *)
Definition validNodesOf (tp : InternalTreeNode)
    (draggedNodes : list InternalTreeNode) : list InternalTreeNode :=
  List.filter
    (fun n =>
       negb (bool_decide (item_id n = item_id tp))
       && negb (hasAncestor (Some tp) (item_id n)))
    draggedNodes.

(** [handleDragEnd]: the store after the handler and the payload passed to
    [onDragEnd], if the handler gets that far. *)
Definition handleDragEnd (internalRoot : InternalTreeNode)
    (event : DragEndEvent) (s : TreeStore)
    : TreeStore * option DragEndPayload :=
  let selectableItems := useSelectableItems internalRoot (collapsed s) in
  let hovered := hoveredParent s in
  let currentDraggingIds := draggingIds s in
  let s' := clearDragState s in
  (s',
   match end_over event, parentId hovered, childIndex hovered with
   | Some _, Some pid, Some childIdx =>
       if truthy pid then
         match findNodeById internalRoot pid with
         | None => None
         | Some tp =>
             let draggedNodes :=
               draggedNodesOf selectableItems currentDraggingIds in
             match draggedNodes with
             | [] => None
             | _ :: _ =>
                 let validNodes := validNodesOf tp draggedNodes in
                 match validNodes with
                 | [] => None
                 | _ :: _ =>
                     let '(currentChildren, at_) :=
                       fold_left removeDragged validNodes
                         (default [] (children tp), childIdx) in
                     Some (mkDragEndPayload (map item validNodes) (item tp)
                             (map item currentChildren) at_)
                 end
             end
         end
       else None
   | _, _, _ => None
   end).

Definition handleDragCancel (s : TreeStore) : TreeStore := clearDragState s.


(** ** tree/utils.ts: the helpers on the raw tree *)

(** [getSelectedItems]: the selected ids resolved through the flat list,
    ids that are not visible dropped. *)
Definition getSelectedItems (selectableItems : list SelectableTreeNode)
    (ids : list string) : list TTreeNode :=
  omap (fun i =>
          (fun x => item (node x))
            <$> List.find (fun x => bool_decide (entry_id x = i))
                  selectableItems)
    ids.

(** [removeNodeFromTree] of utils.ts.  The source mutates the tree and
    returns whether it removed a node; here the tree after the call is
    returned with that boolean. *)
Fixpoint removeNodeFromTree (root : TTreeNode) (i : string)
    : TTreeNode * bool :=
  match root with
  | TTreeNode.mk nm rid ty ch =>
      if bool_decide (rid = i) then (root, false)
      else
        match ch with
        | None => (root, false)
        | Some cs =>
            let idx :=
              findIndex (fun child => bool_decide (TTreeNode.id child = i)) cs in
            if negb (idx =? -1) then
              (TTreeNode.mk nm rid ty (Some (delete (Z.to_nat idx) cs)), true)
            else
              let '(cs', removed) :=
                (fix each (cs : list TTreeNode) : list TTreeNode * bool :=
                   match cs with
                   | [] => ([], false)
                   | c :: rest =>
                       let '(c', removed) := removeNodeFromTree c i in
                       if removed then (c' :: rest, true)
                       else let '(rest', r) := each rest in (c' :: rest', r)
                   end) cs in
              (TTreeNode.mk nm rid ty (Some cs'), removed)
        end
  end.

(** [findParentOf]: the direct children first, then each child's subtree
    in turn. *)
Fixpoint findParentOf (root : TTreeNode) (i : string)
    : option (TTreeNode * Z) :=
  match root with
  | TTreeNode.mk _ _ _ ch =>
      match ch with
      | None => None
      | Some cs =>
          let idx :=
            findIndex (fun child => bool_decide (TTreeNode.id child = i)) cs in
          if negb (idx =? -1) then Some (root, idx)
          else
            (fix each (cs : list TTreeNode) : option (TTreeNode * Z) :=
               match cs with
               | [] => None
               | c :: rest =>
                   match findParentOf c i with
                   | Some found => Some found
                   | None => each rest
                   end
               end) cs
      end
  end.

(** ** ImplApp.tsx: the owner of the tree data *)

(** [Array.prototype.splice(start, 0, ...items)]: insertion at [start],
    clamped as JavaScript does, a negative [start] counted from the end. *)
Definition spliceInsert {A} (start : Z) (new : list A) (l : list A) : list A :=
  let len := Z.of_nat (length l) in
  let k := if start <? 0 then Z.max (len + start) 0 else Z.min start len in
  take (Z.to_nat k) l ++ new ++ drop (Z.to_nat k) l.

Module ImplApp.

(** The local [removeNodeFromTree] of ImplApp.tsx: it has no test on the
    root's own id. *)
Fixpoint removeNodeFromTree (root : TTreeNode) (i : string)
    : TTreeNode * bool :=
  match root with
  | TTreeNode.mk nm rid ty ch =>
      match ch with
      | None => (root, false)
      | Some cs =>
          let idx :=
            findIndex (fun child => bool_decide (TTreeNode.id child = i)) cs in
          if negb (idx =? -1) then
            (TTreeNode.mk nm rid ty (Some (delete (Z.to_nat idx) cs)), true)
          else
            let '(cs', removed) :=
              (fix each (cs : list TTreeNode) : list TTreeNode * bool :=
                 match cs with
                 | [] => ([], false)
                 | c :: rest =>
                     let '(c', removed) := removeNodeFromTree c i in
                     if removed then (c' :: rest, true)
                     else let '(rest', r) := each rest in (c' :: rest', r)
                 end) cs in
            (TTreeNode.mk nm rid ty (Some cs'), removed)
      end
  end.

(** [findNodeByIdMutable]: the node itself, then the children in order;
    the value of the node the returned reference points at. *)
Fixpoint findNodeByIdMutable (root : TTreeNode) (i : string)
    : option TTreeNode :=
  match root with
  | TTreeNode.mk _ rid _ ch =>
      if bool_decide (rid = i) then Some root
      else
        match ch with
        | None => None
        | Some cs =>
            (fix each (cs : list TTreeNode) : option TTreeNode :=
               match cs with
               | [] => None
               | c :: rest =>
                   match findNodeByIdMutable c i with
                   | Some found => Some found
                   | None => each rest
                   end
               end) cs
        end
  end.

(** A write through the reference that [findNodeByIdMutable] returns: the
    tree in which the node it finds is replaced by [f] of it, or [None]
    when it finds none. *)
Fixpoint updateFound (f : TTreeNode -> TTreeNode) (root : TTreeNode)
    (i : string) : option TTreeNode :=
  match root with
  | TTreeNode.mk nm rid ty ch =>
      if bool_decide (rid = i) then Some (f root)
      else
        match ch with
        | None => None
        | Some cs =>
            match
              (fix each (cs : list TTreeNode) : option (list TTreeNode) :=
                 match cs with
                 | [] => None
                 | c :: rest =>
                     match updateFound f c i with
                     | Some c' => Some (c' :: rest)
                     | None =>
                         match each rest with
                         | Some rest' => Some (c :: rest')
                         | None => None
                         end
                     end
                 end) cs
            with
            | Some cs' => Some (TTreeNode.mk nm rid ty (Some cs'))
            | None => None
            end
        end
  end.

(** [if (!targetParent.children) targetParent.children = [];
    targetParent.children.splice(insertAt, 0, ...items)] *)
Definition insertChildren (at_ : Z) (new : list TTreeNode)
    (tp : TTreeNode) : TTreeNode :=
  TTreeNode.mk (TTreeNode.name tp) (TTreeNode.id tp) (TTreeNode.type tp)
    (Some (spliceInsert at_ new (default [] (TTreeNode.children tp)))).

(** The loop [for (const item of items) removeNodeFromTree(newTree,
    item.id)] on the clone of the tree. *)
Definition removeAll (items : list TTreeNode) (tree : TTreeNode) : TTreeNode :=
  fold_left (fun t it => (removeNodeFromTree t (TTreeNode.id it)).1) items tree.

(** The state updater of [handleDragEnd]: the next tree, which is the
    previous one when the target parent is not found after the removals. *)
Definition handleDragEnd (payload : DragEndPayload) (prevTree : TTreeNode)
    : TTreeNode :=
  let newTree := removeAll (payload_items payload) prevTree in
  match
    updateFound (insertChildren (insertAt payload) (payload_items payload))
      newTree (TTreeNode.id (payload_parent payload))
  with
  | Some t => t
  | None => prevTree
  end.

End ImplApp.

(** ** tree-utils.ts of the first implementation (unnamed/part_005) *)

(** [findInNodes]: each node before its children. *)
Fixpoint findInNode (n : TTreeNode) (i : string) : option TTreeNode :=
  match n with
  | TTreeNode.mk _ nid _ ch =>
      if bool_decide (nid = i) then Some n
      else
        match ch with
        | None => None
        | Some cs =>
            (fix findInNodes (cs : list TTreeNode) : option TTreeNode :=
               match cs with
               | [] => None
               | c :: rest =>
                   match findInNode c i with
                   | Some found => Some found
                   | None => findInNodes rest
                   end
               end) cs
        end
  end.

Fixpoint findInNodes (nodes : list TTreeNode) (i : string)
    : option TTreeNode :=
  match nodes with
  | [] => None
  | n :: rest =>
      match findInNode n i with
      | Some found => Some found
      | None => findInNodes rest i
      end
  end.

(** [findNodeById(tree, id)] of tree-utils.ts: the root is not looked at. *)
Definition legacyFindNodeById (tree : TTreeNode) (i : string)
    : option TTreeNode :=
  match TTreeNode.children tree with
  | Some cs => findInNodes cs i
  | None => None
  end.

(** ** tree/TreeDropMarker.tsx, and what TreeNode.tsx and Tree.tsx render *)

Definition DEPTH_PADDING : Z := 20.

(** [dropIntent === "inside"] on the nullable field. *)
Definition isInside (d : option DropIntent) : bool :=
  match d with
  | Some inside => true
  | _ => false
  end.

(** [TreeDropMarker]: [None] when the component returns null, otherwise the
    left margin of the line. *)
Definition TreeDropMarker (idx : Z) (s : TreeStore) : option Z :=
  let hp := hoveredParent s in
  if negb (bool_decide (hp_index hp = Some idx))
     || isInside (dropIntent hp)
  then None
  else Some ((default 0 (parentDepth hp) + 1) * DEPTH_PADDING).

(** What [TreeNode] derives from the store for the row of a node: its left
    padding and the three highlights. *)
Record RowView := mkRowView {
  paddingLeft : Z;
  isSelected : bool;
  isDragging : bool;
  ring : bool
}.

Definition renderRow (n : InternalTreeNode) (s : TreeStore) : RowView :=
  let isDirectory :=
    match TTreeNode.type (item n) with directory => true | file => false end in
  let isDropInside :=
    bool_decide (parentId (hoveredParent s) = Some (item_id n))
    && isInside (dropIntent (hoveredParent s)) in
  mkRowView (depth n * DEPTH_PADDING)
    (bool_decide (item_id n ∈ selectedIds s))
    (bool_decide (item_id n ∈ draggingIds s))
    (isDropInside && isDirectory).

(** The list [Tree] renders: the marker before the first row, then every
    row followed by the marker after it, the markers numbered by array
    position. *)
Definition renderRows (internalRoot : InternalTreeNode) (s : TreeStore)
    : option Z * list (RowView * option Z) :=
  let selectableItems := useSelectableItems internalRoot (collapsed s) in
  (TreeDropMarker 0 s,
   imap (fun k x => (renderRow (node x) s, TreeDropMarker (Z.of_nat k + 1) s))
     selectableItems).

(** [primaryDragItem]: the item shown in the drag overlay. *)
Definition primaryDragItem (internalRoot : InternalTreeNode) (s : TreeStore)
    : option TTreeNode :=
  let selectableItems := useSelectableItems internalRoot (collapsed s) in
  match draggingIds s with
  | [] => None
  | first :: _ =>
      (fun x => item (node x))
        <$> List.find (fun x => bool_decide (entry_id x = first))
              selectableItems
  end.
(** * Reference notions used in the statements *)

(** All nodes of a subtree, each with its parent link, the node before its
    children and the children left to right. *)
Fixpoint preorder_sub (t : Subtree) (p : option InternalTreeNode)
    : list InternalTreeNode :=
  match t with
  | mkSubtree it d ch =>
      let n := mkInternalTreeNode t p in
      n :: match ch with
           | Some cs => flat_map (fun c => preorder_sub c (Some n)) cs
           | None => []
           end
  end.

Definition preorder (n : InternalTreeNode) : list InternalTreeNode :=
  preorder_sub (subtree n) (parent n).

(** The nodes below [n], [n] itself left out. *)
Definition descendants (n : InternalTreeNode) : list InternalTreeNode :=
  tail (preorder n).

(** The proper ancestors of a node, nearest first, the root last. *)
Fixpoint ancestors (n : InternalTreeNode) : list InternalTreeNode :=
  match parent n with
  | Some p => p :: ancestors p
  | None => []
  end.

(** No ancestor of [n] is collapsed; the synthetic root (the ancestor
    without a parent) does not count. *)
Definition ancestorsExpanded (collapsedMap : gmap string bool)
    (n : InternalTreeNode) : bool :=
  forallb
    (fun a =>
       match parent a with
       | None => true
       | Some _ => negb (isCollapsedIn collapsedMap (item_id a))
       end)
    (ancestors n).

(** Entries numbered consecutively from [k]. *)
Definition numbered (k : Z) (ns : list InternalTreeNode)
    : list SelectableTreeNode :=
  zip_with mkSelectable ns (seqZ k (Z.of_nat (length ns))).

(** Ids are unique across the whole tree. *)
Definition uniqueIds (root : InternalTreeNode) : Prop :=
  NoDup (map item_id (preorder root)).

(** Every node of the subtree has a positive depth (it is not the root). *)
Definition depthsPositive (t : Subtree) : Prop :=
  Forall (fun n => 0 < depth n) (preorder_sub t None).

(** The walk state after pushing the visible ones among [ns]. *)
Definition walkResult (c : gmap string bool) (st : WalkState)
    (ns : list InternalTreeNode) : WalkState :=
  let vs := List.filter (ancestorsExpanded c) ns in
  mkWalkState (items st ++ numbered (next_index st) vs)
    (next_index st + Z.of_nat (length vs)).

(** The ids on the parent chain of a node, the node itself first. *)
Definition chainIds (n : InternalTreeNode) : list string :=
  map item_id (n :: ancestors n).

(** A hover target is clean for a set of dragged ids when it names no
    parent, or names a node of the tree whose parent chain holds no dragged
    id. *)
Definition cleanTarget (root : InternalTreeNode) (dragging : list string)
    (hp : HoveredParent) : Prop :=
  forall pid, parentId hp = Some pid ->
    exists tp, tp ∈ preorder root /\ item_id tp = pid
               /\ parentDepth hp = Some (depth tp)
               /\ forall d, d ∈ dragging -> d ∉ chainIds tp.

(** [c] is not the node named like [n]. *)
Definition otherThan (n c : InternalTreeNode) : bool :=
  negb (bool_decide (item_id c = item_id n)).

(** [c] is not named like any node of [V]. *)
Definition notDragged (V : list InternalTreeNode) (c : InternalTreeNode)
    : bool :=
  negb (bool_decide (item_id c ∈ map item_id V)).

(** The child index of a hover target lies within the child list of the
    node it names. *)
Definition boundedTarget (root : InternalTreeNode) (hp : HoveredParent)
    : Prop :=
  forall pid ci tp,
    parentId hp = Some pid -> childIndex hp = Some ci ->
    findNodeById root pid = Some tp ->
    0 <= ci <= Z.of_nat (length (default [] (children tp))).

(** The stores a drag gesture passes through: it starts from a cleared drag
    state, and then pointer moves and auto-expand firings follow in any
    order. *)
Inductive dragging_from (root : InternalTreeNode) (s0 : TreeStore)
    : TreeStore -> Prop :=
  | drag_started activeId :
      dragging_from root s0 (handleDragStart activeId (clearDragState s0))
  | drag_moved s ev :
      dragging_from root s0 s ->
      dragging_from root s0 (handleDragMove root ev s)
  | drag_expanded s it :
      dragging_from root s0 s ->
      dragging_from root s0 (autoExpandFire it s).

(** The raw nodes of a raw tree, a node before its children. *)
Fixpoint rawPreorder (raw : TTreeNode) : list TTreeNode :=
  match raw with
  | TTreeNode.mk _ _ _ ch =>
      raw :: match ch with
             | Some cs => flat_map rawPreorder cs
             | None => []
             end
  end.

(** Some proper ancestor of [m], the root aside, carries the id [i]. *)
Definition belowNamed (i : string) (m : InternalTreeNode) : bool :=
  existsb
    (fun a =>
       match parent a with
       | None => false
       | Some _ => bool_decide (item_id a = i)
       end)
    (ancestors m).

(** * Fixtures: the trees and stores of the examples *)

Definition fileNode (i : string) : TTreeNode := TTreeNode.mk i i file None.

Definition dirNode (i : string) (cs : list TTreeNode) : TTreeNode :=
  TTreeNode.mk i i directory (Some cs).

Definition exampleData : TTreeNode :=
  dirNode "root" [dirNode "A" [fileNode "A1"; fileNode "A2"]; fileNode "B"].

Definition exampleRoot : InternalTreeNode := buildInternalTree exampleData None 0.

Definition shiftClick : MouseEvent := mkMouseEvent true false false.

Definition emptyIdData : TTreeNode :=
  dirNode "root" [fileNode ""; fileNode "b"].

Definition emptyIdRoot : InternalTreeNode := buildInternalTree emptyIdData None 0.

Definition staleStore : TreeStore :=
  mkTreeStore ["A1"%string] (Some "A1"%string) {["A"%string := true]} []
    initialHoveredParent.

Definition fiveData : TTreeNode :=
  dirNode "root"
    [fileNode "c0"; fileNode "c1"; fileNode "c2"; fileNode "c3"; fileNode "c4"].

Definition fiveRoot : InternalTreeNode := buildInternalTree fiveData None 0.

(** A rectangle of height 20 at the given top. *)
Definition rectAt (y : float) : ClientRect := mkClientRect y 20.

(** The dragged rectangle is placed so that its centre is [dy] below the top
    of the hovered row, which starts at 100. *)
Definition moveOver (i : string) (dy : float) : DragMoveEvent :=
  mkDragMoveEvent (Some (mkOver i (rectAt 100)))
    (mkActive "dragged" (Some (rectAt (90 + dy)))).

Definition dropEvent : DragEndEvent :=
  mkDragEndEvent (Some (mkOver "any" (rectAt 100))).

Definition hoverStore (dragging : list string) (hp : HoveredParent) : TreeStore :=
  mkTreeStore dragging (head dragging) ∅ dragging hp.

Definition nodeA : InternalTreeNode :=
  mkInternalTreeNode
    (buildSubtree (dirNode "A" [fileNode "A1"; fileNode "A2"]) 1)
    (Some exampleRoot).

Definition entryA : SelectableTreeNode := mkSelectable nodeA 0.

Definition entryA1 : SelectableTreeNode :=
  mkSelectable (mkInternalTreeNode (buildSubtree (fileNode "A1") 2) (Some nodeA)) 1.

Definition rootTarget : HoveredParent :=
  mkHoveredParent (Some "root"%string) (Some 0) (Some 0) (Some 0) (Some above).

Definition entryB : SelectableTreeNode :=
  mkSelectable
    (mkInternalTreeNode (buildSubtree (fileNode "B") 1) (Some exampleRoot)) 3.

Definition selectedA : TreeStore :=
  mkTreeStore ["A"%string] (Some "A"%string) ∅ [] initialHoveredParent.

(** B picked up and held over the middle of A. *)
Definition holdingB : TreeStore :=
  handleDragMove exampleRoot (moveOver "A" 10)
    (handleDragStart "B" (clearDragState selectedA)).


(** * Reference notions for the raw tree and its owner *)

(** The ids of a raw tree in pre-order, the root's first. *)
Definition rawIds (t : TTreeNode) : list string :=
  map TTreeNode.id (rawPreorder t).

(** The raw tree without the nodes below the root that are named in [I],
    their subtrees gone with them. *)
Fixpoint prune (I : list string) (t : TTreeNode) : TTreeNode :=
  match t with
  | TTreeNode.mk nm i ty ch =>
      TTreeNode.mk nm i ty
        (match ch with
         | Some cs =>
             Some (List.filter
                     (fun c => negb (bool_decide (TTreeNode.id c ∈ I)))
                     (map (prune I) cs))
         | None => None
         end)
  end.

(** The first result of [g] along a list: the shape of the search loops. *)
Definition firstSome {A B} (g : A -> option B) : list A -> option B :=
  fix each (cs : list A) : option B :=
    match cs with
    | [] => None
    | c :: rest =>
        match g c with
        | Some found => Some found
        | None => each rest
        end
    end.

(** The removal loop over the children: it stops at the first child in
    which a node was removed. *)
Definition removeEach (rm : TTreeNode -> TTreeNode * bool)
    : list TTreeNode -> list TTreeNode * bool :=
  fix each (cs : list TTreeNode) : list TTreeNode * bool :=
    match cs with
    | [] => ([], false)
    | c :: rest =>
        let '(c', removed) := rm c in
        if removed then (c' :: rest, true)
        else let '(rest', r) := each rest in (c' :: rest', r)
    end.

(** The update loop over the children. *)
Definition updateEach (up : TTreeNode -> option TTreeNode)
    : list TTreeNode -> option (list TTreeNode) :=
  fix each (cs : list TTreeNode) : option (list TTreeNode) :=
    match cs with
    | [] => None
    | c :: rest =>
        match up c with
        | Some c' => Some (c' :: rest)
        | None =>
            match each rest with
            | Some rest' => Some (c :: rest')
            | None => None
            end
        end
    end.

(** The topmost nodes below the root that are named in [I]: the roots of
    the subtrees that [prune] cuts out. *)
Fixpoint removedRoots (I : list string) (t : TTreeNode) : list TTreeNode :=
  match t with
  | TTreeNode.mk _ _ _ ch =>
      match ch with
      | Some cs =>
          flat_map
            (fun c =>
               if bool_decide (TTreeNode.id c ∈ I) then [c]
               else removedRoots I c)
            cs
      | None => []
      end
  end.

(** The payload of dropping B into A in the example tree. *)
Definition payloadBintoA : DragEndPayload :=
  mkDragEndPayload [fileNode "B"] (dirNode "A" [fileNode "A1"; fileNode "A2"])
    [fileNode "A1"; fileNode "A2"] 0.

(** A1 and the container A that holds it, both picked up and held at the
    end of the top level. *)
Definition nestedDrag : TreeStore :=
  mkTreeStore ["A"; "A1"]%string (Some "A"%string) ∅ ["A"; "A1"]%string
    (mkHoveredParent (Some "root"%string) (Some 0) (Some 4) (Some 2)
       (Some below)).

Definition payloadNested : DragEndPayload :=
  mkDragEndPayload [dirNode "A" [fileNode "A1"; fileNode "A2"]; fileNode "A1"]
    exampleData [fileNode "B"] 1.

(** The drop markers that [Tree] renders, top to bottom. *)
Definition renderedMarkers (internalRoot : InternalTreeNode) (s : TreeStore)
    : list (option Z) :=
  (renderRows internalRoot s).1 :: map snd (renderRows internalRoot s).2.

(** A1 picked up and held over the lower half of B. *)
Definition holdingA1 : TreeStore := hoverStore ["A1"%string] initialHoveredParent.

(** B picked up and held over the lower half of A1. *)
Definition holdingBoverA1 : TreeStore :=
  handleDragMove exampleRoot (moveOver "A1" 15)
    (handleDragStart "B" (clearDragState selectedA)).

Definition metaClick : MouseEvent := mkMouseEvent false true false.

(** The ids of the rows that a visible node contributes to the flat
    sequence: its own, then, unless it is collapsed, those of its
    children. *)
Fixpoint rows (c : gmap string bool) (t : TTreeNode) : list string :=
  match t with
  | TTreeNode.mk _ i _ ch =>
      i :: if isCollapsedIn c i then []
           else match ch with
                | Some cs => flat_map (rows c) cs
                | None => []
                end
  end.

(** The ids of the flat sequence, read off the raw tree. *)
Definition rawFlat (c : gmap string bool) (t : TTreeNode) : list string :=
  flat_map (rows c) (default [] (TTreeNode.children t)).

(** [SplitAt c t pid L R B A]: the node named [pid] is shown in [t] with
    its children shown, its children are [L ++ R], and the flat sequence of
    [t] is [B ++ A], cut where the rows of [R] start. *)
Inductive SplitAt (c : gmap string bool)
    : TTreeNode -> string -> list TTreeNode -> list TTreeNode ->
      list string -> list string -> Prop :=
  | split_here t L R :
      default [] (TTreeNode.children t) = L ++ R ->
      SplitAt c t (TTreeNode.id t) L R
        (flat_map (rows c) L) (flat_map (rows c) R)
  | split_below t pid l1 ch l2 L R b a :
      TTreeNode.children t = Some (l1 ++ ch :: l2) ->
      TTreeNode.id t <> pid ->
      isCollapsedIn c (TTreeNode.id ch) = false ->
      SplitAt c ch pid L R b a ->
      SplitAt c t pid L R
        (flat_map (rows c) l1 ++ TTreeNode.id ch :: b)
        (a ++ flat_map (rows c) l2).

(** What [prune I] keeps of a list of children. *)
Definition pruned (I : list string) (l : list TTreeNode) : list TTreeNode :=
  List.filter (fun ch => negb (bool_decide (TTreeNode.id ch ∈ I)))
    (map (prune I) l).

(** [moved] holds exactly the ids of the subtrees of [t] that [prune I]
    cuts out, as far as the ids below the root of [t] go. *)
Definition movedWithin (I moved : list string) (t : TTreeNode) : Prop :=
  (forall j, j ∈ moved -> j ∈ tail (rawIds t) ->
     exists z, z ∈ tail (rawPreorder t) /\ TTreeNode.id z ∈ I /\ j ∈ rawIds z)
  /\ (forall z, z ∈ tail (rawPreorder t) -> TTreeNode.id z ∈ I ->
        forall j, j ∈ rawIds z -> j ∈ moved).

(** The rows whose id is not among the moved ones. *)
Definition unmoved (moved : list string) (l : list string) : list string :=
  List.filter (fun j => negb (bool_decide (j ∈ moved))) l.

(** The payload of dropping B below A1 in the example tree. *)
Definition payloadBbelowA1 : DragEndPayload :=
  mkDragEndPayload [fileNode "B"] (dirNode "A" [fileNode "A1"; fileNode "A2"])
    [fileNode "A1"; fileNode "A2"] 1.
(** * The collapse map as the specification reads it *)

(** The specification's collapse map is a mapping from node id to boolean
    in which absence means expanded: a container is marked collapsed
    exactly when the map holds [true] under its id. *)
Definition markedCollapsed (c : gmap string bool) (i : string) : bool :=
  default false (c !! i).

(** No ancestor of [n], the synthetic root aside, is marked collapsed. *)
Definition chainUncollapsed (c : gmap string bool) (n : InternalTreeNode)
    : bool :=
  forallb
    (fun a =>
       match parent a with
       | None => true
       | Some _ => negb (markedCollapsed c (item_id a))
       end)
    (ancestors n).

(** The lookup of [i] cannot reach the prototype: [i] has an entry of its
    own, or it is not a property name of [Object.prototype]. *)
Definition ownOrPlain (c : gmap string bool) (i : string) : Prop :=
  i ∈ objectPrototypeKeys -> is_Some (c !! i).

(** A tree with a directory named like a property of [Object.prototype]. *)
Definition ctorData : TTreeNode :=
  dirNode "root" [dirNode "constructor" [fileNode "c1"]; fileNode "B"].

Definition ctorRoot : InternalTreeNode := buildInternalTree ctorData None 0.

(** A click with shift and meta held. *)
Definition shiftMetaClick : MouseEvent := mkMouseEvent true true false.

(** * Structural lemmas *)

Lemma Subtree_nested_ind (P : Subtree -> Prop) :
  (forall it d, P (mkSubtree it d None)) ->
  (forall it d cs, Forall P cs -> P (mkSubtree it d (Some cs))) ->
  forall t, P t.
Proof.
  intros Hleaf Hnode.
  fix IH 1. intros [it d [cs|]].
  - apply Hnode. induction cs as [|c cs IHcs]; constructor; [apply IH | exact IHcs].
  - apply Hleaf.
Qed.

Lemma TTreeNode_nested_ind (P : TTreeNode -> Prop) :
  (forall n i ty, P (TTreeNode.mk n i ty None)) ->
  (forall n i ty cs, Forall P cs -> P (TTreeNode.mk n i ty (Some cs))) ->
  forall t, P t.
Proof.
  intros Hleaf Hnode.
  fix IH 1. intros [n i ty [cs|]].
  - apply Hnode. induction cs as [|c cs IHcs]; constructor; [apply IH | exact IHcs].
  - apply Hleaf.
Qed.

(** * JavaScript arrays *)

(** Facts about one test [f], as passed to [findIndex], [find] and
    [filter]. *)
Section Predicate.
Context {A : Type} (f : A -> bool).

Lemma findIndex_range l :
  findIndex f l = -1 \/ 0 <= findIndex f l < Z.of_nat (length l).
Proof.
  induction l as [|x l IH]; [by left|]. simpl.
  destruct (f x); [right; lia|].
  destruct IH as [->|IH]; [by left|]. right.
  destruct (Z.eqb_spec (findIndex f l) (-1)); lia.
Qed.

Lemma findIndex_none l :
  findIndex f l = -1 <-> Forall (fun x => f x = false) l.
Proof.
  induction l as [|x l IH]; simpl; [split; [constructor|done]|].
  destruct (f x) eqn:Hx.
  - split; [lia|]. intros H. apply Forall_cons_1 in H as [H _]. congruence.
  - pose proof (findIndex_range l) as R.
    destruct (Z.eqb_spec (findIndex f l) (-1)) as [E|E].
    + split; [|done]. intros _. constructor; [done|]. by apply IH.
    + split; [lia|]. intros H. apply Forall_cons_1 in H as [_ H].
      apply IH in H. lia.
Qed.

Lemma findIndex_some l i :
  findIndex f l = i -> i <> -1 ->
  exists x, l !! Z.to_nat i = Some x /\ f x = true
            /\ Forall (fun y => f y = false) (take (Z.to_nat i) l).
Proof.
  revert i. induction l as [|x l IH]; intros i; simpl; [lia|].
  destruct (f x) eqn:Hx.
  - intros <- _. exists x. by repeat split; [|constructor].
  - pose proof (findIndex_range l) as R.
    destruct (Z.eqb_spec (findIndex f l) (-1)) as [E|E]; [lia|].
    intros <- _. destruct (IH _ eq_refl E) as (y & Hy & Hfy & Hpre).
    exists y. replace (Z.to_nat (findIndex f l + 1)) with (S (Z.to_nat (findIndex f l))) by lia.
    simpl. repeat split; [done..|]. by constructor.
Qed.

Lemma findIndex_first l1 x l2 :
  Forall (fun y => f y = false) l1 -> f x = true ->
  findIndex f (l1 ++ x :: l2) = Z.of_nat (length l1).
Proof.
  intros H Hx. induction H as [|y l1 Hy _ IH]; simpl; [by rewrite Hx|].
  rewrite Hy, IH. destruct (Z.eqb_spec (Z.of_nat (length l1)) (-1)); lia.
Qed.

Lemma find_findIndex l :
  List.find f l
  = if findIndex f l =? -1 then None else l !! Z.to_nat (findIndex f l).
Proof.
  induction l as [|x l IH]; [done|]. simpl.
  destruct (f x); [done|]. rewrite IH.
  pose proof (findIndex_range l) as R.
  destruct (Z.eqb_spec (findIndex f l) (-1)) as [E|E]; [done|].
  destruct (Z.eqb_spec (findIndex f l + 1) (-1)); [lia|].
  replace (Z.to_nat (findIndex f l + 1)) with (S (Z.to_nat (findIndex f l))) by lia.
  done.
Qed.

Lemma findIndex_present l x :
  x ∈ l -> f x = true -> findIndex f l <> -1.
Proof.
  intros Hin Hx E. apply findIndex_none in E.
  rewrite Forall_forall in E. specialize (E x Hin). congruence.
Qed.

Lemma filter_all l :
  Forall (fun x => f x = true) l -> List.filter f l = l.
Proof. induction 1 as [|x l Hx _ IH]; simpl; [done|]. by rewrite Hx, IH. Qed.

Lemma filter_none l :
  Forall (fun x => f x = false) l -> List.filter f l = [].
Proof. induction 1 as [|x l Hx _ IH]; simpl; [done|]. by rewrite Hx, IH. Qed.

Lemma filter_sublist l : sublist (List.filter f l) l.
Proof.
  induction l as [|x l IH]; [done|]. simpl.
  destruct (f x); [by apply sublist_skip|by apply sublist_cons].
Qed.

Lemma filter_elem_of l x :
  x ∈ List.filter f l <-> x ∈ l /\ f x = true.
Proof. rewrite !list_elem_of_In. apply List.filter_In. Qed.

Lemma find_app l1 l2 :
  List.find f (l1 ++ l2)
  = match List.find f l1 with Some x => Some x | None => List.find f l2 end.
Proof. induction l1 as [|x l1 IH]; [done|]. simpl. by destruct (f x). Qed.

Lemma filter_length_split l :
  length l
  = (length (List.filter f l) + length (List.filter (fun x => negb (f x)) l))%nat.
Proof.
  induction l as [|x l IH]; [done|]. simpl. destruct (f x); simpl; lia.
Qed.

Lemma findIndex_split l :
  Forall (fun y => f y = false) l
  \/ exists l1 x l2, l = l1 ++ x :: l2 /\ f x = true
                     /\ Forall (fun y => f y = false) l1.
Proof.
  induction l as [|y l IH]; [left; constructor|].
  destruct (f y) eqn:Hy.
  - right. exists [], y, l. repeat split; [done|constructor].
  - destruct IH as [H|(l1 & x & l2 & -> & Hx & H1)].
    + left. by constructor.
    + right. exists (y :: l1), x, l2. repeat split; [done|by constructor].
Qed.

End Predicate.

Lemma slice_spec {A} (lo hi : Z) (l : list A) :
  0 <= lo <= hi -> hi <= Z.of_nat (length l) ->
  slice lo hi l = take (Z.to_nat (hi - lo)) (drop (Z.to_nat lo) l).
Proof.
  intros H1 H2. unfold slice.
  destruct (Z.ltb_spec lo 0); [lia|]. destruct (Z.ltb_spec hi 0); [lia|].
  by rewrite !Z.min_l by lia.
Qed.

Lemma flat_map_map {A B C} (f : A -> B) (g : B -> list C) (l : list A) :
  flat_map g (map f l) = flat_map (fun a => g (f a)) l.
Proof. induction l as [|a l IH]; [done|]. simpl. by rewrite IH. Qed.

Lemma map_flat_map {A B C} (f : A -> list B) (g : B -> C) (l : list A) :
  map g (flat_map f l) = flat_map (fun a => map g (f a)) l.
Proof. induction l as [|a l IH]; [done|]. simpl. by rewrite map_app, IH. Qed.

Lemma NoDup_flat_map_part {A B} (f : A -> list B) (l : list A) a :
  NoDup (flat_map f l) -> a ∈ l -> NoDup (f a).
Proof.
  induction l as [|b l IH]; intros Hnd Ha; [by apply elem_of_nil in Ha|].
  simpl in Hnd. apply NoDup_app in Hnd as (H1 & _ & H2).
  apply elem_of_cons in Ha as [->|Ha]; auto.
Qed.

Lemma flat_map_heads {A B} (f : A -> list B) (h : A -> B) (l : list A) :
  (forall a, exists tl, f a = h a :: tl) ->
  sublist (map h l) (flat_map f l).
Proof.
  intros H. induction l as [|a l IH]; [done|]. simpl.
  destruct (H a) as [tl ->]. simpl. apply sublist_skip.
  etrans; [apply IH|]. apply sublist_inserts_l. done.
Qed.

Lemma find_nodup_key {A} (key : A -> string) (l : list A) x :
  NoDup (map key l) -> x ∈ l ->
  List.find (fun y => bool_decide (key y = key x)) l = Some x.
Proof.
  intros Hnd Hx. apply list_elem_of_lookup in Hx as [k Hk].
  apply list_elem_of_split_length in Hk as (l1 & l2 & -> & ->).
  rewrite find_findIndex, findIndex_first.
  - destruct (Z.eqb_spec (Z.of_nat (length l1)) (-1)); [lia|].
    rewrite Nat2Z.id. by rewrite list_lookup_middle.
  - rewrite map_app in Hnd. simpl in Hnd.
    apply NoDup_app in Hnd as (_ & Hdis & _).
    apply Forall_forall. intros y Hy. apply bool_decide_eq_false. intros E.
    apply (Hdis (key y)); [apply list_elem_of_fmap; by exists y|].
    rewrite E. left.
  - by apply bool_decide_eq_true.
Qed.

Lemma filter_filter {A} (f g : A -> bool) l :
  List.filter f (List.filter g l) = List.filter (fun x => g x && f x) l.
Proof.
  induction l as [|x l IH]; [done|]. simpl.
  destruct (g x); simpl; [destruct (f x)|]; by rewrite IH.
Qed.

Lemma delete_middle {A} (l1 : list A) x l2 :
  delete (length l1) (l1 ++ x :: l2) = l1 ++ l2.
Proof. induction l1 as [|y l1 IH]; [done|]. simpl. by rewrite <- IH. Qed.
(** * The flattener *)

Lemma walk_each_eq c n cs st :
  (fix each (cs : list Subtree) (st : WalkState) : WalkState :=
     match cs with
     | [] => st
     | c0 :: cs' => each cs' (walk_sub c c0 (Some n) st)
     end) cs st
  = fold_left (fun st c0 => walk_sub c c0 (Some n) st) cs st.
Proof. revert st. induction cs; simpl; auto. Qed.

Lemma walk_children_fold c n cs w :
  fold_left (fun st c0 => walk_sub c c0 (Some n) st) cs w
  = fold_left (fun st child => walk c child st)
      (map (fun c0 => mkInternalTreeNode c0 (Some n)) cs) w.
Proof. revert w. induction cs as [|a cs IH]; simpl; intros w; [done|apply IH]. Qed.

(** The equation of the source's [walk]. *)
Lemma walk_eq c n st :
  walk c n st =
  let st1 := if 0 <? depth n then push st n else st in
  match children n with
  | Some cs =>
      if (depth n =? 0) || negb (isCollapsedIn c (item_id n))
      then fold_left (fun st child => walk c child st) cs st1
      else st1
  | None => st1
  end.
Proof.
  destruct n as [[it d ch] p]. unfold walk, children, depth, item_id, item. simpl.
  destruct ch as [cs|]; [|done].
  destruct (_ || _); [|done].
  rewrite walk_each_eq. apply walk_children_fold.
Qed.

Lemma numbered_nil k : numbered k [] = [].
Proof. reflexivity. Qed.

Lemma numbered_cons k n ns :
  numbered k (n :: ns) = mkSelectable n k :: numbered (k + 1) ns.
Proof.
  unfold numbered. simpl length. rewrite seqZ_cons by lia. simpl.
  do 3 f_equal; lia.
Qed.

Lemma numbered_app k l1 l2 :
  numbered k (l1 ++ l2)
  = numbered k l1 ++ numbered (k + Z.of_nat (length l1)) l2.
Proof.
  revert k. induction l1 as [|n l1 IH]; intros k.
  - simpl. f_equal. lia.
  - simpl app. rewrite !numbered_cons, IH. simpl. do 3 f_equal. lia.
Qed.

Lemma numbered_length k l : length (numbered k l) = length l.
Proof. revert k. induction l; intros; [done|]. rewrite numbered_cons. simpl. by rewrite IHl. Qed.

Lemma numbered_node k l : map node (numbered k l) = l.
Proof. revert k. induction l; intros; [done|]. rewrite numbered_cons. simpl. by rewrite IHl. Qed.

Lemma numbered_index k l :
  map index (numbered k l) = seqZ k (Z.of_nat (length l)).
Proof.
  revert k. induction l; intros; [done|]. rewrite numbered_cons. simpl map.
  rewrite IHl. simpl length. rewrite (seqZ_cons k) by lia. do 2 f_equal; lia.
Qed.

Lemma ancestorsExpanded_child c t n :
  ancestorsExpanded c (mkInternalTreeNode t (Some n))
  = match parent n with
    | None => true
    | Some _ => negb (isCollapsedIn c (item_id n))
    end && ancestorsExpanded c n.
Proof. reflexivity. Qed.

Lemma ancestorsExpanded_root c t :
  ancestorsExpanded c (mkInternalTreeNode t None) = true.
Proof. reflexivity. Qed.

(** Nothing is visible below an invisible node. *)
Lemma filter_hidden_subtree c t :
  forall p, ancestorsExpanded c (mkInternalTreeNode t p) = false ->
  List.filter (ancestorsExpanded c) (preorder_sub t p) = [].
Proof.
  induction t as [it d|it d cs IH] using Subtree_nested_ind; intros p Hp.
  - simpl. by rewrite Hp.
  - simpl. rewrite Hp.
    set (n := mkInternalTreeNode _ p) in *. clearbody n.
    induction IH as [|c0 cs0 Hc0 _ IHcs]; [done|].
    simpl. rewrite List.filter_app, IHcs, Hc0; [done|].
    rewrite ancestorsExpanded_child, Hp. apply andb_false_r.
Qed.

Lemma filter_hidden_children c n cs :
  (forall t, ancestorsExpanded c (mkInternalTreeNode t (Some n)) = false) ->
  List.filter (ancestorsExpanded c)
    (flat_map (fun c0 => preorder_sub c0 (Some n)) cs) = [].
Proof.
  intros H. induction cs as [|c0 cs IH]; [done|].
  simpl. by rewrite List.filter_app, IH, filter_hidden_subtree.
Qed.

Lemma preorder_sub_depths t p q :
  map depth (preorder_sub t p) = map depth (preorder_sub t q).
Proof.
  revert p q. induction t as [it d|it d cs IH] using Subtree_nested_ind; intros p q.
  - done.
  - simpl. f_equal.
    set (n1 := mkInternalTreeNode _ p). set (n2 := mkInternalTreeNode _ q).
    clearbody n1 n2.
    induction IH as [|c0 cs0 Hc0 _ IHcs]; [done|].
    simpl. rewrite !map_app. f_equal; [apply Hc0|apply IHcs].
Qed.

Lemma depthsPositive_at t p :
  depthsPositive t <-> Forall (fun n => 0 < depth n) (preorder_sub t p).
Proof.
  unfold depthsPositive.
  assert (forall l, Forall (fun n => 0 < depth n) l
                    <-> Forall (fun d => 0 < d) (map depth l)) as E.
  { intros l. symmetry. apply (Forall_fmap depth). }
  by rewrite !E, (preorder_sub_depths t None p).
Qed.

Lemma depthsPositive_inv it d ch :
  depthsPositive (mkSubtree it d ch) ->
  0 < d /\ Forall depthsPositive (default [] ch).
Proof.
  intros H. apply Forall_cons_1 in H as [Hd H]. split; [exact Hd|].
  destruct ch as [cs|]; [|constructor]. simpl.
  set (n := mkInternalTreeNode _ None) in H. clearbody n.
  induction cs as [|c0 cs IH]; [constructor|].
  simpl in H. apply Forall_app in H as [H1 H2].
  constructor; [by apply (depthsPositive_at c0 (Some n))|by apply IH].
Qed.

Lemma walkResult_nil c st : walkResult c st [] = st.
Proof.
  destruct st. unfold walkResult. simpl. rewrite app_nil_r. f_equal. lia.
Qed.

Lemma walkResult_app c st l1 l2 :
  walkResult c (walkResult c st l1) l2 = walkResult c st (l1 ++ l2).
Proof.
  unfold walkResult. simpl. rewrite List.filter_app, numbered_app, length_app.
  rewrite <- app_assoc. f_equal. lia.
Qed.

Lemma fold_walk_visible c n cs :
  Forall
    (fun t =>
       depthsPositive t ->
       forall p st,
         is_Some p ->
         ancestorsExpanded c (mkInternalTreeNode t p) = true ->
         walk_sub c t p st = walkResult c st (preorder_sub t p)) cs ->
  Forall depthsPositive cs ->
  (forall t, ancestorsExpanded c (mkInternalTreeNode t (Some n)) = true) ->
  forall st,
    fold_left (fun st c0 => walk_sub c c0 (Some n) st) cs st
    = walkResult c st (flat_map (fun c0 => preorder_sub c0 (Some n)) cs).
Proof.
  intros IH Hd Hv. induction IH as [|c0 cs0 Hc0 _ IHcs]; intros st.
  - simpl. by rewrite walkResult_nil.
  - apply Forall_cons_1 in Hd as [Hd0 Hd]. simpl.
    rewrite Hc0, IHcs, walkResult_app; eauto.
Qed.

Lemma walk_sub_visible c t :
  depthsPositive t ->
  forall p st,
    is_Some p ->
    ancestorsExpanded c (mkInternalTreeNode t p) = true ->
    walk_sub c t p st = walkResult c st (preorder_sub t p).
Proof.
  induction t as [it d|it d cs IH] using Subtree_nested_ind;
    intros Hd p st Hp Hv; apply depthsPositive_inv in Hd as [Hd Hcs].
  - cbn [walk_sub]. apply Z.ltb_lt in Hd as ->.
    unfold walkResult. simpl. by rewrite Hv.
  - cbn [walk_sub]. rewrite walk_each_eq.
    pose proof Hd as Hd'. apply Z.ltb_lt in Hd' as ->.
    replace (d =? 0) with false by (symmetry; apply Z.eqb_neq; lia).
    cbn [orb preorder_sub].
    set (n := mkInternalTreeNode _ p) in *.
    change (n :: ?l) with ([n] ++ l).
    rewrite <- walkResult_app.
    assert (walkResult c st [n] = push st n) as ->.
    { unfold walkResult, push. simpl. by rewrite Hv. }
    destruct (isCollapsedIn c (TTreeNode.id it)) eqn:Hc; cbn [negb].
    + unfold walkResult at 1. rewrite filter_hidden_children.
      * destruct (push st n). simpl. rewrite app_nil_r. f_equal. lia.
      * intros t. rewrite ancestorsExpanded_child.
        destruct Hp as [q ->]. subst n. simpl. unfold item_id, item. simpl.
        by rewrite Hc.
    + apply fold_walk_visible; auto.
      intros t. rewrite ancestorsExpanded_child, Hv.
      destruct Hp as [q ->]. subst n. simpl. unfold item_id, item. simpl. by rewrite Hc.
Qed.

Lemma buildSubtree_depths raw :
  forall d p, Forall (fun n => d <= depth n) (preorder_sub (buildSubtree raw d) p).
Proof.
  induction raw as [nm i ty|nm i ty cs IH] using TTreeNode_nested_ind; intros d p.
  - constructor; [unfold depth; simpl; lia|constructor].
  - destruct cs as [|c cs]; [constructor; [unfold depth; simpl; lia|constructor]|].
    cbn [buildSubtree preorder_sub].
    constructor; [unfold depth; simpl; lia|].
    set (n := mkInternalTreeNode _ p). clearbody n.
    induction IH as [|c0 cs0 Hc0 _ IHcs]; [constructor|].
    simpl. apply Forall_app. split; [|apply IHcs].
    eapply Forall_impl; [apply (Hc0 (d + 1) (Some n))|]. simpl. intros; lia.
Qed.

Lemma buildSubtree_children_positive raw d :
  0 <= d -> Forall depthsPositive (default [] (sub_children (buildSubtree raw d))).
Proof.
  intros Hd. destruct raw as [nm i ty [[|c cs]|]]; simpl; try constructor.
  - eapply Forall_impl; [apply (buildSubtree_depths c (d + 1))|]. simpl; intros; lia.
  - apply Forall_fmap, Forall_forall. intros x _. simpl.
    eapply Forall_impl; [apply (buildSubtree_depths x (d + 1))|]. simpl; intros; lia.
Qed.

Lemma useSelectableItems_root c t :
  sub_depth t = 0 ->
  Forall depthsPositive (default [] (sub_children t)) ->
  useSelectableItems (mkInternalTreeNode t None) c
  = numbered 0
      (List.filter (ancestorsExpanded c) (descendants (mkInternalTreeNode t None))).
Proof.
  destruct t as [it d ch]. simpl. intros -> Hcs.
  unfold useSelectableItems, walk, descendants, preorder.
  cbn [subtree parent walk_sub preorder_sub tail].
  destruct ch as [cs|]; [|done]. simpl in Hcs.
  cbn [Z.eqb orb Z.ltb Z.compare]. rewrite walk_each_eq.
  rewrite fold_walk_visible; auto.
  apply Forall_forall. intros x _ Hx p st Hp Hv. by apply walk_sub_visible.
Qed.

Lemma useSelectableItems_built data c :
  useSelectableItems (buildInternalTree data None 0) c
  = numbered 0
      (List.filter (ancestorsExpanded c)
         (descendants (buildInternalTree data None 0))).
Proof.
  unfold buildInternalTree. apply useSelectableItems_root.
  - by destruct data.
  - by apply buildSubtree_children_positive.
Qed.

Lemma numbered_index_range k ns :
  Forall (fun x => k <= index x < k + Z.of_nat (length ns)) (numbered k ns).
Proof.
  revert k. induction ns as [|n ns IH]; intros k; [constructor|].
  rewrite numbered_cons. constructor; [simpl; lia|].
  eapply Forall_impl; [apply IH|]. simpl. intros; lia.
Qed.

Lemma numbered_lookup k ns (i : nat) x :
  numbered k ns !! i = Some x -> index x = k + Z.of_nat i.
Proof.
  intros Hx.
  assert (map index (numbered k ns) !! i = Some (index x)) as Hi
    by (by rewrite list_lookup_fmap, Hx).
  rewrite numbered_index in Hi. apply lookup_seqZ in Hi. lia.
Qed.

(** On a consecutively numbered list, cutting by position and selecting by
    [index] agree. *)
Lemma slice_numbered (ns : list InternalTreeNode) (lo hi : Z) :
  0 <= lo <= hi -> hi < Z.of_nat (length ns) ->
  slice lo (hi + 1) (numbered 0 ns)
  = List.filter (fun x => (lo <=? index x) && (index x <=? hi)) (numbered 0 ns).
Proof.
  intros H1 H2.
  rewrite slice_spec by (rewrite ?numbered_length; lia).
  assert (exists n1 n2 n3, ns = n1 ++ n2 ++ n3 /\ length n1 = Z.to_nat lo
            /\ length n2 = Z.to_nat (hi + 1 - lo)) as (n1 & n2 & n3 & -> & L1 & L2).
  { exists (take (Z.to_nat lo) ns),
      (take (Z.to_nat (hi + 1 - lo)) (drop (Z.to_nat lo) ns)),
      (drop (Z.to_nat (hi + 1 - lo)) (drop (Z.to_nat lo) ns)).
    rewrite !take_drop, length_take, length_take, length_drop.
    repeat split; lia. }
  rewrite !numbered_app, !List.filter_app.
  rewrite drop_app_length' by (rewrite numbered_length; lia).
  rewrite take_app_length' by (rewrite numbered_length; lia).
  rewrite (filter_none _ (numbered 0 n1)), (filter_all _ (numbered _ n2)),
    (filter_none _ (numbered _ n3)).
  - by rewrite app_nil_r.
  - eapply Forall_impl; [apply numbered_index_range|]. simpl. intros x Hx.
    apply andb_false_iff. right. apply Z.leb_gt. lia.
  - eapply Forall_impl; [apply numbered_index_range|]. simpl. intros x Hx.
    apply andb_true_iff. split; [apply Z.leb_le|apply Z.leb_le]; lia.
  - eapply Forall_impl; [apply numbered_index_range|]. simpl. intros x Hx.
    apply andb_false_iff. left. apply Z.leb_gt. lia.
Qed.

Lemma walk_sub_ext c1 c2 t :
  (forall k, isCollapsedIn c1 k = isCollapsedIn c2 k) ->
  forall p st, walk_sub c1 t p st = walk_sub c2 t p st.
Proof.
  intros E. induction t as [it d|it d cs IH] using Subtree_nested_ind; intros p st.
  - done.
  - cbn [walk_sub]. rewrite E. destruct (_ || _); [|done].
    rewrite !walk_each_eq.
    set (n := mkInternalTreeNode _ p).
    generalize (if 0 <? d then push st n else st). clearbody n.
    induction IH as [|c0 cs0 Hc0 _ IHcs]; intros w; [done|].
    simpl. by rewrite Hc0, IHcs.
Qed.

Example flatten_expanded :
  map (fun x => (entry_id x, index x)) (useSelectableItems exampleRoot ∅)
  = [("A", 0); ("A1", 1); ("A2", 2); ("B", 3)]%string.
Proof. vm_compute. reflexivity. Qed.

Example flatten_collapsed :
  map (fun x => (entry_id x, index x)) (useSelectableItems exampleRoot {["A"%string := true]})
  = [("A", 0); ("B", 1)]%string.
Proof. vm_compute. reflexivity. Qed.

Lemma isCollapsedIn_insert c i b k :
  isCollapsedIn (<[i := b]> c) k
  = if bool_decide (k = i) then b else isCollapsedIn c k.
Proof.
  unfold isCollapsedIn, readCollapsed.
  destruct (bool_decide (k = i)) eqn:E.
  - apply bool_decide_eq_true in E. subst. by rewrite lookup_insert_eq.
  - apply bool_decide_eq_false in E. by rewrite lookup_insert_ne.
Qed.

Lemma ancestorsExpanded_collapse c i m :
  ancestorsExpanded (<[i := true]> c) m
  = ancestorsExpanded c m && negb (belowNamed i m).
Proof.
  unfold ancestorsExpanded, belowNamed.
  induction (ancestors m) as [|a l IH]; [done|].
  cbn [forallb existsb]. rewrite IH, negb_orb.
  destruct (parent a);
    [|by destruct (forallb _ l), (existsb _ l)].
  rewrite isCollapsedIn_insert.
  set (x := forallb _ l). set (y := existsb _ l). clearbody x y.
  by destruct (bool_decide (item_id a = i)), (isCollapsedIn c (item_id a)), x, y.
Qed.

(** Collapsing [i] removes from the flat sequence exactly the nodes below
    a node named [i] and keeps the rest in order, the collapsed node
    included; toggling twice restores the sequence. *)
Theorem collapse_hides_subtree (data : TTreeNode) (s : TreeStore) (i : string) :
  let root := buildInternalTree data None 0 in
  let before := useSelectableItems root (collapsed s) in
  let after := useSelectableItems root (collapsed (setCollapsed i true s)) in
  map node after
  = List.filter (fun m => negb (belowNamed i m)) (map node before)
  /\ useSelectableItems root
       (collapsed (toggleCollapsed i (toggleCollapsed i s)))
     = before.
Proof.
  intros root before after. subst before after root. split.
  - rewrite !useSelectableItems_built, !numbered_node. cbn [setCollapsed collapsed].
    rewrite filter_filter. apply List.filter_ext. intros m.
    apply ancestorsExpanded_collapse.
  - unfold useSelectableItems, walk. apply f_equal, walk_sub_ext. intros k.
    unfold toggleCollapsed. cbn [collapsed]. rewrite !isCollapsedIn_insert.
    unfold readCollapsed at 1. rewrite lookup_insert_eq. simpl.
    case_bool_decide as E; [|done].
    subst. unfold isCollapsedIn.
    by destruct (default false (readCollapsed (collapsed s) i)).
Qed.

(** * The tree and its parent links *)

Lemma children_spec n :
  default [] (children n)
  = map (fun c => mkInternalTreeNode c (Some n))
      (default [] (sub_children (subtree n))).
Proof. unfold children. by destruct (sub_children (subtree n)). Qed.

Lemma preorder_sub_head t p :
  exists l, preorder_sub t p = mkInternalTreeNode t p :: l.
Proof. destruct t as [it d ch]. simpl. eauto. Qed.

Lemma preorder_sub_self t p : mkInternalTreeNode t p ∈ preorder_sub t p.
Proof. destruct (preorder_sub_head t p) as [l ->]. left. Qed.

Lemma preorder_unfold n :
  preorder n
  = n :: flat_map preorder (default [] (children n)).
Proof.
  destruct n as [[it d ch] p]. unfold preorder, children. simpl. f_equal.
  destruct ch as [cs|]; [|done]. simpl. by rewrite flat_map_map.
Qed.

(** Every node listed below [t] other than [t] itself is a child of a listed
    node. *)
Lemma preorder_sub_parent t :
  forall p n, n ∈ preorder_sub t p ->
    n = mkInternalTreeNode t p
    \/ exists q, parent n = Some q /\ q ∈ preorder_sub t p
                 /\ n ∈ default [] (children q).
Proof.
  induction t as [it d|it d cs IH] using Subtree_nested_ind; intros p n Hn.
  - simpl in Hn. apply list_elem_of_singleton in Hn. by left.
  - cbn [preorder_sub] in Hn. apply elem_of_cons in Hn as [->|Hn]; [by left|].
    right. set (r := mkInternalTreeNode _ p) in *.
    apply list_elem_of_In, in_flat_map in Hn as (c0 & Hc0 & Hn).
    apply list_elem_of_In in Hc0, Hn.
    rewrite Forall_forall in IH.
    destruct (IH c0 Hc0 (Some r) n Hn) as [->|(q & Hq & Hin & Hch)].
    + exists r. split; [done|]. split; [apply (preorder_sub_self _ p)|].
      rewrite children_spec. simpl. apply list_elem_of_fmap. by exists c0.
    + exists q. split; [done|]. split; [|done].
      cbn [preorder_sub]. right. apply list_elem_of_In, in_flat_map.
      exists c0. split; by apply list_elem_of_In.
Qed.

Lemma preorder_parent root n q :
  n ∈ preorder root -> parent n = Some q -> parent root = None ->
  q ∈ preorder root /\ n ∈ default [] (children q).
Proof.
  intros Hn Hq Hr. unfold preorder in *.
  destruct (preorder_sub_parent _ _ _ Hn) as [->|(q' & Hq' & Hin & Hch)].
  - simpl in Hq. congruence.
  - rewrite Hq in Hq'. by injection Hq' as <-.
Qed.

Lemma preorder_sub_children_nodup t :
  forall p, NoDup (map item_id (preorder_sub t p)) ->
  forall q, q ∈ preorder_sub t p ->
    NoDup (map item_id (default [] (children q))).
Proof.
  induction t as [it d|it d cs IH] using Subtree_nested_ind; intros p Hnd q Hq.
  - simpl in Hq. apply list_elem_of_singleton in Hq as ->. simpl. constructor.
  - cbn [preorder_sub] in Hnd, Hq. set (r := mkInternalTreeNode _ p) in *.
    simpl in Hnd. apply NoDup_cons in Hnd as [_ Hnd].
    rewrite map_flat_map in Hnd.
    apply elem_of_cons in Hq as [->|Hq].
    + rewrite children_spec. simpl. rewrite map_map.
      eapply sublist_NoDup; [exact Hnd|].
      apply (flat_map_heads _ (fun c => item_id (mkInternalTreeNode c (Some r)))).
      intros c0. destruct (preorder_sub_head c0 (Some r)) as [l ->]. simpl. eauto.
    + apply list_elem_of_In, in_flat_map in Hq as (c0 & Hc0 & Hq).
      apply list_elem_of_In in Hc0, Hq.
      rewrite Forall_forall in IH. apply (IH c0 Hc0 (Some r)); [|done].
      by apply (NoDup_flat_map_part _ _ c0) in Hnd.
Qed.

Lemma children_nodup root q :
  uniqueIds root -> q ∈ preorder root ->
  NoDup (map item_id (default [] (children q))).
Proof. intros H. by apply preorder_sub_children_nodup. Qed.

Lemma findIndex_nodup (cs : list InternalTreeNode) (k : nat) n :
  NoDup (map item_id cs) -> cs !! k = Some n ->
  findIndex (fun child => bool_decide (item_id child = item_id n)) cs
  = Z.of_nat k.
Proof.
  intros Hnd Hk.
  rewrite <- (take_drop_middle cs k n Hk) in Hnd |- *.
  rewrite findIndex_first.
  - rewrite length_take. apply lookup_lt_Some in Hk. lia.
  - rewrite map_app in Hnd. simpl in Hnd.
    apply NoDup_app in Hnd as (_ & Hdis & _).
    apply Forall_forall. intros y Hy. apply bool_decide_eq_false. intros E.
    apply (Hdis (item_id y)); [apply list_elem_of_fmap; by exists y|].
    rewrite E. left.
  - by apply bool_decide_eq_true.
Qed.

(** With distinct sibling ids [getChildIndex] is the position of the node
    in its parent's child list. *)
Lemma getChildIndex_position n q cs (k : nat) :
  parent n = Some q -> children q = Some cs -> cs !! k = Some n ->
  NoDup (map item_id cs) ->
  getChildIndex n = Z.of_nat k.
Proof.
  intros Hq Hcs Hk Hnd. unfold getChildIndex. rewrite Hq, Hcs. simpl.
  rewrite (findIndex_nodup cs k n Hnd Hk).
  destruct (Z.eqb_spec (Z.of_nat k) (-1)); [lia|done].
Qed.

Lemma descendants_unfold n :
  descendants n = flat_map preorder (default [] (children n)).
Proof. unfold descendants. by rewrite preorder_unfold. Qed.

Lemma descendants_preorder root n : n ∈ descendants root -> n ∈ preorder root.
Proof. rewrite preorder_unfold, descendants_unfold. by right. Qed.

Lemma descendants_parent root n :
  n ∈ descendants root ->
  exists q, parent n = Some q /\ q ∈ preorder root
            /\ n ∈ default [] (children q).
Proof.
  intros Hn. pose proof (descendants_preorder _ _ Hn) as Hpre.
  rewrite descendants_unfold in Hn.
  apply list_elem_of_In, in_flat_map in Hn as (c0 & Hc0 & Hn).
  apply list_elem_of_In in Hc0, Hn.
  rewrite children_spec in Hc0. apply list_elem_of_fmap in Hc0 as (t0 & -> & Ht0).
  unfold preorder in Hn. simpl in Hn.
  destruct (preorder_sub_parent _ _ _ Hn) as [->|(q & Hq & Hin & Hch)].
  - exists root. split; [done|]. split.
    + rewrite preorder_unfold. left.
    + rewrite children_spec. apply list_elem_of_fmap. by exists t0.
  - exists q. split; [done|]. split; [|done].
    rewrite preorder_unfold. right.
    apply list_elem_of_In, in_flat_map. exists (mkInternalTreeNode t0 (Some root)).
    split; apply list_elem_of_In; [|done].
    rewrite children_spec. apply list_elem_of_fmap. by exists t0.
Qed.

Lemma flat_nodes_descendants data c x :
  x ∈ useSelectableItems (buildInternalTree data None 0) c ->
  node x ∈ descendants (buildInternalTree data None 0).
Proof.
  intros Hx. apply (list_elem_of_fmap_2 node) in Hx.
  change (fmap node) with (map node) in Hx.
  rewrite useSelectableItems_built, numbered_node in Hx.
  by apply filter_elem_of in Hx as [Hx _].
Qed.

Lemma flat_ids_nodup data c :
  uniqueIds (buildInternalTree data None 0) ->
  NoDup (map entry_id (useSelectableItems (buildInternalTree data None 0) c)).
Proof.
  intros Hu. rewrite useSelectableItems_built.
  set (root := buildInternalTree data None 0) in *.
  assert (map entry_id (numbered 0 (List.filter (ancestorsExpanded c) (descendants root)))
          = map item_id (List.filter (ancestorsExpanded c) (descendants root))) as ->.
  { rewrite <- (numbered_node 0 (List.filter _ _)) at 2. by rewrite map_map. }
  eapply sublist_NoDup; [exact Hu|].
  change (map item_id) with (fmap (M:=list) item_id). apply fmap_sublist.
  etrans; [apply filter_sublist|].
  rewrite preorder_unfold, descendants_unfold. by apply sublist_cons.
Qed.

Lemma find_nodup (flat : list SelectableTreeNode) x :
  NoDup (map entry_id flat) -> x ∈ flat ->
  List.find (fun y => bool_decide (entry_id y = entry_id x)) flat = Some x.
Proof.
  intros Hnd Hx. apply list_elem_of_lookup in Hx as [k Hk].
  apply list_elem_of_split_length in Hk as (l1 & l2 & -> & ->).
  rewrite find_findIndex, findIndex_first.
  - destruct (Z.eqb_spec (Z.of_nat (length l1)) (-1)); [lia|].
    rewrite Nat2Z.id. by rewrite list_lookup_middle.
  - rewrite map_app in Hnd. simpl in Hnd.
    apply NoDup_app in Hnd as (_ & Hdis & _).
    apply Forall_forall. intros y Hy. apply bool_decide_eq_false. intros E.
    apply (Hdis (entry_id y)); [apply list_elem_of_fmap; by exists y|].
    rewrite E. left.
  - by apply bool_decide_eq_true.
Qed.

Lemma getChildIndex_nonneg n : 0 <= getChildIndex n.
Proof.
  unfold getChildIndex. destruct (parent n) as [p|]; [|done]. simpl.
  match goal with |- context [findIndex ?f ?l] =>
    destruct (findIndex_range f l) as [->|H] end; [done|].
  match goal with |- context [?a =? -1] => destruct (Z.eqb_spec a (-1)) end; lia.
Qed.

Lemma visible_node_position data c overItem :
  let root := buildInternalTree data None 0 in
  uniqueIds root ->
  overItem ∈ useSelectableItems root c ->
  exists p siblings (k : nat),
    p ∈ preorder root /\ parent (node overItem) = Some p
    /\ children p = Some siblings /\ siblings !! k = Some (node overItem)
    /\ getChildIndex (node overItem) = Z.of_nat k.
Proof.
  intros root Hu Hin.
  pose proof (flat_nodes_descendants _ _ _ Hin) as Hdesc. fold root in Hdesc.
  destruct (descendants_parent _ _ Hdesc) as (p & Hp & Hpin & Hch).
  destruct (children p) as [siblings|] eqn:Hsib; [|by apply elem_of_nil in Hch].
  simpl in Hch. apply list_elem_of_lookup in Hch as [k Hk].
  exists p, siblings, k. repeat (split; [done|]).
  apply (getChildIndex_position _ p siblings); [done..|].
  pose proof (children_nodup root p Hu Hpin) as Hnd. by rewrite Hsib in Hnd.
Qed.

(** [findNodeById] returns the first node of the pre-order listing that
    carries the id. *)
Lemma findNodeById_sub_find t :
  forall p i,
    findNodeById_sub t p i
    = List.find (fun n => bool_decide (item_id n = i)) (preorder_sub t p).
Proof.
  induction t as [it d|it d cs IH] using Subtree_nested_ind; intros p i.
  - cbn [findNodeById_sub preorder_sub List.find]. unfold item_id, item. simpl.
    reflexivity.
  - cbn [findNodeById_sub preorder_sub List.find].
    change (item_id (mkInternalTreeNode (mkSubtree it d (Some cs)) p))
      with (TTreeNode.id it).
    case_bool_decide; [done|].
    set (r := mkInternalTreeNode _ p). clearbody r.
    induction IH as [|c0 cs0 Hc0 _ IHcs]; [done|].
    simpl. rewrite find_app, <- Hc0, IHcs. done.
Qed.

Lemma findNodeById_find root i :
  findNodeById root i
  = List.find (fun n => bool_decide (item_id n = i)) (preorder root).
Proof. apply findNodeById_sub_find. Qed.

Lemma findNodeById_unique root tp :
  uniqueIds root -> tp ∈ preorder root ->
  findNodeById root (item_id tp) = Some tp.
Proof. intros Hu Hin. rewrite findNodeById_find. by apply find_nodup_key. Qed.

(** The fields of a built node, as the source assigns them. *)
Lemma buildInternalTree_fields raw p d :
  let n := buildInternalTree raw p d in
  item n = raw /\ parent n = p /\ depth n = d
  /\ children n
     = match TTreeNode.children raw with
       | Some (c :: cs) =>
           Some (map (fun x => buildInternalTree x (Some n) (d + 1)) (c :: cs))
       | _ => None
       end.
Proof.
  destruct raw as [nm i ty [[|c cs]|]]; repeat split; try done.
  unfold children, buildInternalTree. cbn [subtree buildSubtree sub_children].
  by rewrite map_map.
Qed.

Lemma buildSubtree_items raw :
  forall d p, map item (preorder_sub (buildSubtree raw d) p) = rawPreorder raw.
Proof.
  induction raw as [nm i ty|nm i ty cs IH] using TTreeNode_nested_ind; intros d p.
  - done.
  - destruct cs as [|c cs]; [done|].
    cbn [buildSubtree preorder_sub rawPreorder]. rewrite map_cons. f_equal.
    set (n := mkInternalTreeNode _ p). clearbody n.
    remember (c :: cs) as L eqn:HL. clear HL.
    induction IH as [|c0 cs0 Hc0 _ IHcs]; [done|].
    simpl. by rewrite map_app, Hc0, IHcs.
Qed.

Lemma buildSubtree_child_depth raw :
  forall d p n,
    n ∈ preorder_sub (buildSubtree raw d) p ->
    n = mkInternalTreeNode (buildSubtree raw d) p
    \/ exists q, parent n = Some q /\ depth n = depth q + 1.
Proof.
  induction raw as [nm i ty|nm i ty cs IH] using TTreeNode_nested_ind; intros d p n Hn.
  - apply list_elem_of_singleton in Hn. by left.
  - destruct cs as [|c cs]; [apply list_elem_of_singleton in Hn; by left|].
    cbn [buildSubtree preorder_sub] in Hn |- *.
    apply elem_of_cons in Hn as [Hn|Hn]; [by left|]. right.
    set (r := mkInternalTreeNode _ p) in *.
    assert (depth r = d) as Hr by done. clearbody r.
    apply list_elem_of_In, in_flat_map in Hn as (c0 & Hc0 & Hn).
    apply list_elem_of_In in Hc0, Hn.
    apply list_elem_of_fmap in Hc0 as (raw0 & -> & Hraw0).
    rewrite Forall_forall in IH.
    destruct (IH raw0 Hraw0 (d + 1) (Some r) n Hn) as [->|H]; [|done].
    exists r. split; [done|]. rewrite Hr. by destruct raw0.
Qed.

(** The built tree mirrors the raw one: same nodes in the same order, root
    at depth 0 without parent, every other node one level below its parent
    and among its parent's children. *)
Theorem build_mirrors_raw (data : TTreeNode) :
  let root := buildInternalTree data None 0 in
  map item (preorder root) = rawPreorder data
  /\ depth root = 0 /\ parent root = None
  /\ (forall n q, n ∈ preorder root -> parent n = Some q ->
        depth n = depth q + 1 /\ q ∈ preorder root
        /\ n ∈ default [] (children q)).
Proof.
  intros root. split; [apply buildSubtree_items|]. do 2 (split; [by destruct data|]).
  intros n q Hn Hq. split.
  - destruct (buildSubtree_child_depth data 0 None n Hn) as [->|(q' & Hq' & Hd)].
    + by destruct data.
    + rewrite Hq in Hq'. by injection Hq' as <-.
  - by apply (preorder_parent root).
Qed.

(** * Selection: the click handler *)

Lemma findIndex_id_present (flat : list SelectableTreeNode) (a : string) :
  a ∈ map entry_id flat ->
  0 <= findIndex (fun x => bool_decide (entry_id x = a)) flat
    < Z.of_nat (length flat).
Proof.
  intros Hin. apply list_elem_of_fmap in Hin as (x & -> & Hx).
  destruct (findIndex_range (fun y => bool_decide (entry_id y = entry_id x)) flat) as [E|R];
    [|done].
  exfalso. revert E. apply (findIndex_present _ _ x Hx). by apply bool_decide_eq_true.
Qed.

Lemma findIndex_id_absent (flat : list SelectableTreeNode) (a : string) :
  a ∉ map entry_id flat ->
  findIndex (fun x => bool_decide (entry_id x = a)) flat = -1.
Proof.
  intros Hin. apply findIndex_none, Forall_forall. intros x Hx.
  apply bool_decide_eq_false. intros <-. apply Hin.
  apply list_elem_of_fmap. by exists x.
Qed.

Lemma rangeBranch_present it ns a s :
  let flat := numbered 0 ns in
  a ∈ map entry_id flat -> TTreeNode.id it ∈ map entry_id flat ->
  let ia := findIndex (fun x => bool_decide (entry_id x = a)) flat in
  let ib := findIndex (fun x => bool_decide (entry_id x = TTreeNode.id it)) flat in
  rangeBranch it flat a s
  = Some (setSelectedIds
            (map entry_id
               (List.filter
                  (fun x => (Z.min ia ib <=? index x) && (index x <=? Z.max ia ib))
                  flat)) s).
Proof.
  intros flat Ha Hb ia ib.
  pose proof (findIndex_id_present flat a Ha) as Ra.
  pose proof (findIndex_id_present flat _ Hb) as Rb.
  unfold rangeBranch. fold ia ib.
  unfold flat in Ra, Rb. rewrite numbered_length in Ra, Rb. fold flat in Ra, Rb.
  fold ia in Ra. fold ib in Rb.
  destruct (Z.eqb_spec ia (-1)); [lia|]. destruct (Z.eqb_spec ib (-1)); [lia|].
  simpl. unfold flat at 1. rewrite slice_numbered by lia. done.
Qed.

Lemma handleClick_range ns it a e s :
  let flat := numbered 0 ns in
  let ia := findIndex (fun x => bool_decide (entry_id x = a)) flat in
  let ib := findIndex (fun x => bool_decide (entry_id x = TTreeNode.id it)) flat in
  a ∈ map entry_id flat -> TTreeNode.id it ∈ map entry_id flat ->
  a <> EmptyString -> shiftKey e = true -> anchorId s = Some a ->
  handleClick it flat e s
  = setSelectedIds
      (map entry_id
         (List.filter
            (fun x => (Z.min ia ib <=? index x) && (index x <=? Z.max ia ib))
            flat)) s.
Proof.
  intros flat ia ib Ha Hb Hne He Hs. unfold handleClick. rewrite Hs, He.
  unfold truthy. rewrite bool_decide_eq_false_2 by done. simpl.
  unfold flat. by rewrite rangeBranch_present.
Qed.

Lemma findIndex_entry ns a :
  let flat := numbered 0 ns in
  let ia := findIndex (fun x => bool_decide (entry_id x = a)) flat in
  a ∈ map entry_id flat ->
  exists x, flat !! Z.to_nat ia = Some x /\ entry_id x = a /\ index x = ia.
Proof.
  intros flat ia Ha.
  pose proof (findIndex_id_present flat a Ha) as Ra. fold ia in Ra.
  destruct (findIndex_some _ flat ia eq_refl) as (x & Hx & Hfx & _); [lia|].
  exists x. apply bool_decide_eq_true in Hfx. repeat split; [done..|].
  assert (map index flat !! Z.to_nat ia = Some (index x)) as Hi
    by (by rewrite list_lookup_fmap, Hx).
  unfold flat in Hi. rewrite numbered_index in Hi.
  apply lookup_seqZ in Hi. lia.
Qed.

(** X29.  Range selection from a non-empty anchor.  On the flat sequence
    of a built tree, a shift-click on [it] with anchor [a], both present
    and [a] not the empty string, replaces the selection by the ids of the
    entries whose [index] lies between the positions of the two, leaves the
    anchor as it is, and gives the same ids when anchor and target change
    roles. *)
Theorem range_select_by_index (data : TTreeNode) (c : gmap string bool)
    (a : string) (it : TTreeNode) (e : MouseEvent) (s : TreeStore) :
  let flat := useSelectableItems (buildInternalTree data None 0) c in
  let ia := findIndex (fun x => bool_decide (entry_id x = a)) flat in
  let ib := findIndex (fun x => bool_decide (entry_id x = TTreeNode.id it)) flat in
  let range :=
    map entry_id
      (List.filter
         (fun x => (Z.min ia ib <=? index x) && (index x <=? Z.max ia ib)) flat) in
  a ∈ map entry_id flat ->
  TTreeNode.id it ∈ map entry_id flat ->
  a <> EmptyString ->
  shiftKey e = true ->
  anchorId s = Some a ->
  handleClick it flat e s = setSelectedIds range s
  /\ anchorId (handleClick it flat e s) = Some a
  /\ (exists x, flat !! Z.to_nat ia = Some x /\ entry_id x = a /\ index x = ia)
  /\ (forall it' s',
        TTreeNode.id it' = a -> anchorId s' = Some (TTreeNode.id it) ->
        TTreeNode.id it <> EmptyString ->
        selectedIds (handleClick it' flat e s') = range).
Proof.
  intros flat. subst flat. rewrite useSelectableItems_built.
  set (ns := List.filter _ _). intros ia ib range Ha Hb Hne He Hs.
  pose proof (handleClick_range ns it a e s Ha Hb Hne He Hs) as Hclick.
  split; [exact Hclick|]. split; [by rewrite Hclick|].
  split; [by apply findIndex_entry|].
  intros it' s' Hit' Hs' Hne'.
  rewrite (handleClick_range ns it' (TTreeNode.id it) e s'); [|by rewrite ?Hit'..].
  simpl. subst range ia ib. rewrite Hit'. by rewrite Z.min_comm, Z.max_comm.
Qed.

Lemma range_select_by_index_witness :
  selectedIds
    (handleClick (fileNode "B") (useSelectableItems exampleRoot ∅) shiftClick
       (mkTreeStore ["A1"%string] (Some "A1"%string) ∅ [] initialHoveredParent))
  = ["A1"; "A2"; "B"]%string.
Proof.
  pose proof (range_select_by_index exampleData ∅ "A1" (fileNode "B") shiftClick
    (mkTreeStore ["A1"%string] (Some "A1"%string) ∅ [] initialHoveredParent)) as H.
  cbv zeta in H.
  destruct H as [H _];
    [apply (bool_decide_unpack _); vm_compute; exact I..
    |discriminate|reflexivity|reflexivity|].
  fold exampleRoot in H. rewrite H. vm_compute. reflexivity.
Defined.

(** C5.  Range selection with the anchor on the node whose id is the empty
    string, which a plain click stores as anchor like any other id: the
    guard [e.shiftKey && anchorId] tests the truthiness of the id and is
    false, so the shift-click on [b] does not select the range of the two
    entries (indices 0 and 1) but [b] alone, and moves the anchor to [b]. *)
Lemma range_select_empty_anchor :
  let flat := useSelectableItems emptyIdRoot ∅ in
  let s := mkTreeStore [""%string] (Some ""%string) ∅ [] initialHoveredParent in
  let s' := handleClick (fileNode "b") flat shiftClick s in
  map (fun x => (entry_id x, index x)) flat = [(""%string, 0); ("b"%string, 1)]
  /\ map entry_id
       (List.filter (fun x => (Z.min 0 1 <=? index x) && (index x <=? Z.max 0 1))
          flat)
     = [""; "b"]%string
  /\ selectedIds s' = ["b"%string]
  /\ anchorId s = Some ""%string
  /\ anchorId s' = Some "b"%string.
Proof. vm_compute. repeat split; reflexivity. Qed.

(** C6 (as amended).  A shift-click whose anchor or target is absent from
    the flat sequence raises nothing and skips the range branch; it is
    handled as the same click without shift.  Without meta/ctrl the
    selection becomes the clicked id alone and the anchor becomes the
    clicked id.  With meta/ctrl the clicked id is toggled: removed from
    [selectedIds] when it is there, appended when it is not, the anchor
    unchanged.  The rest of the store is untouched. *)
Theorem stale_range_falls_through (it : TTreeNode)
    (flat : list SelectableTreeNode) (e : MouseEvent) (s : TreeStore)
    (a : string) :
  shiftKey e = true ->
  anchorId s = Some a ->
  a ∉ map entry_id flat \/ TTreeNode.id it ∉ map entry_id flat ->
  handleClick it flat e s
  = handleClick it flat (mkMouseEvent false (metaKey e) (ctrlKey e)) s
  /\ (metaKey e || ctrlKey e = false ->
      selectedIds (handleClick it flat e s) = [TTreeNode.id it]
      /\ anchorId (handleClick it flat e s) = Some (TTreeNode.id it))
  /\ (metaKey e || ctrlKey e = true ->
      anchorId (handleClick it flat e s) = Some a
      /\ (TTreeNode.id it ∈ selectedIds s ->
          selectedIds (handleClick it flat e s)
          = List.filter (fun i => negb (bool_decide (i = TTreeNode.id it)))
              (selectedIds s))
      /\ (TTreeNode.id it ∉ selectedIds s ->
          selectedIds (handleClick it flat e s)
          = selectedIds s ++ [TTreeNode.id it]))
  /\ collapsed (handleClick it flat e s) = collapsed s
  /\ draggingIds (handleClick it flat e s) = draggingIds s
  /\ hoveredParent (handleClick it flat e s) = hoveredParent s.
Proof.
  intros He Hs Habs.
  assert (rangeBranch it flat a s = None) as Hr.
  { unfold rangeBranch.
    destruct Habs as [H|H]; rewrite (findIndex_id_absent _ _ H); simpl;
      [done|by rewrite andb_false_r]. }
  assert (handleClick it flat e s
          = handleClick it flat (mkMouseEvent false (metaKey e) (ctrlKey e)) s) as E.
  { unfold handleClick. rewrite Hs, He. simpl. rewrite Hr. by destruct (truthy a). }
  split; [exact E|]. rewrite E. unfold handleClick. rewrite Hs. simpl.
  destruct (metaKey e || ctrlKey e) eqn:Hm.
  - split; [done|]. split.
    + intros _. split; [by case_bool_decide|]. split; intros Hin.
      * by rewrite bool_decide_eq_true_2.
      * by rewrite bool_decide_eq_false_2.
    + by case_bool_decide.
  - split; [done|]. split; [done|]. done.
Qed.

Lemma stale_range_falls_through_witness :
  selectedIds
    (handleClick (fileNode "B")
       (useSelectableItems exampleRoot (collapsed staleStore)) shiftClick staleStore)
  = ["B"%string]
  /\ selectedIds
       (handleClick (fileNode "B")
          (useSelectableItems exampleRoot (collapsed staleStore)) shiftMetaClick
          staleStore)
     = ["A1"; "B"]%string
  /\ anchorId
       (handleClick (fileNode "B")
          (useSelectableItems exampleRoot (collapsed staleStore)) shiftMetaClick
          staleStore)
     = Some "A1"%string.
Proof.
  split; [|split].
  - apply (stale_range_falls_through (fileNode "B")
             (useSelectableItems exampleRoot (collapsed staleStore)) shiftClick
             staleStore "A1").
    + reflexivity.
    + reflexivity.
    + left. apply (bool_decide_unpack _). vm_compute. exact I.
    + reflexivity.
  - apply (stale_range_falls_through (fileNode "B")
             (useSelectableItems exampleRoot (collapsed staleStore)) shiftMetaClick
             staleStore "A1").
    + reflexivity.
    + reflexivity.
    + left. apply (bool_decide_unpack _). vm_compute. exact I.
    + reflexivity.
    + apply (bool_decide_unpack _). vm_compute. exact I.
  - apply (stale_range_falls_through (fileNode "B")
             (useSelectableItems exampleRoot (collapsed staleStore)) shiftMetaClick
             staleStore "A1").
    + reflexivity.
    + reflexivity.
    + left. apply (bool_decide_unpack _). vm_compute. exact I.
    + reflexivity.
Defined.

(** C6 as stated fails: with A collapsed and the stale anchor A1, a
    shift-click on B replaces the selection by B and moves the anchor. *)
Lemma stale_anchor_changes_selection :
  let flat := useSelectableItems exampleRoot (collapsed staleStore) in
  let s' := handleClick (fileNode "B") flat shiftClick staleStore in
  map entry_id flat = ["A"; "B"]%string
  /\ anchorId staleStore = Some "A1"%string
  /\ selectedIds staleStore = ["A1"%string]
  /\ selectedIds s' = ["B"%string]
  /\ anchorId s' = Some "B"%string
  /\ selectedIds s' <> selectedIds staleStore.
Proof. vm_compute. repeat split; try reflexivity. discriminate. Qed.

(** * The store: collapse and drag state *)

(** C8.  Firing the auto-expand action on a container that is already
    expanded changes no collapse flag as read by [?? false], touches no
    other key, leaves every flat sequence and the rest of the store as they
    were, and firing it again changes nothing at all. *)
Theorem auto_expand_idempotent (it : TTreeNode) (s : TreeStore) :
  isCollapsedIn (collapsed s) (TTreeNode.id it) = false ->
  let s1 := autoExpandFire it s in
  (forall k, isCollapsedIn (collapsed s1) k = isCollapsedIn (collapsed s) k)
  /\ (forall k, k <> TTreeNode.id it -> collapsed s1 !! k = collapsed s !! k)
  /\ (forall root,
        useSelectableItems root (collapsed s1)
        = useSelectableItems root (collapsed s))
  /\ autoExpandFire it s1 = s1
  /\ selectedIds s1 = selectedIds s /\ anchorId s1 = anchorId s
  /\ draggingIds s1 = draggingIds s /\ hoveredParent s1 = hoveredParent s.
Proof.
  intros H s1.
  assert (forall k, isCollapsedIn (collapsed s1) k = isCollapsedIn (collapsed s) k) as E.
  { intros k. subst s1. unfold autoExpandFire, setCollapsed. cbn [collapsed].
    rewrite isCollapsedIn_insert.
    destruct (decide (k = TTreeNode.id it)) as [->|Hne].
    - by rewrite bool_decide_eq_true_2, H.
    - by rewrite bool_decide_eq_false_2. }
  split; [exact E|]. split.
  { intros k Hk. subst s1. unfold autoExpandFire, setCollapsed. simpl.
    by rewrite lookup_insert_ne. }
  split.
  { intros root. unfold useSelectableItems, walk. by rewrite (walk_sub_ext _ _ _ E). }
  split; [|done].
  subst s1. unfold autoExpandFire, setCollapsed. simpl. by rewrite insert_insert_eq.
Qed.

Lemma auto_expand_idempotent_witness :
  autoExpandFire (dirNode "A" []) (autoExpandFire (dirNode "A" []) initialStore)
  = autoExpandFire (dirNode "A" []) initialStore.
Proof.
  apply (auto_expand_idempotent (dirNode "A" []) initialStore). reflexivity.
Defined.

(** C9.  At drag start the dragged ids are the selection when the active
    id is selected, and otherwise dragged ids, selection and anchor all
    become the active id alone. *)
Theorem drag_start_sets_dragging (a : string) (s : TreeStore) :
  let s' := handleDragStart a s in
  (a ∈ selectedIds s ->
     draggingIds s' = selectedIds s /\ selectedIds s' = selectedIds s
     /\ anchorId s' = anchorId s)
  /\ (a ∉ selectedIds s ->
        draggingIds s' = [a] /\ selectedIds s' = [a] /\ anchorId s' = Some a)
  /\ collapsed s' = collapsed s /\ hoveredParent s' = hoveredParent s.
Proof.
  intros s'. subst s'. unfold handleDragStart.
  case_bool_decide; simpl; repeat split; intros; done.
Qed.

(** C7.  After drag end (with or without a payload) and after drag
    cancel, [draggingIds] is empty and [hoveredParent] is the all-null
    default. *)
Theorem drag_termination_clears (root : InternalTreeNode) (ev : DragEndEvent)
    (s : TreeStore) :
  let ended := (handleDragEnd root ev s).1 in
  let cancelled := handleDragCancel s in
  draggingIds ended = []
  /\ hoveredParent ended = mkHoveredParent None None None None None
  /\ draggingIds cancelled = []
  /\ hoveredParent cancelled = mkHoveredParent None None None None None
  /\ ended = cancelled
  /\ initialHoveredParent = mkHoveredParent None None None None None.
Proof.
  intros ended cancelled. subst ended cancelled.
  unfold handleDragCancel, handleDragEnd, clearDragState, initialHoveredParent.
  cbn [fst draggingIds hoveredParent]. repeat split.
Qed.

Lemma drag_start_sets_dragging_witness :
  draggingIds
    (handleDragStart "A1"
       (mkTreeStore ["A1"; "A2"]%string (Some "A1"%string) ∅ [] initialHoveredParent))
  = ["A1"; "A2"]%string
  /\ draggingIds
       (handleDragStart "B"
          (mkTreeStore ["A1"; "A2"]%string (Some "A1"%string) ∅ [] initialHoveredParent))
     = ["B"%string].
Proof.
  split.
  - apply (drag_start_sets_dragging "A1"
             (mkTreeStore ["A1"; "A2"]%string (Some "A1"%string) ∅ [] initialHoveredParent)).
    left.
  - apply (drag_start_sets_dragging "B"
             (mkTreeStore ["A1"; "A2"]%string (Some "A1"%string) ∅ [] initialHoveredParent)).
    apply (bool_decide_unpack _). vm_compute. exact I.
Defined.

Lemma autoExpandFire_disarms n s :
  shouldAutoExpand n (autoExpandFire (item n) s) = false.
Proof.
  unfold shouldAutoExpand, autoExpandFire, setCollapsed.
  cbn [collapsed]. fold (item_id n). rewrite isCollapsedIn_insert.
  rewrite bool_decide_eq_true_2 by done.
  by rewrite andb_false_r.
Qed.
(** * Drag move: the drop target *)

Lemma handleDragMove_over_node root ev s ov activeRect overItem :
  let flat := useSelectableItems root (collapsed s) in
  over ev = Some ov ->
  translated (active ev) = Some activeRect ->
  over_id ov <> "__catch_zone_start__"%string ->
  over_id ov <> "__catch_zone_end__"%string ->
  List.find (fun x => bool_decide (entry_id x = over_id ov)) flat = Some overItem ->
  let t := dropTargetOf (collapsed s) overItem (ratioOf activeRect (over_rect ov)) in
  handleDragMove root ev s
  = if dropsIntoDragged t (draggingIds s) then s
    else setHoveredParent (hoveredOf t) s.
Proof.
  intros flat Hov Hrect H1 H2 Hfind t. unfold handleDragMove.
  rewrite Hov, !bool_decide_eq_false_2 by done. fold flat. rewrite Hfind, Hrect.
  done.
Qed.

Example ratio_middle : ratioOf (rectAt (90 + 10)) (rectAt 100) = 0.5%float.
Proof. vm_compute. reflexivity. Qed.

(** Hovering a visible file: the upper half resolves to (p, k, above, i),
    the lower half to (p, k+1, below, i+1). *)
Theorem file_drop_zones (data : TTreeNode) (s : TreeStore)
    (ev : DragMoveEvent) (ov : Over) (activeRect : ClientRect)
    (overItem : SelectableTreeNode) :
  let root := buildInternalTree data None 0 in
  let flat := useSelectableItems root (collapsed s) in
  let overNode := node overItem in
  let r := ratioOf activeRect (over_rect ov) in
  let t := dropTargetOf (collapsed s) overItem r in
  uniqueIds root ->
  over ev = Some ov ->
  translated (active ev) = Some activeRect ->
  overItem ∈ flat ->
  over_id ov = item_id overNode ->
  over_id ov <> "__catch_zone_start__"%string ->
  over_id ov <> "__catch_zone_end__"%string ->
  TTreeNode.type (item overNode) = file ->
  exists (p : InternalTreeNode) (siblings : list InternalTreeNode) (k i : nat),
    parent overNode = Some p /\ children p = Some siblings
    /\ siblings !! k = Some overNode
    /\ flat !! i = Some overItem
    /\ ((r <? 0.5)%float = true ->
        t = mkDropTarget (Some p) (Z.of_nat k) above (Z.of_nat i))
    /\ ((r <? 0.5)%float = false ->
        t = mkDropTarget (Some p) (Z.of_nat k + 1) below (Z.of_nat i + 1))
    /\ handleDragMove root ev s
       = if dropsIntoDragged t (draggingIds s) then s
         else setHoveredParent (hoveredOf t) s.
Proof.
  intros root flat overNode r t Hu Hov Hrect Hin Hid Hs He Hfile.
  destruct (visible_node_position data (collapsed s) overItem Hu Hin)
    as (p & siblings & k & Hpin & Hp & Hsib & Hk & Hci).
  pose proof Hin as Hin'. apply list_elem_of_lookup in Hin' as [i Hi].
  assert (index overItem = Z.of_nat i) as Hidx.
  { unfold flat, root in Hi. rewrite useSelectableItems_built in Hi.
    apply numbered_lookup in Hi. lia. }
  exists p, siblings, k, i. repeat (split; [done|]).
  assert (t = if (r <? 0.5)%float
              then mkDropTarget (Some p) (Z.of_nat k) above (Z.of_nat i)
              else mkDropTarget (Some p) (Z.of_nat k + 1) below (Z.of_nat i + 1))
    as Ht.
  { subst t. unfold dropTargetOf. fold overNode.
    rewrite Hfile. fold overNode in Hp, Hci. by rewrite Hp, Hci, Hidx. }
  split; [intros Hr; by rewrite Ht, Hr|].
  split; [intros Hr; by rewrite Ht, Hr|].
  apply (handleDragMove_over_node root ev s ov activeRect overItem); try done.
  rewrite Hid. apply find_nodup; [|done]. by apply flat_ids_nodup.
Qed.

Lemma file_drop_zones_witness :
  hoveredParent
    (handleDragMove exampleRoot (moveOver "B" 15)
       (hoverStore ["A1"%string] initialHoveredParent))
  = mkHoveredParent (Some "root"%string) (Some 0) (Some 4) (Some 2) (Some below).
Proof.
  destruct (file_drop_zones exampleData
              (hoverStore ["A1"%string] initialHoveredParent) (moveOver "B" 15)
              (mkOver "B" (rectAt 100)) (rectAt (90 + 15)) entryB)
    as (p & siblings & k & i & _ & _ & _ & _ & _ & _ & Hmove).
  - apply (bool_decide_unpack _). vm_compute. exact I.
  - reflexivity.
  - reflexivity.
  - vm_compute. do 3 right. left.
  - reflexivity.
  - discriminate.
  - discriminate.
  - reflexivity.
  - fold exampleRoot in Hmove. rewrite Hmove. vm_compute. reflexivity.
Defined.

Example hover_top_of_A :
  hoveredParent
    (handleDragMove exampleRoot (moveOver "A" 2)
       (hoverStore ["B"%string] initialHoveredParent))
  = mkHoveredParent (Some "root"%string) (Some 0) (Some 0) (Some 0) (Some above).
Proof. vm_compute. reflexivity. Qed.

Example hover_bottom_of_expanded_A :
  hoveredParent
    (handleDragMove exampleRoot (moveOver "A" 18)
       (hoverStore ["B"%string] initialHoveredParent))
  = mkHoveredParent (Some "A"%string) (Some 1) (Some 1) (Some 0) (Some inside).
Proof. vm_compute. reflexivity. Qed.

Example hover_bottom_of_collapsed_A :
  hoveredParent
    (handleDragMove exampleRoot (moveOver "A" 18)
       (mkTreeStore ["B"%string] (Some "B"%string) {["A"%string := true]}
          ["B"%string] initialHoveredParent))
  = mkHoveredParent (Some "root"%string) (Some 0) (Some 1) (Some 1) (Some below).
Proof. vm_compute. reflexivity. Qed.

Example hover_middle_of_collapsed_A :
  hoveredParent
    (handleDragMove exampleRoot (moveOver "A" 10)
       (mkTreeStore ["B"%string] (Some "B"%string) {["A"%string := true]}
          ["B"%string] initialHoveredParent))
  = mkHoveredParent (Some "A"%string) (Some 1) (Some 0) (Some 0) (Some inside).
Proof. vm_compute. reflexivity. Qed.

(** A rectangle of height 0 makes the ratio NaN or infinite; NaN falls in
    the middle band. *)
Example hover_degenerate_rect :
  target_dropIntent
    (dropTargetOf ∅ entryA (ratioOf (mkClientRect 100 0) (mkClientRect 100 0)))
  = inside.
Proof. vm_compute. reflexivity. Qed.


(** * Drag move: cycle validation *)

Lemma InternalTreeNode_chain_ind (P : InternalTreeNode -> Prop) :
  (forall t, P (mkInternalTreeNode t None)) ->
  (forall t p, P p -> P (mkInternalTreeNode t (Some p))) ->
  forall n, P n.
Proof.
  intros Hroot Hstep. fix IH 1. intros [t [p|]].
  - apply Hstep, IH.
  - apply Hroot.
Qed.

(** The equation of the source's loop. *)
Lemma hasAncestor_eq n a :
  hasAncestor (Some n) a
  = if bool_decide (item_id n = a) then true else hasAncestor (parent n) a.
Proof. by destruct n as [t [p|]]. Qed.

Lemma hasAncestor_chain n a :
  hasAncestor (Some n) a = true <-> a ∈ chainIds n.
Proof.
  induction n as [t|t p IH] using InternalTreeNode_chain_ind.
  - rewrite hasAncestor_eq. unfold chainIds. simpl.
    case_bool_decide as E; [subst; split; [left|done]|].
    split; [done|]. intros H. apply list_elem_of_singleton in H. congruence.
  - rewrite hasAncestor_eq. unfold chainIds in *. simpl parent. cbn [ancestors parent map] in *.
    case_bool_decide as E; [subst; split; [left|done]|].
    rewrite IH. split; [by right|]. intros H.
    apply elem_of_cons in H as [H|H]; [congruence|done].
Qed.

Lemma dropsIntoDragged_spec t dragging :
  dropsIntoDragged t dragging = true
  <-> exists tp d, targetParent t = Some tp /\ d ∈ dragging /\ d ∈ chainIds tp.
Proof.
  unfold dropsIntoDragged. destruct (targetParent t) as [tp|].
  - rewrite existsb_exists. split.
    + intros (d & Hd & Hc). exists tp, d. apply list_elem_of_In in Hd.
      by apply hasAncestor_chain in Hc.
    + intros (tp' & d & [= <-] & Hd & Hc). exists d.
      split; [by apply list_elem_of_In|by apply hasAncestor_chain].
  - split; [done|]. by intros (? & ? & ? & _).
Qed.

Lemma dropTargetOf_parent c overItem r tp :
  targetParent (dropTargetOf c overItem r) = Some tp ->
  tp = node overItem \/ parent (node overItem) = Some tp.
Proof.
  unfold dropTargetOf.
  repeat match goal with |- context [if ?b then _ else _] => destruct b end;
    simpl; intros H; first [by right | left; congruence].
Qed.

Lemma find_elem_of {A} (f : A -> bool) l x :
  List.find f l = Some x -> x ∈ l /\ f x = true.
Proof. intros H. apply List.find_some in H as [H1 H2]. by apply list_elem_of_In in H1. Qed.

Lemma buildInternalTree_chain data : chainIds (buildInternalTree data None 0)
  = [item_id (buildInternalTree data None 0)].
Proof. reflexivity. Qed.

Lemma handleDragMove_draggingIds root ev s :
  draggingIds (handleDragMove root ev s) = draggingIds s.
Proof.
  unfold handleDragMove.
  repeat match goal with
         | |- context [match ?x with _ => _ end] => destruct x
         end; reflexivity.
Qed.

(** A move either leaves the store as it was or writes a clean target. *)
Lemma handleDragMove_clean data ev s :
  let root := buildInternalTree data None 0 in
  item_id root ∉ draggingIds s ->
  handleDragMove root ev s = s
  \/ cleanTarget root (draggingIds s) (hoveredParent (handleDragMove root ev s)).
Proof.
  intros root Hroot. unfold handleDragMove. fold root.
  destruct (over ev) as [ov|]; [|right; by intros pid [=]].
  assert (forall i ci di,
            cleanTarget root (draggingIds s)
              (mkHoveredParent (Some (item_id root)) (Some (depth root)) i ci di))
    as Hcatch.
  { intros i ci di pid [= <-]. exists root. split; [apply preorder_sub_self|].
    repeat split; [done..|]. intros d Hd. unfold root.
    rewrite buildInternalTree_chain. intros E%list_elem_of_singleton. by subst. }
  case_bool_decide; [right; apply Hcatch|].
  case_bool_decide; [right; apply Hcatch|].
  destruct (List.find _ _) as [overItem|] eqn:Hfind; [|by left].
  destruct (translated (active ev)) as [activeRect|]; [|by left].
  set (t := dropTargetOf _ _ _).
  destruct (dropsIntoDragged t (draggingIds s)) eqn:Hdrop; [by left|].
  right. intros pid Hpid. simpl in Hpid.
  destruct (targetParent t) as [tp|] eqn:Htp; [|done]. simpl in Hpid.
  injection Hpid as <-. exists tp.
  apply find_elem_of in Hfind as [Hin _].
  apply flat_nodes_descendants in Hin. fold root in Hin.
  split.
  { apply dropTargetOf_parent in Htp as [->|Hp].
    - by apply descendants_preorder.
    - destruct (descendants_parent _ _ Hin) as (q & Hq & Hqin & _). congruence. }
  split; [done|]. split; [simpl; by rewrite Htp|].
  intros d Hd Hc.
  assert (dropsIntoDragged t (draggingIds s) = true) as E; [|congruence].
  apply dropsIntoDragged_spec. eauto.
Qed.

(** C3.  The synthetic root not being dragged: a move whose prospective
    target parent has a dragged id on its parent chain leaves the store
    exactly as it was, and a target written by a move names a node of the
    tree with no dragged id on its chain; so clean targets stay clean for
    the whole gesture. *)
Theorem cycle_validation (data : TTreeNode) (ev : DragMoveEvent)
    (s : TreeStore) :
  let root := buildInternalTree data None 0 in
  let flat := useSelectableItems root (collapsed s) in
  let s' := handleDragMove root ev s in
  item_id root ∉ draggingIds s ->
  (forall ov activeRect overItem tp,
     over ev = Some ov ->
     translated (active ev) = Some activeRect ->
     over_id ov <> "__catch_zone_start__"%string ->
     over_id ov <> "__catch_zone_end__"%string ->
     List.find (fun x => bool_decide (entry_id x = over_id ov)) flat
     = Some overItem ->
     targetParent
       (dropTargetOf (collapsed s) overItem
          (ratioOf activeRect (over_rect ov))) = Some tp ->
     (exists d, d ∈ draggingIds s /\ d ∈ chainIds tp) ->
     s' = s)
  /\ (hoveredParent s' <> hoveredParent s ->
      cleanTarget root (draggingIds s) (hoveredParent s'))
  /\ (cleanTarget root (draggingIds s) (hoveredParent s) ->
      cleanTarget root (draggingIds s') (hoveredParent s'))
  /\ draggingIds s' = draggingIds s.
Proof.
  intros root flat s' Hroot.
  pose proof (handleDragMove_clean data ev s Hroot) as Hclean. fold root s' in Hclean.
  split; [|split; [|split]].
  - intros ov activeRect overItem tp Hov Hrect H1 H2 Hfind Htp (d & Hd & Hc).
    subst s'. rewrite (handleDragMove_over_node root ev s ov activeRect overItem) by done.
    assert (dropsIntoDragged
              (dropTargetOf (collapsed s) overItem (ratioOf activeRect (over_rect ov)))
              (draggingIds s) = true) as ->; [|done].
    apply dropsIntoDragged_spec. eauto.
  - intros Hne. destruct Hclean as [E|H]; [|done]. by rewrite E in Hne.
  - intros Hold. subst s'. rewrite handleDragMove_draggingIds.
    destruct Hclean as [E|H]; [|done]. by rewrite E.
  - apply handleDragMove_draggingIds.
Qed.

Lemma cycle_validation_witness :
  handleDragMove exampleRoot (moveOver "A1" 5) (hoverStore ["A"%string] rootTarget)
  = hoverStore ["A"%string] rootTarget.
Proof.
  pose proof (cycle_validation exampleData (moveOver "A1" 5)
                (hoverStore ["A"%string] rootTarget)) as H.
  cbv zeta in H. destruct H as [H _].
  - apply (bool_decide_unpack _). vm_compute. exact I.
  - apply (H (mkOver "A1" (rectAt 100)) (rectAt (90 + 5)) entryA1 nodeA).
    + reflexivity.
    + reflexivity.
    + discriminate.
    + discriminate.
    + vm_compute. reflexivity.
    + vm_compute. reflexivity.
    + exists "A"%string. split; [left|]. vm_compute. left.
Defined.

(** * Drag end: the completion payload *)

Lemma findNodeById_sub_found t :
  forall p i found,
    findNodeById_sub t p i = Some found ->
    found ∈ preorder_sub t p /\ item_id found = i.
Proof.
  induction t as [it d|it d cs IH] using Subtree_nested_ind; intros p i found.
  - cbn [findNodeById_sub]. case_bool_decide as E; [|done].
    intros [= <-]. split; [left|done].
  - cbn [findNodeById_sub preorder_sub]. case_bool_decide as E.
    { intros [= <-]. split; [left|done]. }
    set (r := mkInternalTreeNode _ p). clearbody r.
    induction IH as [|c0 cs0 Hc0 _ IHcs]; [done|].
    destruct (findNodeById_sub c0 (Some r) i) as [f|] eqn:Hf.
    + intros [= <-]. destruct (Hc0 _ _ _ Hf) as [Hin Hid]. split; [|done].
      right. simpl. apply elem_of_app. by left.
    + intros H. destruct (IHcs H) as [Hin Hid]. split; [|done].
      apply elem_of_cons in Hin as [->|Hin]; [left|].
      right. simpl. apply elem_of_app. by right.
Qed.

Lemma findNodeById_found root i found :
  findNodeById root i = Some found ->
  found ∈ preorder root /\ item_id found = i.
Proof. apply findNodeById_sub_found. Qed.

Lemma filter_otherThan_absent n l :
  Forall (fun c => bool_decide (item_id c = item_id n) = false) l ->
  List.filter (otherThan n) l = l.
Proof.
  intros H. apply filter_all. eapply Forall_impl; [exact H|].
  intros c Hc. unfold otherThan. simpl in *. by rewrite Hc.
Qed.

Lemma nodup_others l1 x l2 :
  NoDup (map item_id (l1 ++ x :: l2)) ->
  Forall (fun c => bool_decide (item_id c = item_id x) = false) l1
  /\ Forall (fun c => bool_decide (item_id c = item_id x) = false) l2.
Proof.
  rewrite map_app. simpl. intros H.
  apply NoDup_app in H as (_ & Hdis & H2). apply NoDup_cons in H2 as [Hx _].
  split; apply Forall_forall; intros c Hc; apply bool_decide_eq_false; intros E.
  - apply (Hdis (item_id c)); [apply list_elem_of_fmap; by exists c|]. rewrite E. left.
  - apply Hx. rewrite <- E. apply list_elem_of_fmap. by exists c.
Qed.

Lemma filter_otherThan_middle l1 x l2 :
  NoDup (map item_id (l1 ++ x :: l2)) ->
  List.filter (otherThan x) (l1 ++ x :: l2) = l1 ++ l2.
Proof.
  intros H. destruct (nodup_others _ _ _ H) as [H1 H2].
  rewrite List.filter_app. simpl. unfold otherThan at 2.
  rewrite bool_decide_eq_true_2 by done. simpl.
  by rewrite !filter_otherThan_absent.
Qed.

(** One turn of the removal loop, the child list split at the insertion
    point: [delta] is what separates [insertAt] from the length of the
    part before it. *)
Lemma removeDragged_split L R delta n :
  NoDup (map item_id (L ++ R)) ->
  (delta <= 0 \/ R = []) -> (0 <= delta \/ L = []) ->
  removeDragged (L ++ R, delta + Z.of_nat (length L)) n
  = (List.filter (otherThan n) L ++ List.filter (otherThan n) R,
     delta + Z.of_nat (length (List.filter (otherThan n) L))).
Proof.
  intros Hnd HR HL. unfold removeDragged.
  set (f := fun child => bool_decide (item_id child = item_id n)).
  destruct (findIndex_split f L) as [HLn|(l1 & x & l2 & -> & Hx & H1)].
  - destruct (findIndex_split f R) as [HRn|(r1 & x & r2 & -> & Hx & H1)].
    + assert (findIndex f (L ++ R) = -1) as ->
        by (apply findIndex_none, Forall_app; done).
      simpl. by rewrite !filter_otherThan_absent.
    + rewrite app_assoc, findIndex_first; [|by apply Forall_app|done].
      destruct HR as [HR|HR]; [|by destruct r1].
      rewrite length_app.
      destruct (Z.eqb_spec (Z.of_nat (length L + length r1)) (-1)); [lia|].
      destruct (Z.ltb_spec (Z.of_nat (length L + length r1))
                  (delta + Z.of_nat (length L))); [lia|].
      simpl. rewrite Nat2Z.id, <- length_app, delete_middle, <- app_assoc.
      rewrite filter_otherThan_absent by done.
      apply bool_decide_eq_true in Hx.
      assert (otherThan n = otherThan x) as ->.
      { unfold otherThan. by rewrite Hx. }
      rewrite filter_otherThan_middle; [done|].
      rewrite map_app in Hnd. by apply NoDup_app in Hnd as (_ & _ & Hnd).
  - rewrite <- app_assoc. simpl. rewrite findIndex_first by done.
    destruct HL as [HL|HL]; [|by destruct l1].
    rewrite length_app. simpl length.
    destruct (Z.eqb_spec (Z.of_nat (length l1)) (-1)); [lia|].
    destruct (Z.ltb_spec (Z.of_nat (length l1))
                (delta + Z.of_nat (length l1 + S (length l2)))); [|lia].
    simpl. rewrite Nat2Z.id, delete_middle.
    apply bool_decide_eq_true in Hx.
    assert (otherThan n = otherThan x) as ->.
    { unfold otherThan. by rewrite Hx. }
    rewrite <- app_assoc in Hnd. simpl in Hnd.
    pose proof Hnd as Hnd'. rewrite app_comm_cons, app_assoc, map_app in Hnd'.
    apply NoDup_app in Hnd' as (HndL & _ & _).
    rewrite filter_otherThan_middle by done.
    destruct (nodup_others _ _ _ Hnd) as [_ H2]. apply Forall_app in H2 as [_ H2].
    rewrite (filter_otherThan_absent x R) by done.
    rewrite app_assoc, length_app. f_equal. lia.
Qed.

Lemma notDragged_cons n V c :
  notDragged (n :: V) c = otherThan n c && notDragged V c.
Proof.
  unfold notDragged, otherThan. simpl.
  destruct (bool_decide (item_id c = item_id n)) eqn:E1.
  - apply bool_decide_eq_true in E1. rewrite bool_decide_eq_true_2; [done|].
    rewrite E1. left.
  - apply bool_decide_eq_false in E1. simpl. f_equal.
    apply bool_decide_ext.
    split; [intros [H|H]%elem_of_cons; [done|exact H]|intros H; by right].
Qed.

Lemma filter_notDragged_cons n V l :
  List.filter (notDragged V) (List.filter (otherThan n) l)
  = List.filter (notDragged (n :: V)) l.
Proof.
  rewrite filter_filter. apply List.filter_ext. intros c.
  by rewrite notDragged_cons.
Qed.

Lemma fold_removeDragged V :
  forall L R delta,
    NoDup (map item_id (L ++ R)) ->
    (delta <= 0 \/ R = []) -> (0 <= delta \/ L = []) ->
    fold_left removeDragged V (L ++ R, delta + Z.of_nat (length L))
    = (List.filter (notDragged V) L ++ List.filter (notDragged V) R,
       delta + Z.of_nat (length (List.filter (notDragged V) L))).
Proof.
  induction V as [|n V IH]; intros L R delta Hnd HR HL.
  - simpl. by rewrite !filter_all by (apply Forall_forall; done).
  - cbn [fold_left]. rewrite removeDragged_split by done.
    rewrite IH, !filter_notDragged_cons; [done|..].
    + rewrite <- List.filter_app. eapply sublist_NoDup; [exact Hnd|].
      apply fmap_sublist, filter_sublist.
    + destruct HR as [?| ->]; [by left|by right].
    + destruct HL as [?| ->]; [by left|by right].
Qed.

(** One turn of the removal loop on a child list with distinct ids: a
    dragged node found at position [p] is removed, and [insertAt] drops by
    one exactly when [p] is before it; a node that is not there changes
    nothing. *)
Lemma removeDragged_step cs at_ n :
  NoDup (map item_id cs) ->
  (forall (p : nat) c,
     cs !! p = Some c -> item_id c = item_id n ->
     removeDragged (cs, at_) n
     = (delete p cs, if Z.of_nat p <? at_ then at_ - 1 else at_))
  /\ (item_id n ∉ map item_id cs -> removeDragged (cs, at_) n = (cs, at_)).
Proof.
  intros Hnd. split.
  - intros p c Hp Hc. unfold removeDragged. rewrite <- Hc.
    rewrite (findIndex_nodup cs p c Hnd Hp).
    destruct (Z.eqb_spec (Z.of_nat p) (-1)); [lia|]. simpl.
    by rewrite Nat2Z.id.
  - intros Hn. unfold removeDragged.
    assert (findIndex (fun child => bool_decide (item_id child = item_id n)) cs
            = -1) as ->; [|done].
    apply findIndex_none, Forall_forall. intros c Hc.
    apply bool_decide_eq_false. intros E. apply Hn. rewrite <- E.
    apply list_elem_of_fmap. by exists c.
Qed.

(** The whole removal loop in closed form. *)
Lemma fold_removeDragged_closed V cs childIdx :
  NoDup (map item_id cs) ->
  fold_left removeDragged V (cs, childIdx)
  = (List.filter (notDragged V) cs,
     childIdx
     - Z.of_nat (length (List.filter (fun c => negb (notDragged V c))
                           (take (Z.to_nat childIdx) cs)))).
Proof.
  intros Hnd.
  set (L := take (Z.to_nat childIdx) cs). set (R := drop (Z.to_nat childIdx) cs).
  assert (cs = L ++ R) as E by (symmetry; apply take_drop).
  set (delta := childIdx - Z.of_nat (length L)).
  replace childIdx with (delta + Z.of_nat (length L)) at 1 by lia.
  rewrite E at 1. rewrite fold_removeDragged.
  - rewrite <- List.filter_app, <- E. f_equal.
    pose proof (filter_length_split (notDragged V) L). subst delta. lia.
  - by rewrite <- E.
  - destruct (decide (childIdx <= Z.of_nat (length cs))) as [Hle|Hgt].
    + destruct (decide (childIdx < 0)); [left; lia|]. left. subst delta L.
      rewrite length_take. lia.
    + right. subst R. apply drop_ge. lia.
  - destruct (decide (0 <= childIdx)) as [Hle|Hgt].
    + left. subst delta L. rewrite length_take. lia.
    + right. subst L. replace (Z.to_nat childIdx) with 0%nat by lia. done.
Qed.

(** What [handleDragEnd] has checked when it emits a payload. *)
Lemma handleDragEnd_payload root ev s payload :
  (handleDragEnd root ev s).2 = Some payload ->
  exists pid childIdx tp,
    parentId (hoveredParent s) = Some pid
    /\ childIndex (hoveredParent s) = Some childIdx
    /\ findNodeById root pid = Some tp
    /\ let V := validNodesOf tp
                  (draggedNodesOf (useSelectableItems root (collapsed s))
                     (draggingIds s)) in
       V <> []
       /\ payload
          = mkDragEndPayload (map item V) (item tp)
              (map item (fold_left removeDragged V
                           (default [] (children tp), childIdx)).1)
              (fold_left removeDragged V
                 (default [] (children tp), childIdx)).2.
Proof.
  unfold handleDragEnd. cbn [snd].
  destruct (end_over ev) as [o|]; [|done].
  destruct (parentId (hoveredParent s)) as [pid|]; [|done].
  destruct (childIndex (hoveredParent s)) as [childIdx|]; [|done].
  destruct (truthy pid); [|done].
  destruct (findNodeById root pid) as [tp|] eqn:Htp; [|done].
  destruct (draggedNodesOf _ _) as [|d0 ds] eqn:Hd; [done|].
  destruct (validNodesOf tp (d0 :: ds)) as [|v0 vs] eqn:Hv; [done|].
  destruct (fold_left _ _ _) as [cs' at'] eqn:Hf. intros [= <-].
  exists pid, childIdx, tp. repeat (split; [done|]).
  cbv zeta. rewrite Hv, Hf. by split.
Qed.



Example move_c2_to_front :
  (handleDragEnd fiveRoot dropEvent
     (hoverStore ["c2"%string]
        (mkHoveredParent (Some "root"%string) (Some 0) (Some 0) (Some 0)
           (Some above)))).2
  = Some (mkDragEndPayload [fileNode "c2"] fiveData
            [fileNode "c0"; fileNode "c1"; fileNode "c3"; fileNode "c4"] 0).
Proof. vm_compute. reflexivity. Qed.

Example move_c0_after_c3 :
  (handleDragEnd fiveRoot dropEvent
     (hoverStore ["c0"%string]
        (mkHoveredParent (Some "root"%string) (Some 0) (Some 4) (Some 4)
           (Some below)))).2
  = Some (mkDragEndPayload [fileNode "c0"] fiveData
            [fileNode "c1"; fileNode "c2"; fileNode "c3"; fileNode "c4"] 3).
Proof. vm_compute. reflexivity. Qed.

(** The raw target of the second example comes from hovering the lower
    half of the row at position 3. *)
Example hover_below_c3 :
  hoveredParent
    (handleDragMove fiveRoot (moveOver "c3" 15) (hoverStore ["c0"%string] initialHoveredParent))
  = mkHoveredParent (Some "root"%string) (Some 0) (Some 4) (Some 4) (Some below).
Proof. vm_compute. reflexivity. Qed.

(** The end-to-end scenario: B dragged into the middle zone of A. *)
Example drag_B_into_A :
  let s1 := handleDragStart "B" selectedA in
  let s2 := handleDragMove exampleRoot (moveOver "A" 10) s1 in
  hoveredParent s2
  = mkHoveredParent (Some "A"%string) (Some 1) (Some 1) (Some 0) (Some inside)
  /\ (handleDragEnd exampleRoot dropEvent s2).2
     = Some (mkDragEndPayload [fileNode "B"]
               (dirNode "A" [fileNode "A1"; fileNode "A2"])
               [fileNode "A1"; fileNode "A2"] 0).
Proof. vm_compute. split; reflexivity. Qed.

Lemma handleDragEnd_well_formed data ev s payload :
  let root := buildInternalTree data None 0 in
  uniqueIds root ->
  boundedTarget root (hoveredParent s) ->
  (handleDragEnd root ev s).2 = Some payload ->
  payload_items payload <> []
  /\ (forall x, x ∈ payload_items payload -> x ∉ payload_children payload)
  /\ 0 <= insertAt payload <= Z.of_nat (length (payload_children payload)).
Proof.
  intros root Hu Hpre Hp.
  destruct (handleDragEnd_payload _ _ _ _ Hp)
    as (pid & ci & tp & Hpid & Hci & Htp & HV & ->).
  specialize (Hpre pid ci tp Hpid Hci Htp).
  destruct (findNodeById_found _ _ _ Htp) as [Hin _].
  set (V := validNodesOf _ _) in *. set (cs := default [] (children tp)) in *.
  rewrite fold_removeDragged_closed by (by apply (children_nodup root)).
  cbn [payload_items payload_children insertAt fst snd].
  split; [by destruct V|]. split.
  - intros x Hx Hc.
    apply list_elem_of_fmap in Hx as (v & -> & Hv).
    apply list_elem_of_fmap in Hc as (c & Hcv & Hc).
    apply filter_elem_of in Hc as [_ Hc]. unfold notDragged in Hc.
    apply negb_true_iff, bool_decide_eq_false in Hc. apply Hc.
    apply list_elem_of_fmap. exists v. split; [|done].
    unfold item_id. by rewrite Hcv.
  - rewrite length_map.
    set (L := take (Z.to_nat ci) cs).
    pose proof (filter_length_split (notDragged V) L) as HL.
    assert (length L = Z.to_nat ci) as HlenL by (subst L; rewrite length_take; lia).
    assert (length (List.filter (notDragged V) L)
            <= length (List.filter (notDragged V) cs))%nat as Hle.
    { rewrite <- (take_drop (Z.to_nat ci) cs). fold L.
      rewrite List.filter_app, length_app. lia. }
    lia.
Qed.

(** C10.  In a built tree with unique ids, when the hover-time child index
    lies between 0 and the child count of the target parent, an emitted
    payload has at least one item, no item among its children, and an
    [insertAt] between 0 and the number of its children. *)
Theorem payload_well_formed (data : TTreeNode) (ev : DragEndEvent)
    (s : TreeStore) (payload : DragEndPayload) :
  let root := buildInternalTree data None 0 in
  uniqueIds root ->
  (handleDragEnd root ev s).2 = Some payload ->
  (forall pid ci tp,
     parentId (hoveredParent s) = Some pid ->
     childIndex (hoveredParent s) = Some ci ->
     findNodeById root pid = Some tp ->
     0 <= ci <= Z.of_nat (length (default [] (children tp)))) ->
  payload_items payload <> []
  /\ (forall x, x ∈ payload_items payload -> x ∉ payload_children payload)
  /\ 0 <= insertAt payload <= Z.of_nat (length (payload_children payload)).
Proof.
  intros root Hu Hp Hpre. by apply (handleDragEnd_well_formed data ev s payload).
Qed.

Lemma payload_well_formed_witness :
  0 <= 3 <= Z.of_nat (length [fileNode "c1"; fileNode "c2"; fileNode "c3"; fileNode "c4"]).
Proof.
  apply (payload_well_formed fiveData dropEvent
           (hoverStore ["c0"%string]
              (mkHoveredParent (Some "root"%string) (Some 0) (Some 4) (Some 4)
                 (Some below)))
           (mkDragEndPayload [fileNode "c0"] fiveData
              [fileNode "c1"; fileNode "c2"; fileNode "c3"; fileNode "c4"] 3)).
  - apply (bool_decide_unpack _). vm_compute. exact I.
  - vm_compute. reflexivity.
  - intros pid ci tp [= <-] [= <-] Htp. vm_compute in Htp. injection Htp as <-.
    vm_compute. split; discriminate.
Defined.

(** * The drag gesture as a whole *)

(** A move either leaves the store as it was or writes a child index that
    fits the parent it names. *)
Lemma handleDragMove_bounded data ev s :
  let root := buildInternalTree data None 0 in
  uniqueIds root ->
  handleDragMove root ev s = s
  \/ boundedTarget root (hoveredParent (handleDragMove root ev s)).
Proof.
  intros root Hu. unfold handleDragMove. fold root.
  destruct (over ev) as [ov|]; [|right; by intros pid ci tp [=]].
  assert (findNodeById root (item_id root) = Some root) as Hroot.
  { apply findNodeById_unique; [done|]. apply preorder_sub_self. }
  case_bool_decide.
  { right. intros pid ci tp [= <-] [= <-]. rewrite Hroot. intros [= <-]. lia. }
  case_bool_decide.
  { right. intros pid ci tp [= <-] [= <-]. rewrite Hroot. intros [= <-].
    destruct (children root); simpl; lia. }
  destruct (List.find _ _) as [overItem|] eqn:Hfind; [|by left].
  destruct (translated (active ev)) as [activeRect|]; [|by left].
  set (t := dropTargetOf _ _ _).
  destruct (dropsIntoDragged t (draggingIds s)); [by left|].
  right. intros pid ci tp Hpid Hci Htp. simpl in Hpid, Hci. injection Hci as <-.
  apply find_elem_of in Hfind as [Hin _].
  destruct (visible_node_position data (collapsed s) overItem Hu Hin)
    as (p & siblings & k & Hpin & Hp & Hsib & Hk & Hci).
  fold root in Hpin.
  pose proof (flat_nodes_descendants _ _ _ Hin) as Hdesc. fold root in Hdesc.
  apply descendants_preorder in Hdesc.
  pose proof (lookup_lt_Some _ _ _ Hk) as Hlt.
  assert (targetParent t = Some p /\ targetChildIndex t = Z.of_nat k
          \/ targetParent t = Some p /\ targetChildIndex t = Z.of_nat k + 1
          \/ targetParent t = Some (node overItem) /\ targetChildIndex t = 0)
    as Hcases.
  { subst t. unfold dropTargetOf. rewrite Hp, Hci.
    repeat match goal with |- context [if ?b then _ else _] => destruct b end;
      simpl; auto. }
  destruct Hcases as [[Ht ->]|[[Ht ->]|[Ht ->]]]; rewrite Ht in Hpid;
    simpl in Hpid; injection Hpid as <-;
    rewrite findNodeById_unique in Htp by done; injection Htp as <-;
    rewrite ?Hsib; simpl; lia.
Qed.

Lemma boundedTarget_initial root : boundedTarget root initialHoveredParent.
Proof. by intros pid ci tp [=]. Qed.

Lemma dragging_from_bounded data s0 s :
  let root := buildInternalTree data None 0 in
  uniqueIds root ->
  dragging_from root s0 s -> boundedTarget root (hoveredParent s).
Proof.
  intros root Hu Hs. induction Hs as [a|s ev Hs IH|s it Hs IH].
  - unfold handleDragStart. case_bool_decide; apply boundedTarget_initial.
  - destruct (handleDragMove_bounded data ev s Hu) as [E|H]; [|done].
    fold root in E. by rewrite E.
  - exact IH.
Qed.

Lemma dragging_from_clean data s0 s :
  let root := buildInternalTree data None 0 in
  dragging_from root s0 s ->
  item_id root ∉ draggingIds s ->
  cleanTarget root (draggingIds s) (hoveredParent s).
Proof.
  intros root Hs. induction Hs as [a|s ev Hs IH|s it Hs IH]; intros Hroot.
  - unfold handleDragStart. case_bool_decide; by intros pid [=].
  - rewrite handleDragMove_draggingIds in *.
    destruct (handleDragMove_clean data ev s Hroot) as [E|H]; [|done].
    fold root in E. rewrite E. by apply IH.
  - by apply IH.
Qed.

(** Whatever the gesture, the payload it ends with is well formed. *)
Theorem gesture_payload_well_formed (data : TTreeNode) (ev : DragEndEvent)
    (s0 s : TreeStore) (payload : DragEndPayload) :
  let root := buildInternalTree data None 0 in
  uniqueIds root ->
  dragging_from root s0 s ->
  (handleDragEnd root ev s).2 = Some payload ->
  payload_items payload <> []
  /\ (forall x, x ∈ payload_items payload -> x ∉ payload_children payload)
  /\ 0 <= insertAt payload <= Z.of_nat (length (payload_children payload)).
Proof.
  intros root Hu Hs Hp.
  apply (handleDragEnd_well_formed data ev s payload); [done| |done].
  by apply (dragging_from_bounded data s0).
Qed.

Lemma gesture_payload_well_formed_witness :
  0 <= 0 <= Z.of_nat (length [fileNode "A1"; fileNode "A2"]).
Proof.
  apply (gesture_payload_well_formed exampleData dropEvent selectedA holdingB
           (mkDragEndPayload [fileNode "B"]
              (dirNode "A" [fileNode "A1"; fileNode "A2"])
              [fileNode "A1"; fileNode "A2"] 0)).
  - apply (bool_decide_unpack _). vm_compute. exact I.
  - apply drag_moved, drag_started.
  - vm_compute. reflexivity.
Defined.

(** Whatever the gesture, the stored target is clean as long as the root
    is not dragged. *)
Theorem gesture_target_clean (data : TTreeNode) (s0 s : TreeStore) :
  let root := buildInternalTree data None 0 in
  dragging_from root s0 s ->
  item_id root ∉ draggingIds s ->
  cleanTarget root (draggingIds s) (hoveredParent s).
Proof. intros root Hs Hroot. by apply (dragging_from_clean data s0). Qed.

Lemma gesture_target_clean_witness :
  cleanTarget exampleRoot (draggingIds holdingB) (hoveredParent holdingB).
Proof.
  apply (gesture_target_clean exampleData selectedA holdingB).
  - apply drag_moved, drag_started.
  - apply (bool_decide_unpack _). vm_compute. exact I.
Defined.


#[local] Set Warnings "-clear-no-such-hyp".

(** * The raw tree: search, removal, insertion *)

Lemma rawPreorder_unfold t :
  rawPreorder t = t :: flat_map rawPreorder (default [] (TTreeNode.children t)).
Proof. by destruct t as [? ? ? [cs|]]. Qed.

Lemma rawIds_unfold t :
  rawIds t = TTreeNode.id t :: flat_map rawIds (default [] (TTreeNode.children t)).
Proof.
  unfold rawIds. rewrite rawPreorder_unfold. cbn [map]. f_equal.
  apply map_flat_map.
Qed.

Lemma rawIds_child t cs c j :
  TTreeNode.children t = Some cs -> c ∈ cs -> j ∈ rawIds c -> j ∈ tail (rawIds t).
Proof.
  intros Hc Hin Hj. rewrite rawIds_unfold, Hc. simpl.
  apply list_elem_of_In, in_flat_map. exists c. split; by apply list_elem_of_In.
Qed.

Lemma rawIds_tail t j : j ∈ tail (rawIds t) -> j ∈ rawIds t.
Proof. rewrite rawIds_unfold. by right. Qed.

Lemma rawIds_self t : TTreeNode.id t ∈ rawIds t.
Proof. rewrite rawIds_unfold. left. Qed.

Lemma flat_map_elem_of {A B} (f : A -> list B) l b :
  b ∈ flat_map f l <-> exists a, a ∈ l /\ b ∈ f a.
Proof.
  rewrite list_elem_of_In, in_flat_map. split; intros (a & H1 & H2); exists a.
  - by rewrite !list_elem_of_In.
  - by rewrite <- !list_elem_of_In.
Qed.

(** ** The loops *)

Lemma firstSome_none {A B} (g : A -> option B) cs :
  firstSome g cs = None <-> Forall (fun c => g c = None) cs.
Proof.
  induction cs as [|c cs IH]; simpl; [by split; [constructor|]|].
  destruct (g c) eqn:E.
  - split; [done|]. intros H. inversion H; congruence.
  - rewrite IH. split; [by constructor|]. by intros H; inversion H.
Qed.

Lemma firstSome_some {A B} (g : A -> option B) cs y :
  firstSome g cs = Some y ->
  exists l1 c l2, cs = l1 ++ c :: l2 /\ Forall (fun c => g c = None) l1
                  /\ g c = Some y.
Proof.
  induction cs as [|c cs IH]; simpl; [done|].
  destruct (g c) eqn:E.
  - intros [= <-]. by exists [], c, cs.
  - intros (l1 & c' & l2 & -> & H1 & H2)%IH. exists (c :: l1), c', l2.
    split; [done|]. split; [by constructor|done].
Qed.

Lemma firstSome_at {A B} (g : A -> option B) l1 c l2 :
  Forall (fun c => g c = None) l1 ->
  firstSome g (l1 ++ c :: l2)
  = match g c with Some y => Some y | None => firstSome g l2 end.
Proof.
  induction 1 as [|a l1 Ha _ IH]; simpl; [done|]. by rewrite Ha.
Qed.

Lemma firstSome_find {A B} (g : A -> option B) (h : A -> list B) (P : B -> bool) cs :
  Forall (fun c => g c = List.find P (h c)) cs ->
  firstSome g cs = List.find P (flat_map h cs).
Proof.
  induction 1 as [|c cs Hc _ IH]; simpl; [done|].
  rewrite find_app, Hc. by destruct (List.find P (h c)).
Qed.

(** ** [findNodeByIdMutable] *)

Lemma findNodeByIdMutable_eq nm rid ty ch i :
  ImplApp.findNodeByIdMutable (TTreeNode.mk nm rid ty ch) i
  = if bool_decide (rid = i) then Some (TTreeNode.mk nm rid ty ch)
    else firstSome (fun c => ImplApp.findNodeByIdMutable c i) (default [] ch).
Proof. by destruct ch. Qed.

Lemma findNodeByIdMutable_find t i :
  ImplApp.findNodeByIdMutable t i
  = List.find (fun n => bool_decide (TTreeNode.id n = i)) (rawPreorder t).
Proof.
  induction t as [nm rid ty|nm rid ty cs IH] using TTreeNode_nested_ind;
    rewrite findNodeByIdMutable_eq; cbn [rawPreorder List.find TTreeNode.id];
    case_bool_decide; try done.
  simpl. by apply firstSome_find.
Qed.

Lemma findInNode_eq nm rid ty ch i :
  findInNode (TTreeNode.mk nm rid ty ch) i
  = if bool_decide (rid = i) then Some (TTreeNode.mk nm rid ty ch)
    else firstSome (fun c => findInNode c i) (default [] ch).
Proof. by destruct ch. Qed.

Lemma findInNode_same t i : findInNode t i = ImplApp.findNodeByIdMutable t i.
Proof.
  induction t as [nm rid ty|nm rid ty cs IH] using TTreeNode_nested_ind; [done|].
  rewrite findNodeByIdMutable_eq, findInNode_eq. case_bool_decide; [done|].
  cbn [default]. induction IH as [|c cs Hc _ IHcs]; simpl; [done|].
  rewrite Hc. by destruct (ImplApp.findNodeByIdMutable c i).
Qed.

Lemma findInNodes_eq cs i :
  findInNodes cs i = firstSome (fun c => ImplApp.findNodeByIdMutable c i) cs.
Proof.
  induction cs as [|c cs IH]; simpl; [done|].
  by rewrite findInNode_same, IH.
Qed.

(** ** [prune] *)

Lemma prune_id I t : TTreeNode.id (prune I t) = TTreeNode.id t.
Proof. by destruct t. Qed.

Lemma prune_children I t :
  TTreeNode.children (prune I t)
  = (fun cs => List.filter (fun c => negb (bool_decide (TTreeNode.id c ∈ I)))
                 (map (prune I) cs)) <$> TTreeNode.children t.
Proof. by destruct t as [? ? ? [cs|]]. Qed.

Lemma filter_keeps_ids {A} (key : A -> string) (f : A -> A) (P : string -> bool) l :
  (forall a, key (f a) = key a) ->
  List.filter (fun a => P (key a)) (map f l)
  = map f (List.filter (fun a => P (key a)) l).
Proof.
  intros Hk. induction l as [|a l IH]; simpl; [done|].
  rewrite Hk. destruct (P (key a)); simpl; by rewrite IH.
Qed.

Lemma prune_absent I t :
  (forall j, j ∈ I -> j ∉ tail (rawIds t)) -> prune I t = t.
Proof.
  induction t as [nm rid ty|nm rid ty cs IH] using TTreeNode_nested_ind; [done|].
  intros Habs. simpl. do 2 f_equal.
  assert (Hcs : forall c, c ∈ cs -> forall j, j ∈ I -> j ∉ rawIds c).
  { intros c Hc j Hj Hin. apply (Habs j Hj).
    by eapply (rawIds_child (TTreeNode.mk nm rid ty (Some cs))). }
  clear Habs.
  induction IH as [|c cs Hc _ IHcs]; simpl; [done|].
  rewrite prune_id. rewrite bool_decide_eq_false_2; simpl.
  - rewrite Hc.
    + rewrite IHcs; [done|]. intros c' Hc'. apply Hcs. by right.
    + intros j Hj Hin. apply (Hcs c (list_elem_of_here _ _) j Hj).
      rewrite rawIds_unfold in Hin |- *. by right.
  - intros Hin. apply (Hcs c (list_elem_of_here _ _) _ Hin), rawIds_self.
Qed.

Lemma flat_map_sublist {A B} (f g : A -> list B) l1 l2 :
  Forall2 (fun a b => sublist (f a) (g b)) l1 l2 ->
  sublist (flat_map f l1) (flat_map g l2).
Proof.
  induction 1; simpl; [done|]. by apply sublist_app.
Qed.

Lemma rawIds_prune_sublist I t : sublist (rawIds (prune I t)) (rawIds t).
Proof.
  induction t as [nm rid ty|nm rid ty cs IH] using TTreeNode_nested_ind; [done|].
  rewrite !rawIds_unfold. cbn [prune TTreeNode.id TTreeNode.children default].
  apply sublist_skip.
  induction IH as [|c cs Hc _ IHcs]; simpl; [done|].
  destruct (negb _); simpl.
  - by apply sublist_app.
  - by apply sublist_inserts_l.
Qed.

Lemma bool_decide_app (x : string) I J :
  bool_decide (x ∈ I ++ J) = bool_decide (x ∈ I) || bool_decide (x ∈ J).
Proof.
  repeat case_bool_decide; simpl; try done; exfalso;
    rewrite elem_of_app in *; tauto.
Qed.

Lemma prune_app I J t : prune J (prune I t) = prune (I ++ J) t.
Proof.
  induction t as [nm rid ty|nm rid ty cs IH] using TTreeNode_nested_ind; [done|].
  simpl. do 2 f_equal.
  pose proof (filter_keeps_ids TTreeNode.id (prune J)
                (fun i => negb (bool_decide (i ∈ I))) (map (prune I) cs)
                (prune_id J)) as E.
  cbn beta in E. rewrite <- E, filter_filter, map_map. clear E.
  induction IH as [|c cs Hc _ IHcs]; simpl; [done|].
  rewrite Hc, !prune_id, IHcs.
  by rewrite bool_decide_app, negb_orb.
Qed.

(** ** [removeNodeFromTree] *)

Lemma removeNodeFromTree_eq nm rid ty cs i :
  ImplApp.removeNodeFromTree (TTreeNode.mk nm rid ty (Some cs)) i
  = let idx :=
      findIndex (fun child => bool_decide (TTreeNode.id child = i)) cs in
    if negb (idx =? -1) then
      (TTreeNode.mk nm rid ty (Some (delete (Z.to_nat idx) cs)), true)
    else
      let '(cs', removed) :=
        removeEach (fun c => ImplApp.removeNodeFromTree c i) cs in
      (TTreeNode.mk nm rid ty (Some cs'), removed).
Proof. reflexivity. Qed.

Lemma utils_removeNodeFromTree_eq nm rid ty cs i :
  removeNodeFromTree (TTreeNode.mk nm rid ty (Some cs)) i
  = if bool_decide (rid = i) then (TTreeNode.mk nm rid ty (Some cs), false)
    else
      let idx :=
        findIndex (fun child => bool_decide (TTreeNode.id child = i)) cs in
      if negb (idx =? -1) then
        (TTreeNode.mk nm rid ty (Some (delete (Z.to_nat idx) cs)), true)
      else
        let '(cs', removed) := removeEach (fun c => removeNodeFromTree c i) cs in
        (TTreeNode.mk nm rid ty (Some cs'), removed).
Proof. reflexivity. Qed.

Lemma removeEach_ext rm1 rm2 cs :
  Forall (fun c => rm1 c = rm2 c) cs -> removeEach rm1 cs = removeEach rm2 cs.
Proof.
  induction 1 as [|c cs Hc _ IH]; simpl; [done|]. by rewrite Hc, IH.
Qed.

Lemma tail_rawIds_node nm rid ty cs :
  tail (rawIds (TTreeNode.mk nm rid ty (Some cs))) = flat_map rawIds cs.
Proof. by rewrite rawIds_unfold. Qed.

Lemma findIndex_children_ids cs i :
  findIndex (fun child => bool_decide (TTreeNode.id child = i)) cs = -1
  <-> i ∉ map TTreeNode.id cs.
Proof.
  rewrite findIndex_none, Forall_forall. split.
  - intros H (c & -> & Hc)%list_elem_of_fmap. specialize (H c Hc).
    by rewrite bool_decide_eq_false in H.
  - intros H c Hc. apply bool_decide_eq_false. intros <-.
    apply H, list_elem_of_fmap. by exists c.
Qed.

Lemma children_ids_sub cs i :
  i ∈ map TTreeNode.id cs -> i ∈ flat_map rawIds cs.
Proof.
  intros (c & -> & Hc)%list_elem_of_fmap. apply flat_map_elem_of.
  exists c. split; [done|apply rawIds_self].
Qed.

(** Whether a node was removed, and that nothing changes when none was:
    no assumption on the ids. *)
Lemma removeNodeFromTree_result t i :
  (ImplApp.removeNodeFromTree t i).2 = bool_decide (i ∈ tail (rawIds t))
  /\ ((ImplApp.removeNodeFromTree t i).2 = false
      -> (ImplApp.removeNodeFromTree t i).1 = t).
Proof.
  induction t as [nm rid ty|nm rid ty cs IH] using TTreeNode_nested_ind.
  { by split. }
  rewrite removeNodeFromTree_eq, tail_rawIds_node. cbn zeta.
  destruct (findIndex _ cs =? -1) eqn:E; simpl.
  - apply Z.eqb_eq, findIndex_children_ids in E.
    assert (Hloop :
      (removeEach (fun c => ImplApp.removeNodeFromTree c i) cs).2
      = bool_decide (i ∈ flat_map rawIds cs)
      /\ ((removeEach (fun c => ImplApp.removeNodeFromTree c i) cs).2 = false
          -> (removeEach (fun c => ImplApp.removeNodeFromTree c i) cs).1 = cs)).
    { clear nm rid ty. induction IH as [|c cs [Hb Hu] _ IHcs]; simpl.
      { by split. }
      assert (Hc : TTreeNode.id c <> i) by set_solver.
      destruct (ImplApp.removeNodeFromTree c i) as [c' b] eqn:Ec. simpl in *.
      assert (Hin : i ∈ rawIds c <-> i ∈ tail (rawIds c)).
      { rewrite (rawIds_unfold c). simpl. set_solver. }
      destruct b.
      - split; [|done]. simpl. symmetry in Hb. apply bool_decide_eq_true in Hb.
        symmetry. apply bool_decide_eq_true. set_solver.
      - destruct IHcs as [Hb' Hu']; [set_solver|].
        destruct (removeEach _ cs) as [rest' r]. simpl in *.
        symmetry in Hb. apply bool_decide_eq_false in Hb.
        split.
        + rewrite Hb'. apply bool_decide_ext. set_solver.
        + intros ->. by rewrite Hu, Hu'. }
    destruct (removeEach _ cs) as [cs' b]. simpl in *.
    destruct Hloop as [-> Hu]. split; [done|]. intros Hb. by rewrite Hu.
  - split; [|done]. symmetry. apply bool_decide_eq_true.
    apply children_ids_sub. apply Z.eqb_neq in E.
    destruct (decide (i ∈ map TTreeNode.id cs)) as [|Hn]; [done|].
    by apply findIndex_children_ids in Hn.
Qed.

Lemma NoDup_rawIds_child t cs c :
  TTreeNode.children t = Some cs -> NoDup (rawIds t) -> c ∈ cs ->
  NoDup (rawIds c).
Proof.
  intros Hc Hn Hin. rewrite rawIds_unfold, Hc in Hn. simpl in Hn.
  apply NoDup_cons in Hn as [_ Hn]. by eapply NoDup_flat_map_part.
Qed.

Lemma removeEach_prune rm i cs :
  Forall (fun c => NoDup (rawIds c) ->
            rm c = (prune [i] c, bool_decide (i ∈ tail (rawIds c)))) cs ->
  NoDup (flat_map rawIds cs) ->
  i ∉ map TTreeNode.id cs ->
  removeEach rm cs = (map (prune [i]) cs, bool_decide (i ∈ flat_map rawIds cs)).
Proof.
  induction 1 as [|c cs Hc _ IH]; intros Hn Hi; simpl; [done|].
  simpl in Hn. apply NoDup_app in Hn as (Hn1 & Hdisj & Hn2).
  assert (Hin : i ∈ rawIds c <-> i ∈ tail (rawIds c)).
  { rewrite (rawIds_unfold c). simpl. set_solver. }
  rewrite (Hc Hn1).
  destruct (bool_decide (i ∈ tail (rawIds c))) eqn:E;
    [apply bool_decide_eq_true in E|apply bool_decide_eq_false in E].
  - f_equal.
    + f_equal. symmetry. clear IH Hc.
      assert (Hrest : forall c', c' ∈ cs -> i ∉ rawIds c').
      { intros c' Hc' Hi'. apply (Hdisj i); [by apply (proj2 Hin)|].
        apply flat_map_elem_of. by exists c'. }
      clear -Hrest. induction cs as [|c' cs IH]; simpl; [done|].
      rewrite prune_absent, IH; [done| |].
      * intros c'' H. apply Hrest. by right.
      * intros j ->%list_elem_of_singleton Hj.
        apply (Hrest c' (list_elem_of_here _ _)).
        by apply rawIds_tail.
    + symmetry. apply bool_decide_eq_true. set_solver.
  - rewrite IH; [|done|set_solver]. f_equal.
    apply bool_decide_ext. set_solver.
Qed.

(** With unique ids the removal cuts out the one node named [i]. *)
Lemma removeNodeFromTree_prune t i :
  NoDup (rawIds t) ->
  ImplApp.removeNodeFromTree t i
  = (prune [i] t, bool_decide (i ∈ tail (rawIds t))).
Proof.
  induction t as [nm rid ty|nm rid ty cs IH] using TTreeNode_nested_ind;
    [done|].
  intros Hn. rewrite removeNodeFromTree_eq, tail_rawIds_node. cbn zeta.
  rewrite rawIds_unfold in Hn. simpl in Hn. apply NoDup_cons in Hn as [_ Hn].
  destruct (findIndex _ cs =? -1) eqn:E; simpl.
  - apply Z.eqb_eq, findIndex_children_ids in E.
    rewrite (removeEach_prune _ i cs IH Hn E). do 3 f_equal.
    clear -E. induction cs as [|c cs IHcs]; simpl; [done|].
    rewrite prune_id. rewrite bool_decide_eq_false_2 by set_solver.
    simpl. rewrite <- IHcs; [done|set_solver].
  - apply Z.eqb_neq in E.
    destruct (findIndex_split (fun child => bool_decide (TTreeNode.id child = i)) cs)
      as [Hall|(l1 & x & l2 & -> & Hx & Hl1)].
    { by apply findIndex_none in Hall. }
    apply bool_decide_eq_true in Hx.
    rewrite (findIndex_first _ l1 x l2 Hl1) by by apply bool_decide_eq_true.
    rewrite Nat2Z.id, delete_middle. f_equal.
    + do 2 f_equal.
      assert (Hothers : forall c, c ∈ l1 ++ l2 -> i ∉ rawIds c).
      { intros c Hc Hi. rewrite flat_map_app in Hn. simpl in Hn.
        apply NoDup_app in Hn as (_ & Hd1 & Hn).
        apply NoDup_app in Hn as (_ & Hd2 & _).
        apply elem_of_app in Hc as [Hc|Hc].
        - apply (Hd1 i); [apply flat_map_elem_of; by exists c|].
          apply elem_of_app. left. subst i. apply rawIds_self.
        - apply (Hd2 i); [subst i; apply rawIds_self|].
          apply flat_map_elem_of. by exists c. }
      rewrite map_app. simpl. rewrite List.filter_app. simpl.
      rewrite prune_id, Hx.
      rewrite (bool_decide_eq_true_2 (i ∈ [i])) by set_solver. simpl.
      assert (Hkeep : forall l, (forall c, c ∈ l -> i ∉ rawIds c) ->
                List.filter (fun c => negb (bool_decide (TTreeNode.id c ∈ [i])))
                  (map (prune [i]) l) = l).
      { clear. induction l as [|c l IHl]; intros H; simpl; [done|].
        rewrite prune_id.
        rewrite bool_decide_eq_false_2.
        - simpl. rewrite prune_absent, IHl; [done| |].
          + intros c' Hc'. apply H. by right.
          + intros j ->%list_elem_of_singleton Hj.
            apply (H c (list_elem_of_here _ _)).
            by apply rawIds_tail.
        - intros E%list_elem_of_singleton.
          apply (H c (list_elem_of_here _ _)). rewrite <- E.
          apply rawIds_self. }
      rewrite !Hkeep; [done| |]; intros c Hc; apply Hothers, elem_of_app; auto.
    + symmetry. apply bool_decide_eq_true, children_ids_sub.
      rewrite map_app. simpl. set_solver.
Qed.

Lemma removeAll_prune items t :
  NoDup (rawIds t) ->
  ImplApp.removeAll items t = prune (map TTreeNode.id items) t.
Proof.
  unfold ImplApp.removeAll. revert t.
  induction items as [|x items IH]; intros t Hn; simpl.
  { symmetry. apply prune_absent. set_solver. }
  rewrite removeNodeFromTree_prune by done. simpl.
  rewrite IH.
  - apply (prune_app [TTreeNode.id x]).
  - eapply sublist_NoDup; [exact Hn|apply rawIds_prune_sublist].
Qed.

(** The two copies of [removeNodeFromTree] differ only on the root's id. *)
Lemma removeNodeFromTree_copies t i :
  removeNodeFromTree t i
  = if bool_decide (TTreeNode.id t = i) then (t, false)
    else ImplApp.removeNodeFromTree t i.
Proof.
  induction t as [nm rid ty|nm rid ty cs IH] using TTreeNode_nested_ind.
  { simpl. by case_bool_decide. }
  rewrite utils_removeNodeFromTree_eq, removeNodeFromTree_eq. cbn zeta.
  cbn [TTreeNode.id]. case_bool_decide; [done|].
  destruct (findIndex _ cs =? -1) eqn:E; simpl; [|done].
  apply Z.eqb_eq, findIndex_children_ids in E.
  rewrite (removeEach_ext _ (fun c => ImplApp.removeNodeFromTree c i)); [done|].
  clear -IH E. induction IH as [|c cs Hc _ IHcs]; constructor.
  - rewrite Hc. rewrite bool_decide_eq_false_2; [done|set_solver].
  - apply IHcs. set_solver.
Qed.

Lemma find_none_all {A} (f : A -> bool) l :
  List.find f l = None <-> Forall (fun x => f x = false) l.
Proof.
  induction l as [|a l IH]; simpl; [by split; [constructor|]|].
  destruct (f a) eqn:E.
  - split; [done|]. intros H. inversion H; congruence.
  - rewrite IH. split; [by constructor|]. by intros H; inversion H.
Qed.

Lemma findNodeByIdMutable_none t i :
  ImplApp.findNodeByIdMutable t i = None <-> i ∉ rawIds t.
Proof.
  rewrite findNodeByIdMutable_find, find_none_all, Forall_forall.
  unfold rawIds. split.
  - intros H (x & -> & Hx)%list_elem_of_fmap. specialize (H x Hx).
    by apply bool_decide_eq_false in H.
  - intros H x Hx. apply bool_decide_eq_false. intros <-.
    apply H, list_elem_of_fmap. by exists x.
Qed.

Lemma findNodeByIdMutable_some t i x :
  ImplApp.findNodeByIdMutable t i = Some x ->
  x ∈ rawPreorder t /\ TTreeNode.id x = i.
Proof.
  rewrite findNodeByIdMutable_find. intros [H1 H2]%find_elem_of.
  by apply bool_decide_eq_true in H2.
Qed.

Lemma rawPreorder_child t cs c y :
  TTreeNode.children t = Some cs -> c ∈ cs -> y ∈ rawPreorder c ->
  y ∈ tail (rawPreorder t).
Proof.
  intros Hc Hin Hy. rewrite rawPreorder_unfold, Hc. simpl.
  apply flat_map_elem_of. by exists c.
Qed.

Lemma rawPreorder_tail t y : y ∈ tail (rawPreorder t) -> y ∈ rawPreorder t.
Proof. rewrite (rawPreorder_unfold t). by right. Qed.

(** A node that lies in no removed subtree is found again after the
    removal, pruned itself. *)
Lemma findNodeByIdMutable_prune I t q x :
  ImplApp.findNodeByIdMutable t q = Some x ->
  (forall y, y ∈ tail (rawPreorder t) -> TTreeNode.id y ∈ I -> q ∉ rawIds y) ->
  ImplApp.findNodeByIdMutable (prune I t) q = Some (prune I x).
Proof.
  revert x.
  induction t as [nm rid ty|nm rid ty cs IH] using TTreeNode_nested_ind;
    intros x.
  { simpl. case_bool_decide; [|done]. by intros [= <-]. }
  rewrite findNodeByIdMutable_eq. cbn [prune].
  rewrite findNodeByIdMutable_eq. case_bool_decide; [by intros [= <-]|].
  cbn [from_option id]. intros Hfind Hclean.
  apply firstSome_some in Hfind as (l1 & c & l2 & -> & Hl1 & Hc).
  rewrite map_app, List.filter_app. cbn [map List.filter].
  assert (Hkeep : bool_decide (TTreeNode.id (prune I c) ∈ I) = false).
  { rewrite prune_id. apply bool_decide_eq_false. intros Hin.
    apply (Hclean c).
    - eapply rawPreorder_child; [done| |rewrite rawPreorder_unfold; left].
      apply elem_of_app. right. left.
    - done.
    - apply findNodeByIdMutable_some in Hc as [Hx <-].
      apply list_elem_of_fmap. by exists x. }
  rewrite Hkeep. cbn [negb].
  rewrite firstSome_at.
  - rewrite Forall_forall in IH. rewrite (IH c) with (x := x); [done| |done|].
    + apply elem_of_app. right. left.
    + intros y Hy. apply Hclean.
      eapply rawPreorder_child; [done| |by apply rawPreorder_tail].
      apply elem_of_app. right. left.
  - apply Forall_forall. intros c' [Hc' _]%filter_elem_of.
    apply list_elem_of_fmap in Hc' as (c0 & -> & Hc0).
    apply findNodeByIdMutable_none. intros Hin.
    rewrite Forall_forall in Hl1. specialize (Hl1 c0 Hc0).
    apply findNodeByIdMutable_none in Hl1. apply Hl1.
    eapply elem_of_sublist; [exact Hin|apply rawIds_prune_sublist].
Qed.

(** ** [updateFound]: the write through the found reference *)

Lemma updateFound_eq f nm rid ty ch i :
  ImplApp.updateFound f (TTreeNode.mk nm rid ty ch) i
  = if bool_decide (rid = i) then Some (f (TTreeNode.mk nm rid ty ch))
    else
      match ch with
      | None => None
      | Some cs =>
          match updateEach (fun c => ImplApp.updateFound f c i) cs with
          | Some cs' => Some (TTreeNode.mk nm rid ty (Some cs'))
          | None => None
          end
      end.
Proof. reflexivity. Qed.

Lemma updateEach_none up cs :
  updateEach up cs = None <-> Forall (fun c => up c = None) cs.
Proof.
  induction cs as [|c cs IH]; simpl; [by split; [constructor|]|].
  destruct (up c) eqn:E.
  - split; [done|]. intros H. inversion H; congruence.
  - destruct (updateEach up cs).
    + split; [done|]. intros H. inversion H as [|? ? _ H']. by apply IH in H'.
    + split; [|done]. intros _. constructor; [done|]. by apply IH.
Qed.

Lemma updateEach_at up l1 c c' l2 :
  Forall (fun c => up c = None) l1 -> up c = Some c' ->
  updateEach up (l1 ++ c :: l2) = Some (l1 ++ c' :: l2).
Proof.
  intros H Hc. induction H as [|a l1 Ha _ IH]; simpl; [by rewrite Hc|].
  by rewrite Ha, IH.
Qed.

Lemma updateFound_none f t i :
  ImplApp.updateFound f t i = None <-> ImplApp.findNodeByIdMutable t i = None.
Proof.
  induction t as [nm rid ty|nm rid ty cs IH] using TTreeNode_nested_ind;
    rewrite updateFound_eq, findNodeByIdMutable_eq;
    case_bool_decide; try done.
  cbn [from_option id]. rewrite firstSome_none.
  destruct (updateEach _ cs) eqn:E.
  - split; [done|]. intros Hall. exfalso.
    assert (updateEach (fun c => ImplApp.updateFound f c i) cs = None);
      [|congruence].
    apply updateEach_none. rewrite Forall_forall in *.
    intros c Hc. apply IH; auto.
  - split; [|done]. intros _. apply updateEach_none in E.
    rewrite Forall_forall in *. intros c Hc. apply IH; auto.
Qed.

(** The write reaches the node that the search returns, and only it: the
    updated tree holds the new ids beside the old ones. *)
Lemma updateFound_some f extra t i x :
  (forall y, TTreeNode.id (f y) = TTreeNode.id y) ->
  (forall y, rawIds (f y) ≡ₚ rawIds y ++ extra) ->
  ImplApp.findNodeByIdMutable t i = Some x ->
  exists t', ImplApp.updateFound f t i = Some t'
             /\ ImplApp.findNodeByIdMutable t' i = Some (f x)
             /\ rawIds t' ≡ₚ rawIds t ++ extra.
Proof.
  intros Hid Hperm. revert x.
  induction t as [nm rid ty|nm rid ty cs IH] using TTreeNode_nested_ind;
    intros x; rewrite updateFound_eq, findNodeByIdMutable_eq.
  { case_bool_decide as E; [|done]. intros [= <-]. eexists. split; [done|].
    split; [|done].
    destruct (f _) as [nm' rid' ty' ch'] eqn:Ef.
    rewrite findNodeByIdMutable_eq.
    pose proof (Hid (TTreeNode.mk nm rid ty None)) as Hi. rewrite Ef in Hi.
    simpl in Hi. subst rid'. by rewrite bool_decide_eq_true_2. }
  case_bool_decide as E.
  { intros [= <-]. eexists. split; [done|]. split; [|done].
    destruct (f _) as [nm' rid' ty' ch'] eqn:Ef.
    rewrite findNodeByIdMutable_eq.
    pose proof (Hid (TTreeNode.mk nm rid ty (Some cs))) as Hi. rewrite Ef in Hi.
    simpl in Hi. subst rid'. by rewrite bool_decide_eq_true_2. }
  cbn [from_option id]. intros (l1 & c & l2 & -> & Hl1 & Hc)%firstSome_some.
  rewrite Forall_forall in IH.
  destruct (IH c) with (x := x) as (c' & Hup & Hfind & Hp); [|done|].
  { apply elem_of_app. right. left. }
  rewrite (updateEach_at _ l1 c c' l2); [|by eapply Forall_impl;
    [exact Hl1|intros a; apply updateFound_none]|done].
  eexists. split; [done|]. split.
  - rewrite findNodeByIdMutable_eq, bool_decide_eq_false_2 by done.
    cbn [from_option id]. by rewrite firstSome_at, Hfind.
  - rewrite !rawIds_unfold. cbn [TTreeNode.id TTreeNode.children from_option id].
    rewrite !flat_map_app. cbn [flat_map]. rewrite Hp.
    rewrite <- !app_comm_cons. constructor.
    rewrite <- !app_assoc. do 2 apply Permutation_app_head.
    apply Permutation_app_comm.
Qed.

(** ** The internal tree beside the raw tree *)

Lemma preorder_eq n : preorder n = preorder_sub (subtree n) (parent n).
Proof. reflexivity. Qed.

Lemma preorder_sub_unfold t p :
  preorder_sub t p
  = mkInternalTreeNode t p
    :: flat_map (fun c => preorder_sub c (Some (mkInternalTreeNode t p)))
         (default [] (sub_children t)).
Proof. by destruct t as [it d [cs|]]. Qed.

(** Every node of a built tree is itself built from its item. *)
Lemma built_node raw :
  forall d p n, n ∈ preorder_sub (buildSubtree raw d) p ->
    subtree n = buildSubtree (item n) (depth n).
Proof.
  induction raw as [nm i ty|nm i ty cs IH] using TTreeNode_nested_ind;
    intros d p n.
  { simpl. by intros ->%list_elem_of_singleton. }
  rewrite preorder_sub_unfold. intros [->|Hin]%elem_of_cons; [done|].
  apply flat_map_elem_of in Hin as (c & Hc & Hn).
  destruct cs as [|c0 cs0]; [by apply elem_of_nil in Hc|].
  cbn [buildSubtree sub_children from_option id] in Hc.
  apply list_elem_of_fmap in Hc as (r & -> & Hr).
  rewrite Forall_forall in IH. by eapply IH.
Qed.

Lemma built_items d p (l : list TTreeNode) :
  map (fun x => item (mkInternalTreeNode (buildSubtree x d) p)) l = l.
Proof.
  induction l as [|a l IHl]; simpl; [done|]. f_equal; [|done]. by destruct a.
Qed.

Lemma built_children data n :
  n ∈ preorder (buildInternalTree data None 0) ->
  map item (default [] (children n))
  = default [] (TTreeNode.children (item n)).
Proof.
  intros Hn. apply built_node in Hn.
  rewrite children_spec, Hn, map_map.
  destruct (item n) as [nm i ty [[|c cs]|]]; try done.
  cbn [buildSubtree sub_children from_option id TTreeNode.children].
  rewrite map_map. apply built_items.
Qed.

Lemma built_preorder data n :
  n ∈ preorder (buildInternalTree data None 0) ->
  map item (preorder n) = rawPreorder (item n).
Proof.
  intros Hn. apply built_node in Hn. rewrite preorder_eq, Hn.
  apply buildSubtree_items.
Qed.

Lemma built_ids data :
  map item_id (preorder (buildInternalTree data None 0)) = rawIds data.
Proof.
  unfold rawIds. rewrite <- (buildSubtree_items data 0 None).
  by rewrite map_map.
Qed.

Lemma ancestors_eq n :
  ancestors n = match parent n with Some p => p :: ancestors p | None => [] end.
Proof. by destruct n as [t [p|]]. Qed.

Lemma ancestors_trans a m :
  a ∈ m :: ancestors m -> forall b, b ∈ ancestors a -> b ∈ ancestors m.
Proof.
  induction m as [t|t p IH] using InternalTreeNode_chain_ind.
  - intros ->%list_elem_of_singleton. done.
  - rewrite (ancestors_eq (mkInternalTreeNode t (Some p))). cbn [parent].
    intros [->|Ha]%elem_of_cons b Hb.
    + by rewrite (ancestors_eq (mkInternalTreeNode t (Some p))) in Hb.
    + right. by apply (IH Ha).
Qed.

(** A node of the subtree below [t] has [t] on its parent chain. *)
Lemma in_subtree_chain t :
  forall p m, m ∈ preorder_sub t p ->
    mkInternalTreeNode t p ∈ m :: ancestors m.
Proof.
  induction t as [it d|it d cs IH] using Subtree_nested_ind; intros p m.
  { simpl. intros ->%list_elem_of_singleton. left. }
  rewrite preorder_sub_unfold. intros [->|Hin]%elem_of_cons; [left|].
  apply flat_map_elem_of in Hin as (c & Hc & Hm).
  rewrite Forall_forall in IH. specialize (IH c Hc _ _ Hm).
  right. apply (ancestors_trans _ _ IH).
  rewrite ancestors_eq. left.
Qed.

Lemma preorder_sub_trans t :
  forall p n m, n ∈ preorder_sub t p -> m ∈ preorder n -> m ∈ preorder_sub t p.
Proof.
  induction t as [it d|it d cs IH] using Subtree_nested_ind; intros p n m.
  { simpl. by intros ->%list_elem_of_singleton. }
  rewrite preorder_sub_unfold. intros [->|Hin]%elem_of_cons Hm.
  { by rewrite preorder_eq, preorder_sub_unfold in Hm. }
  right. apply flat_map_elem_of in Hin as (c & Hc & Hn).
  apply flat_map_elem_of. exists c. split; [done|].
  rewrite Forall_forall in IH. by eapply IH.
Qed.

Lemma unique_node root a b :
  uniqueIds root -> a ∈ preorder root -> b ∈ preorder root ->
  item_id a = item_id b -> a = b.
Proof.
  intros Hu Ha Hb E.
  pose proof (find_nodup_key item_id _ a Hu Ha) as H1.
  pose proof (find_nodup_key item_id _ b Hu Hb) as H2.
  rewrite E in H1. congruence.
Qed.

(** In a tree with unique ids, a node whose subtree holds the id of [tp]
    is on the parent chain of [tp]. *)
Lemma chain_blocks data tp y :
  let root := buildInternalTree data None 0 in
  uniqueIds root -> tp ∈ preorder root -> y ∈ preorder root ->
  item_id tp ∈ rawIds (item y) -> item_id y ∈ chainIds tp.
Proof.
  intros root Hu Htp Hy Hin.
  unfold rawIds in Hin. rewrite <- (built_preorder data y Hy), map_map in Hin.
  apply list_elem_of_fmap in Hin as (m & E & Hm).
  assert (m = tp) as ->.
  { apply (unique_node root); [done| |done|done].
    by apply (preorder_sub_trans _ _ y). }
  unfold chainIds. apply list_elem_of_fmap. exists y. split; [done|].
  destruct y as [t p]. by apply in_subtree_chain.
Qed.

Lemma find_map {A B} (g : A -> B) (P : B -> bool) l :
  List.find P (map g l) = g <$> List.find (fun a => P (g a)) l.
Proof.
  induction l as [|a l IH]; simpl; [done|]. by destruct (P (g a)).
Qed.

(** The search of the owner on the raw tree and the search of the
    component on the internal tree find the same node. *)
Lemma findNodeById_raw data i :
  item <$> findNodeById (buildInternalTree data None 0) i
  = ImplApp.findNodeByIdMutable data i.
Proof.
  rewrite findNodeById_find, findNodeByIdMutable_find.
  rewrite <- (buildSubtree_items data 0 None), find_map. done.
Qed.

(** ** [splice] *)

Lemma spliceInsert_map {A B} (g : A -> B) k new l :
  map g (spliceInsert k new l) = spliceInsert k (map g new) (map g l).
Proof.
  unfold spliceInsert. rewrite length_map, !map_app.
  by rewrite <- fmap_take, <- fmap_drop.
Qed.

Lemma spliceInsert_perm {A} k (new l : list A) :
  spliceInsert k new l ≡ₚ l ++ new.
Proof.
  unfold spliceInsert. set (n := Z.to_nat _).
  rewrite <- (take_drop n l) at 3. rewrite <- app_assoc.
  apply Permutation_app_head, Permutation_app_comm.
Qed.

Lemma spliceInsert_in_range {A} k (new l : list A) :
  0 <= k <= Z.of_nat (length l) ->
  spliceInsert k new l = take (Z.to_nat k) l ++ new ++ drop (Z.to_nat k) l.
Proof.
  intros Hk. unfold spliceInsert.
  destruct (k <? 0) eqn:E; [lia|]. by rewrite Z.min_l by lia.
Qed.

Lemma insertChildren_id k new y :
  TTreeNode.id (ImplApp.insertChildren k new y) = TTreeNode.id y.
Proof. reflexivity. Qed.

Lemma flat_map_perm {A B} (f : A -> list B) l1 l2 :
  l1 ≡ₚ l2 -> flat_map f l1 ≡ₚ flat_map f l2.
Proof.
  induction 1; simpl; [done| | |].
  - by apply Permutation_app_head.
  - rewrite !app_assoc. apply Permutation_app_tail, Permutation_app_comm.
  - etrans; eauto.
Qed.

Lemma insertChildren_ids k new y :
  rawIds (ImplApp.insertChildren k new y)
  ≡ₚ rawIds y ++ flat_map rawIds new.
Proof.
  rewrite (rawIds_unfold y), (rawIds_unfold (ImplApp.insertChildren k new y)).
  cbn [ImplApp.insertChildren TTreeNode.id TTreeNode.children from_option id].
  rewrite <- app_comm_cons. constructor.
  rewrite (flat_map_perm _ _ _ (spliceInsert_perm k new _)).
  by rewrite flat_map_app.
Qed.

(** ** From the payload to the next tree *)

Lemma draggedNodesOf_elem flat ids v :
  v ∈ draggedNodesOf flat ids <->
  exists x, x ∈ flat /\ node x = v /\ item_id v ∈ ids
            /\ List.find (fun y => bool_decide (entry_id y = item_id v)) flat
               = Some x.
Proof.
  unfold draggedNodesOf. rewrite list_elem_of_omap. split.
  - intros (i & Hi & Hf).
    destruct (List.find _ flat) as [x|] eqn:E; [|done].
    injection Hf as <-. pose proof E as E'.
    apply find_elem_of in E as [Hx Hid]. apply bool_decide_eq_true in Hid.
    subst i. by exists x.
  - intros (x & Hx & <- & Hi & Hf). exists (item_id (node x)).
    split; [done|]. by rewrite Hf.
Qed.

Lemma validNodesOf_elem tp flat ids v :
  v ∈ validNodesOf tp (draggedNodesOf flat ids) ->
  (exists x, x ∈ flat /\ node x = v) /\ item_id v ∈ ids
  /\ item_id v ∉ chainIds tp.
Proof.
  unfold validNodesOf. intros [Hd Hv]%filter_elem_of.
  apply draggedNodesOf_elem in Hd as (x & Hx & <- & Hi & _).
  split; [by exists x|]. split; [done|].
  apply andb_true_iff in Hv as [_ Hv]. apply negb_true_iff in Hv.
  intros Hc%hasAncestor_chain. congruence.
Qed.

Lemma filter_map_ids {A} (key : A -> string) (P : string -> bool) l :
  map key (List.filter (fun a => P (key a)) l) = List.filter P (map key l).
Proof.
  induction l as [|a l IH]; simpl; [done|].
  destruct (P (key a)); simpl; by rewrite IH.
Qed.

Lemma filter_items_ids V l :
  map TTreeNode.id
    (List.filter
       (fun a => negb (bool_decide
                         (TTreeNode.id a ∈ map TTreeNode.id (map item V))))
       (map item l))
  = map TTreeNode.id (map item (List.filter (notDragged V) l)).
Proof.
  rewrite (map_map item TTreeNode.id V).
  change (map (fun x => TTreeNode.id (item x)) V) with (map item_id V).
  induction l as [|a l IHl]; simpl; [done|].
  unfold notDragged at 1. change (TTreeNode.id (item a)) with (item_id a).
  destruct (negb _); simpl; by rewrite IHl.
Qed.

(** What the owner finds after the removals: the target parent, with the
    children that the payload lists. *)
Lemma removeAll_target data tp (V : list InternalTreeNode) :
  let root := buildInternalTree data None 0 in
  uniqueIds root -> tp ∈ preorder root ->
  (forall v, v ∈ V -> v ∈ preorder root /\ item_id v ∉ chainIds tp) ->
  exists tp',
    ImplApp.findNodeByIdMutable (ImplApp.removeAll (map item V) data)
      (item_id tp) = Some tp'
    /\ TTreeNode.id tp' = item_id tp
    /\ map TTreeNode.id (default [] (TTreeNode.children tp'))
       = map TTreeNode.id
           (map item (List.filter (notDragged V) (default [] (children tp)))).
Proof.
  intros root Hu Htp HV. subst root.
  set (root := buildInternalTree data None 0) in *.
  assert (Hn : NoDup (rawIds data)) by by rewrite <- built_ids.
  rewrite (removeAll_prune _ _ Hn).
  set (I := map TTreeNode.id (map item V)).
  assert (Hfind : ImplApp.findNodeByIdMutable data (item_id tp) = Some (item tp)).
  { rewrite <- findNodeById_raw. fold root.
    by rewrite (findNodeById_unique root tp Hu Htp). }
  exists (prune I (item tp)). split; [|split].
  - apply findNodeByIdMutable_prune; [done|].
    intros y Hy HyI Hin.
    apply rawPreorder_tail in Hy.
    rewrite <- (buildSubtree_items data 0 None) in Hy.
    apply list_elem_of_fmap in Hy as (ny & -> & Hny).
    unfold I in HyI. rewrite map_map in HyI.
    apply list_elem_of_fmap in HyI as (v & Ev & Hv).
    destruct (HV v Hv) as [_ Hclean]. apply Hclean.
    change (TTreeNode.id (item v)) with (item_id v) in Ev.
    rewrite <- Ev. by apply (chain_blocks data tp ny).
  - apply prune_id.
  - rewrite prune_children.
    pose proof (built_children data tp Htp) as Hb.
    destruct (TTreeNode.children (item tp)) as [rcs|] eqn:Ech;
      cbn [from_option id fmap option_fmap option_map] in *.
    + rewrite <- Hb.
      pose proof (filter_keeps_ids TTreeNode.id (prune I)
                    (fun i => negb (bool_decide (i ∈ I)))
                    (map item (default [] (children tp))) (prune_id I)) as E.
      cbn beta in E. rewrite E, map_map.
      erewrite map_ext; [|intros a; apply prune_id].
      exact (filter_items_ids V _).
    + apply map_eq_nil in Hb. by rewrite Hb.
Qed.

Lemma handleDragEnd_target data ev s payload :
  let root := buildInternalTree data None 0 in
  uniqueIds root ->
  (handleDragEnd root ev s).2 = Some payload ->
  exists tp V,
    tp ∈ preorder root
    /\ V = validNodesOf tp
             (draggedNodesOf (useSelectableItems root (collapsed s))
                (draggingIds s))
    /\ (forall v, v ∈ V -> v ∈ descendants root /\ item_id v ∉ chainIds tp)
    /\ payload_items payload = map item V
    /\ payload_parent payload = item tp
    /\ payload_children payload
       = map item (List.filter (notDragged V) (default [] (children tp))).
Proof.
  intros root Hu Hp.
  apply handleDragEnd_payload in Hp
    as (pid & childIdx & tp & _ & _ & Hfind & _ & ->).
  apply findNodeById_found in Hfind as [Htp _].
  eexists tp, _. split; [done|]. split; [reflexivity|]. split.
  { intros v Hv. apply validNodesOf_elem in Hv as ((x & Hx & <-) & _ & Hc).
    split; [|done]. by apply flat_nodes_descendants in Hx. }
  cbn [payload_items payload_parent payload_children].
  rewrite fold_removeDragged_closed by by apply (children_nodup root).
  done.
Qed.

(** X7.  When the owner applies a payload that [Tree] emitted for its
    tree (ids unique), the target parent is found in the next tree and the
    ids of its children are the ids of the payload's [children] with the
    ids of the items spliced in at [insertAt]; with [insertAt] within the
    child list this is: the first [insertAt] children, the items in order,
    the remaining children. *)
Theorem drop_lands_at_target (data : TTreeNode) (ev : DragEndEvent)
    (s : TreeStore) (payload : DragEndPayload) :
  let root := buildInternalTree data None 0 in
  let next := ImplApp.handleDragEnd payload data in
  let ids := map TTreeNode.id in
  uniqueIds root ->
  (handleDragEnd root ev s).2 = Some payload ->
  exists tp',
    ImplApp.findNodeByIdMutable next (TTreeNode.id (payload_parent payload))
    = Some tp'
    /\ ids (default [] (TTreeNode.children tp'))
       = spliceInsert (insertAt payload) (ids (payload_items payload))
           (ids (payload_children payload))
    /\ (0 <= insertAt payload <= Z.of_nat (length (payload_children payload)) ->
        ids (default [] (TTreeNode.children tp'))
        = take (Z.to_nat (insertAt payload)) (ids (payload_children payload))
          ++ ids (payload_items payload)
          ++ drop (Z.to_nat (insertAt payload)) (ids (payload_children payload))).
Proof.
  intros root next ids Hu Hp.
  destruct (handleDragEnd_target data ev s payload Hu Hp)
    as (tp & V & Htp & _ & HV & Hitems & Hparent & Hchildren).
  assert (HV' : forall v, v ∈ V -> v ∈ preorder root /\ item_id v ∉ chainIds tp).
  { intros v Hv. destruct (HV v Hv). split; [|done].
    by apply descendants_preorder. }
  destruct (removeAll_target data tp V Hu Htp HV')
    as (tp0 & Hfind & Hid & Hcs).
  subst next. unfold ImplApp.handleDragEnd.
  rewrite Hitems, Hparent.
  change (TTreeNode.id (item tp)) with (item_id tp).
  destruct (updateFound_some
              (ImplApp.insertChildren (insertAt payload) (map item V))
              (flat_map rawIds (map item V)) _ _ _
              (insertChildren_id _ _) (insertChildren_ids _ _) Hfind)
    as (t' & -> & Hfind' & _).
  eexists. split; [exact Hfind'|].
  assert (E : ids (default [] (TTreeNode.children
                      (ImplApp.insertChildren (insertAt payload) (map item V) tp0)))
              = spliceInsert (insertAt payload) (ids (map item V))
                  (ids (payload_children payload))).
  { cbn [ImplApp.insertChildren TTreeNode.children from_option id].
    unfold ids. by rewrite spliceInsert_map, Hcs, Hchildren. }
  split; [exact E|]. intros Hk. rewrite E.
  apply spliceInsert_in_range. unfold ids. by rewrite length_map.
Qed.

Lemma drop_lands_at_target_witness :
  exists tp',
    ImplApp.findNodeByIdMutable (ImplApp.handleDragEnd payloadBintoA exampleData)
      (TTreeNode.id (payload_parent payloadBintoA)) = Some tp'
    /\ map TTreeNode.id (default [] (TTreeNode.children tp'))
       = spliceInsert (insertAt payloadBintoA)
           (map TTreeNode.id (payload_items payloadBintoA))
           (map TTreeNode.id (payload_children payloadBintoA)).
Proof.
  destruct (drop_lands_at_target exampleData dropEvent holdingB payloadBintoA)
    as (tp' & H1 & H2 & _).
  - apply (bool_decide_unpack _). vm_compute. exact I.
  - vm_compute. reflexivity.
  - exists tp'. split; [exact H1|exact H2].
Defined.

(** ** Nothing is lost, nothing is doubled *)

Lemma removedRoots_eq I nm rid ty cs :
  removedRoots I (TTreeNode.mk nm rid ty (Some cs))
  = flat_map (fun c => if bool_decide (TTreeNode.id c ∈ I) then [c]
                       else removedRoots I c) cs.
Proof. reflexivity. Qed.

Lemma prune_partition I t :
  rawIds t ≡ₚ rawIds (prune I t) ++ flat_map rawIds (removedRoots I t).
Proof.
  induction t as [nm rid ty|nm rid ty cs IH] using TTreeNode_nested_ind.
  { done. }
  rewrite removedRoots_eq, !rawIds_unfold.
  cbn [prune TTreeNode.id TTreeNode.children from_option id].
  rewrite <- app_comm_cons. constructor.
  induction IH as [|c cs Hc _ IHcs]; cbn [map List.filter flat_map]; [done|].
  rewrite prune_id. destruct (bool_decide (TTreeNode.id c ∈ I)); cbn [negb].
  - cbn [flat_map app]. rewrite IHcs. apply Permutation_app_swap_app.
  - cbn [flat_map]. rewrite Hc, IHcs, flat_map_app, <- !app_assoc.
    apply Permutation_app_head.
    rewrite !app_assoc. apply Permutation_app_tail, Permutation_app_comm.
Qed.

Lemma removedRoots_sublist I t :
  sublist (removedRoots I t) (tail (rawPreorder t)).
Proof.
  induction t as [nm rid ty|nm rid ty cs IH] using TTreeNode_nested_ind;
    [done|].
  rewrite removedRoots_eq, rawPreorder_unfold.
  cbn [tail TTreeNode.children from_option id].
  induction IH as [|c cs Hc _ IHcs]; cbn [flat_map]; [done|].
  apply sublist_app; [|done]. rewrite (rawPreorder_unfold c) in Hc |- *.
  destruct (bool_decide _).
  - apply sublist_skip, sublist_nil_l.
  - by apply sublist_cons.
Qed.

Lemma removedRoots_named I t x :
  x ∈ removedRoots I t -> TTreeNode.id x ∈ I.
Proof.
  induction t as [nm rid ty|nm rid ty cs IH] using TTreeNode_nested_ind.
  { by intros ?%elem_of_nil. }
  rewrite removedRoots_eq. intros (c & Hc & Hx)%flat_map_elem_of.
  rewrite Forall_forall in IH.
  case_bool_decide as E; [by apply list_elem_of_singleton in Hx as ->|].
  by apply (IH c).
Qed.

(** A named node that lies in no other named node's subtree is one of the
    roots that are cut out. *)
Lemma removedRoots_intro I t x :
  NoDup (rawIds t) ->
  x ∈ tail (rawPreorder t) -> TTreeNode.id x ∈ I ->
  (forall y, y ∈ tail (rawPreorder t) -> TTreeNode.id y ∈ I ->
             TTreeNode.id y <> TTreeNode.id x -> TTreeNode.id x ∉ rawIds y) ->
  x ∈ removedRoots I t.
Proof.
  induction t as [nm rid ty|nm rid ty cs IH] using TTreeNode_nested_ind.
  { by intros _ ?%elem_of_nil. }
  rewrite removedRoots_eq, (rawPreorder_unfold (TTreeNode.mk _ _ _ _)).
  cbn [tail TTreeNode.children from_option id].
  intros Hn (c & Hc & Hx)%flat_map_elem_of HxI Hfree.
  apply flat_map_elem_of. exists c. split; [done|].
  assert (Hcin : c ∈ flat_map rawPreorder cs).
  { apply flat_map_elem_of. exists c. split; [done|].
    rewrite rawPreorder_unfold. left. }
  assert (Hnc : NoDup (rawIds c)).
  { by apply (NoDup_rawIds_child (TTreeNode.mk nm rid ty (Some cs)) cs). }
  assert (Hself : TTreeNode.id c = TTreeNode.id x -> c = x).
  { intros E. rewrite rawPreorder_unfold in Hx.
    apply elem_of_cons in Hx as [->|Hx]; [done|]. exfalso.
    rewrite rawIds_unfold in Hnc. apply NoDup_cons in Hnc as [Hnot _].
    apply Hnot. rewrite E.
    apply flat_map_elem_of in Hx as (c' & Hc' & Hx).
    apply flat_map_elem_of. exists c'. split; [done|].
    apply list_elem_of_fmap. by exists x. }
  case_bool_decide as E.
  - destruct (decide (TTreeNode.id c = TTreeNode.id x)) as [Eq|Hne].
    { rewrite (Hself Eq). left. }
    exfalso. apply (Hfree c Hcin E Hne).
    apply list_elem_of_fmap. by exists x.
  - rewrite Forall_forall in IH. apply (IH c Hc); [done| |done|].
    + rewrite (rawPreorder_unfold c) in Hx |- *.
      by apply elem_of_cons in Hx as [->|Hx].
    + intros y Hy. apply Hfree. apply flat_map_elem_of. exists c.
      split; [done|]. by apply rawPreorder_tail.
Qed.

Lemma draggedNodesOf_ids flat ids :
  map item_id (draggedNodesOf flat ids)
  = List.filter (fun i => bool_decide (i ∈ map entry_id flat)) ids.
Proof.
  unfold draggedNodesOf. induction ids as [|i ids IH]; [done|].
  cbn [omap list_omap List.filter].
  destruct (List.find _ flat) as [x|] eqn:E; cbn [fmap option_fmap option_map].
  - apply find_elem_of in E as [Hx Hid]. apply bool_decide_eq_true in Hid.
    rewrite bool_decide_eq_true_2.
    + cbn [map]. f_equal; [done|exact IH].
    + apply list_elem_of_fmap. by exists x.
  - rewrite bool_decide_eq_false_2; [exact IH|].
    intros (x & Ex & Hx)%list_elem_of_fmap.
    apply find_none_all in E. rewrite Forall_forall in E.
    specialize (E x Hx). apply bool_decide_eq_false in E. congruence.
Qed.

Lemma validNodesOf_nodup tp flat ids :
  NoDup ids -> NoDup (map item_id (validNodesOf tp (draggedNodesOf flat ids))).
Proof.
  intros Hn. eapply sublist_NoDup.
  2:{ apply fmap_sublist, filter_sublist. }
  rewrite draggedNodesOf_ids. eapply sublist_NoDup; [exact Hn|].
  apply filter_sublist.
Qed.

Lemma unique_raw t x y :
  NoDup (rawIds t) -> x ∈ rawPreorder t -> y ∈ rawPreorder t ->
  TTreeNode.id x = TTreeNode.id y -> x = y.
Proof.
  intros Hu Hx Hy E.
  pose proof (find_nodup_key TTreeNode.id _ x Hu Hx) as H1.
  pose proof (find_nodup_key TTreeNode.id _ y Hu Hy) as H2.
  rewrite E in H1. congruence.
Qed.

Lemma descendants_items data :
  map item (descendants (buildInternalTree data None 0))
  = tail (rawPreorder data).
Proof.
  unfold descendants. rewrite <- (buildSubtree_items data 0 None).
  unfold preorder. simpl. by destruct (preorder_sub _ _).
Qed.

(** The ids of the next tree are those of the pruned tree and of the
    items, whatever the items are. *)
Lemma handleDragEnd_ids data ev s payload :
  let root := buildInternalTree data None 0 in
  uniqueIds root ->
  (handleDragEnd root ev s).2 = Some payload ->
  rawIds (ImplApp.handleDragEnd payload data)
  ≡ₚ rawIds (prune (map TTreeNode.id (payload_items payload)) data)
     ++ flat_map rawIds (payload_items payload).
Proof.
  intros root Hu Hp.
  destruct (handleDragEnd_target data ev s payload Hu Hp)
    as (tp & V & Htp & _ & HV & Hitems & Hparent & Hchildren).
  assert (HV' : forall v, v ∈ V -> v ∈ preorder root /\ item_id v ∉ chainIds tp).
  { intros v Hv. destruct (HV v Hv). split; [|done].
    by apply descendants_preorder. }
  destruct (removeAll_target data tp V Hu Htp HV')
    as (tp0 & Hfind & Hid & Hcs).
  unfold ImplApp.handleDragEnd. rewrite Hitems, Hparent.
  change (TTreeNode.id (item tp)) with (item_id tp).
  destruct (updateFound_some
              (ImplApp.insertChildren (insertAt payload) (map item V))
              (flat_map rawIds (map item V)) _ _ _
              (insertChildren_id _ _) (insertChildren_ids _ _) Hfind)
    as (t' & -> & _ & Hperm).
  rewrite Hperm. rewrite removeAll_prune; [done|].
  by rewrite <- built_ids.
Qed.

(** X8.  A move neither loses nor doubles a node: when the dragged ids are
    pairwise distinct and no payload item lies inside another payload item,
    the next tree has the ids of the previous tree, each once, so its ids
    are unique again. *)
Theorem drop_conserves_nodes (data : TTreeNode) (ev : DragEndEvent)
    (s : TreeStore) (payload : DragEndPayload) :
  let root := buildInternalTree data None 0 in
  let next := ImplApp.handleDragEnd payload data in
  uniqueIds root ->
  NoDup (draggingIds s) ->
  (handleDragEnd root ev s).2 = Some payload ->
  (forall x y, x ∈ payload_items payload -> y ∈ payload_items payload ->
               TTreeNode.id x <> TTreeNode.id y ->
               TTreeNode.id y ∉ rawIds x) ->
  rawIds next ≡ₚ rawIds data
  /\ uniqueIds (buildInternalTree next None 0).
Proof.
  intros root next Hu Hnd Hp Hflat.
  assert (Hn : NoDup (rawIds data)) by by rewrite <- built_ids.
  assert (Hperm : rawIds next ≡ₚ rawIds data).
  { unfold next. etrans; [exact (handleDragEnd_ids data ev s payload Hu Hp)|].
    symmetry.
    etrans;
      [exact (prune_partition (map TTreeNode.id (payload_items payload)) data)|].
    apply Permutation_app_head, flat_map_perm.
    destruct (handleDragEnd_target data ev s payload Hu Hp)
      as (tp & V & Htp & HVeq & HV & Hitems & _ & _).
    assert (Hraw : forall x, x ∈ payload_items payload ->
                             x ∈ tail (rawPreorder data)).
    { intros x Hx. rewrite Hitems in Hx.
      apply list_elem_of_fmap in Hx as (v & -> & Hv).
      rewrite <- descendants_items. apply list_elem_of_fmap.
      exists v. split; [done|]. by apply HV. }
    apply NoDup_Permutation.
    - eapply sublist_NoDup; [|apply removedRoots_sublist].
      eapply sublist_NoDup; [|apply (sublist_drop _ 1)].
      eapply NoDup_fmap_1. exact Hn.
    - rewrite Hitems. apply (NoDup_fmap_1 TTreeNode.id). rewrite map_map.
      rewrite HVeq. by apply validNodesOf_nodup.
    - intros x. split.
      + intros Hx. pose proof (removedRoots_named _ _ _ Hx) as HxI.
        apply list_elem_of_fmap in HxI as (y & E & Hy).
        assert (x = y) as ->; [|done].
        apply (unique_raw data); [done| | |done].
        * eapply rawPreorder_tail, elem_of_sublist;
            [exact Hx|apply removedRoots_sublist].
        * by apply rawPreorder_tail, Hraw.
      + intros Hx. apply removedRoots_intro; [done|by apply Hraw| |].
        { apply list_elem_of_fmap. by exists x. }
        intros y Hy HyI Hne.
        apply list_elem_of_fmap in HyI as (y' & E & Hy').
        assert (y = y') as ->.
        { apply (unique_raw data); [done| | |done].
          - by apply rawPreorder_tail.
          - by apply rawPreorder_tail, Hraw. }
        by apply Hflat. }
  split; [done|]. unfold uniqueIds. rewrite built_ids.
  by rewrite Hperm.
Qed.

Lemma drop_conserves_nodes_witness :
  rawIds (ImplApp.handleDragEnd payloadBintoA exampleData) ≡ₚ rawIds exampleData
  /\ uniqueIds
       (buildInternalTree (ImplApp.handleDragEnd payloadBintoA exampleData)
          None 0).
Proof.
  apply (drop_conserves_nodes exampleData dropEvent holdingB payloadBintoA).
  - apply (bool_decide_unpack _). vm_compute. exact I.
  - apply (bool_decide_unpack _). vm_compute. exact I.
  - vm_compute. reflexivity.
  - intros x y Hx%list_elem_of_singleton Hy%list_elem_of_singleton.
    by subst.
Defined.

Lemma count_occ_elem (l : list string) j :
  j ∈ l -> (1 <= count_occ String.string_dec l j)%nat.
Proof.
  intros H%list_elem_of_In. apply (count_occ_In String.string_dec) in H. lia.
Qed.

Lemma count_occ_two_parts (l : list TTreeNode) x y j :
  x ∈ l -> y ∈ l -> TTreeNode.id x <> TTreeNode.id y ->
  j ∈ rawIds x -> j ∈ rawIds y ->
  (2 <= count_occ String.string_dec (flat_map rawIds l) j)%nat.
Proof.
  intros Hx Hy Hne Hjx Hjy.
  induction l as [|a l IH]; [by apply elem_of_nil in Hx|].
  cbn [flat_map]. rewrite count_occ_app.
  apply elem_of_cons in Hx as [->|Hx], Hy as [->|Hy].
  - done.
  - pose proof (count_occ_elem _ _ Hjx).
    assert (Hj : j ∈ flat_map rawIds l)
      by (apply flat_map_elem_of; by exists y).
    pose proof (count_occ_elem _ _ Hj). lia.
  - pose proof (count_occ_elem _ _ Hjy).
    assert (Hj : j ∈ flat_map rawIds l)
      by (apply flat_map_elem_of; by exists x).
    pose proof (count_occ_elem _ _ Hj). lia.
  - specialize (IH Hx Hy). lia.
Qed.

(** X9.  When a payload item lies inside another payload item (a container
    and one of its visible descendants dragged together), the id of the
    inner item occurs at least twice in the next tree: the owner inserts
    the container with its subtree intact and the inner item once more. *)
Theorem nested_drag_doubles (data : TTreeNode) (ev : DragEndEvent)
    (s : TreeStore) (payload : DragEndPayload) (x y : TTreeNode) :
  let root := buildInternalTree data None 0 in
  let next := ImplApp.handleDragEnd payload data in
  uniqueIds root ->
  (handleDragEnd root ev s).2 = Some payload ->
  x ∈ payload_items payload -> y ∈ payload_items payload ->
  TTreeNode.id x <> TTreeNode.id y ->
  TTreeNode.id y ∈ rawIds x ->
  (2 <= count_occ String.string_dec (rawIds next) (TTreeNode.id y))%nat.
Proof.
  intros root next Hu Hp Hx Hy Hne Hin.
  pose proof (handleDragEnd_ids data ev s payload Hu Hp) as Hperm.
  fold next in Hperm.
  rewrite (proj1 (Permutation_count_occ String.string_dec _ _) Hperm).
  rewrite count_occ_app.
  pose proof (count_occ_two_parts (payload_items payload) x y (TTreeNode.id y)
                Hx Hy Hne Hin (rawIds_self y)).
  lia.
Qed.

Lemma nested_drag_doubles_witness :
  (handleDragEnd exampleRoot dropEvent nestedDrag).2 = Some payloadNested
  /\ (2 <= count_occ String.string_dec
            (rawIds (ImplApp.handleDragEnd payloadNested exampleData))
            (TTreeNode.id (fileNode "A1")))%nat.
Proof.
  split; [vm_compute; reflexivity|].
  apply (nested_drag_doubles exampleData dropEvent nestedDrag payloadNested
           (dirNode "A" [fileNode "A1"; fileNode "A2"]) (fileNode "A1")).
  - apply (bool_decide_unpack _). vm_compute. exact I.
  - vm_compute. reflexivity.
  - apply list_elem_of_here.
  - apply list_elem_of_further, list_elem_of_here.
  - apply (bool_decide_unpack _). vm_compute. exact I.
  - apply (bool_decide_unpack _). vm_compute. exact I.
Defined.

Example nested_drag_result :
  rawIds (ImplApp.handleDragEnd payloadNested exampleData)
  = ["root"; "B"; "A"; "A1"; "A2"; "A1"]%string.
Proof. vm_compute. reflexivity. Qed.

(** ** The helpers of utils.ts and ImplApp.tsx, one by one *)

Lemma prune_removes I t j : j ∈ I -> j ∉ tail (rawIds (prune I t)).
Proof.
  intros Hj.
  induction t as [nm rid ty|nm rid ty cs IH] using TTreeNode_nested_ind.
  { by intros ?%elem_of_nil. }
  rewrite rawIds_unfold.
  cbn [prune tail TTreeNode.children from_option id].
  intros (c & Hc & Hin)%flat_map_elem_of.
  apply filter_elem_of in Hc as [Hc Hkeep].
  apply list_elem_of_fmap in Hc as (c0 & -> & Hc0).
  rewrite prune_id in Hkeep. apply negb_true_iff in Hkeep.
  apply bool_decide_eq_false in Hkeep.
  rewrite rawIds_unfold in Hin. apply elem_of_cons in Hin as [E|Hin].
  - rewrite prune_id in E. by subst j.
  - rewrite Forall_forall in IH. apply (IH c0 Hc0).
    by rewrite rawIds_unfold.
Qed.

(** X10.  [removeNodeFromTree] returns true exactly when the id names a
    node below the root, and leaves the tree as it was when it returns
    false.  With unique ids the tree after the call is the tree without the
    node named [i] and its subtree: the id no longer occurs below the root
    and no id is added.  The copy in utils.ts differs from the copy in
    ImplApp.tsx only in refusing the root's own id. *)
Theorem removeNodeFromTree_cuts (t : TTreeNode) (i : string) :
  let r := ImplApp.removeNodeFromTree t i in
  (snd r = true <-> i ∈ tail (rawIds t))
  /\ (snd r = false -> fst r = t)
  /\ (NoDup (rawIds t) ->
      fst r = prune [i] t /\ (i ∉ tail (rawIds (fst r)))
      /\ sublist (rawIds (fst r)) (rawIds t))
  /\ removeNodeFromTree t i
     = if bool_decide (TTreeNode.id t = i) then (t, false) else r.
Proof.
  intros r. destruct (removeNodeFromTree_result t i) as [Hb Hu].
  split; [|split; [exact Hu|split]].
  - subst r. rewrite Hb. apply bool_decide_eq_true.
  - intros Hn. subst r. rewrite (removeNodeFromTree_prune t i Hn). cbn [fst].
    split; [done|]. split; [|apply rawIds_prune_sublist].
    apply prune_removes. left.
  - apply removeNodeFromTree_copies.
Qed.

Lemma findParentOf_eq nm rid ty cs i :
  findParentOf (TTreeNode.mk nm rid ty (Some cs)) i
  = let idx :=
      findIndex (fun child => bool_decide (TTreeNode.id child = i)) cs in
    if negb (idx =? -1) then Some (TTreeNode.mk nm rid ty (Some cs), idx)
    else firstSome (fun c => findParentOf c i) cs.
Proof. reflexivity. Qed.

Lemma findParentOf_none t i :
  findParentOf t i = None <-> i ∉ tail (rawIds t).
Proof.
  induction t as [nm rid ty|nm rid ty cs IH] using TTreeNode_nested_ind.
  { split; [by intros _ ?%elem_of_nil|done]. }
  rewrite findParentOf_eq, tail_rawIds_node. cbn zeta.
  destruct (findIndex _ cs =? -1) eqn:E; cbn [negb].
  - apply Z.eqb_eq, findIndex_children_ids in E.
    rewrite firstSome_none, Forall_forall. rewrite Forall_forall in IH.
    split.
    + intros Hall (c & Hc & Hin)%flat_map_elem_of.
      apply (IH c Hc) in Hall; [|done].
      rewrite rawIds_unfold in Hin, Hall.
      apply elem_of_cons in Hin as [->|Hin]; [|done].
      apply E, list_elem_of_fmap. by exists c.
    + intros Hnot c Hc. apply (IH c Hc). intros Hin. apply Hnot.
      apply flat_map_elem_of. exists c. split; [done|by apply rawIds_tail].
  - split; [done|]. intros Hnot. exfalso. apply Hnot, children_ids_sub.
    apply Z.eqb_neq in E.
    destruct (decide (i ∈ map TTreeNode.id cs)) as [|Hn]; [done|].
    by apply findIndex_children_ids in Hn.
Qed.

Lemma findParentOf_some t i p k :
  findParentOf t i = Some (p, k) ->
  p ∈ rawPreorder t
  /\ k = findIndex (fun child => bool_decide (TTreeNode.id child = i))
           (default [] (TTreeNode.children p))
  /\ k <> -1.
Proof.
  induction t as [nm rid ty|nm rid ty cs IH] using TTreeNode_nested_ind;
    [done|].
  rewrite findParentOf_eq. cbn zeta.
  destruct (findIndex _ cs =? -1) eqn:E; cbn [negb].
  - intros (l1 & c & l2 & -> & _ & Hc)%firstSome_some.
    rewrite Forall_forall in IH.
    destruct (IH c) as (Hp & Hk & Hne); [apply elem_of_app; right; left|done|].
    split; [|done]. rewrite rawPreorder_unfold. right.
    apply flat_map_elem_of. exists c. split; [|done].
    apply elem_of_app. right. left.
  - intros [= <- <-]. apply Z.eqb_neq in E. split; [|done].
    rewrite rawPreorder_unfold. left.
Qed.

Lemma findIndex_map {A B} (g : A -> B) (P : B -> bool) l :
  findIndex P (map g l) = findIndex (fun a => P (g a)) l.
Proof.
  induction l as [|a l IH]; simpl; [done|]. by rewrite IH.
Qed.

Lemma descendants_ids data :
  map item_id (descendants (buildInternalTree data None 0))
  = tail (rawIds data).
Proof.
  unfold rawIds, descendants, preorder.
  rewrite <- (buildSubtree_items data 0 None). cbn [buildInternalTree subtree parent].
  destruct (preorder_sub _ _); [done|]. cbn [tail map]. by rewrite map_map.
Qed.

(** X11.  With unique ids, [findParentOf] on the raw tree returns, for
    every node below the root, the item of the node's [parent] in the
    internal tree and the node's [getChildIndex]; for the root's own id it
    returns null. *)
Theorem findParentOf_agrees (data : TTreeNode) (n : InternalTreeNode) :
  let root := buildInternalTree data None 0 in
  uniqueIds root ->
  n ∈ descendants root ->
  exists q, parent n = Some q
            /\ findParentOf data (item_id n) = Some (item q, getChildIndex n)
            /\ findParentOf data (item_id root) = None.
Proof.
  intros root Hu Hn.
  assert (HnD : NoDup (rawIds data)) by by rewrite <- built_ids.
  destruct (descendants_parent root n Hn) as (q & Hq & Hqin & Hnq).
  exists q. split; [done|]. split.
  - destruct (findParentOf data (item_id n)) as [[p k]|] eqn:E.
    + apply findParentOf_some in E as (Hp & Hk & Hne).
      rewrite <- (buildSubtree_items data 0 None) in Hp.
      apply list_elem_of_fmap in Hp as (q' & -> & Hq').
      rewrite <- (built_children data q' Hq'), findIndex_map in Hk.
      change (fun a => bool_decide (TTreeNode.id (item a) = item_id n))
        with (fun a => bool_decide (item_id a = item_id n)) in Hk.
      destruct (findIndex_some _ _ _ (eq_sym Hk) Hne) as (m & Hm & Hid & _).
      apply bool_decide_eq_true in Hid.
      assert (Hmq : m ∈ default [] (children q'))
        by by eapply list_elem_of_lookup_2.
      assert (m = n) as ->.
      { apply (unique_node root); [done| |by apply descendants_preorder|done].
        apply (preorder_sub_trans (buildSubtree data 0) None q'); [done|].
        rewrite preorder_unfold. right. apply flat_map_elem_of. exists m.
        split; [done|]. rewrite preorder_unfold. left. }
      assert (q' = q) as ->.
      { rewrite children_spec in Hmq.
        apply list_elem_of_fmap in Hmq as (c & Ec & _). subst n.
        simpl in Hq. congruence. }
      do 2 f_equal. unfold getChildIndex. rewrite Hq. cbn zeta.
      rewrite <- Hk. by destruct (k =? -1) eqn:Ek; [apply Z.eqb_eq in Ek|].
    + exfalso. apply findParentOf_none in E. apply E.
      rewrite <- descendants_ids. apply list_elem_of_fmap. by exists n.
  - apply findParentOf_none. rewrite rawIds_unfold in HnD.
    apply NoDup_cons in HnD as [Hnot _].
    rewrite rawIds_unfold. cbn [tail].
    replace (item_id root) with (TTreeNode.id data); [done|].
    by destruct data.
Qed.

Lemma findParentOf_agrees_witness :
  exists q, parent (node entryA1) = Some q
            /\ findParentOf exampleData (item_id (node entryA1))
               = Some (item q, getChildIndex (node entryA1))
            /\ findParentOf exampleData (item_id exampleRoot) = None.
Proof.
  apply (findParentOf_agrees exampleData (node entryA1)).
  - apply (bool_decide_unpack _). vm_compute. exact I.
  - vm_compute. right. left.
Defined.

(** X12.  [findNodeByIdMutable] returns the first node in pre-order with
    the id, the root included; [findNodeById] on the internal tree built
    from the same data finds the node with that item; the [findNodeById] of
    the first implementation returns the first such node below the root,
    so it differs only in never returning the root; the search fails
    exactly when the id does not occur. *)
Theorem searches_agree (data : TTreeNode) (i : string) :
  let root := buildInternalTree data None 0 in
  ImplApp.findNodeByIdMutable data i
  = List.find (fun x => bool_decide (TTreeNode.id x = i)) (rawPreorder data)
  /\ item <$> findNodeById root i = ImplApp.findNodeByIdMutable data i
  /\ legacyFindNodeById data i
     = List.find (fun x => bool_decide (TTreeNode.id x = i))
         (tail (rawPreorder data))
  /\ ImplApp.findNodeByIdMutable data i
     = (if bool_decide (TTreeNode.id data = i) then Some data
        else legacyFindNodeById data i)
  /\ (ImplApp.findNodeByIdMutable data i = None <-> i ∉ rawIds data).
Proof.
  intros root.
  assert (Hleg : legacyFindNodeById data i
                 = List.find (fun x => bool_decide (TTreeNode.id x = i))
                     (tail (rawPreorder data))).
  { unfold legacyFindNodeById. rewrite rawPreorder_unfold. cbn [tail].
    destruct (TTreeNode.children data) as [cs|]; [|done].
    rewrite findInNodes_eq. cbn [from_option id].
    apply firstSome_find, Forall_forall. intros c _.
    apply findNodeByIdMutable_find. }
  split; [apply findNodeByIdMutable_find|].
  split; [apply findNodeById_raw|]. split; [exact Hleg|].
  split; [|apply findNodeByIdMutable_none].
  rewrite Hleg, findNodeByIdMutable_find, (rawPreorder_unfold data).
  cbn [List.find tail]. by case_bool_decide.
Qed.

Lemma getSelectedItems_dragged flat ids :
  getSelectedItems flat ids = map item (draggedNodesOf flat ids).
Proof.
  unfold getSelectedItems, draggedNodesOf.
  induction ids as [|i ids IH]; [done|]. cbn [omap list_omap].
  destruct (List.find _ flat); cbn [fmap option_fmap option_map map];
    by rewrite <- IH.
Qed.

(** X13.  [getSelectedItems] returns the items of the selected ids that
    are visible, in the order of the selected ids: its ids are the selected
    ids filtered by occurrence in the flat list, ids that are not visible
    are dropped without error, and the result is what [handleDragEnd]
    resolves the dragged ids to. *)
Theorem getSelectedItems_visible (flat : list SelectableTreeNode)
    (ids : list string) :
  map TTreeNode.id (getSelectedItems flat ids)
  = List.filter (fun i => bool_decide (i ∈ map entry_id flat)) ids
  /\ getSelectedItems flat ids = map item (draggedNodesOf flat ids)
  /\ (forall x, x ∈ getSelectedItems flat ids ->
        TTreeNode.id x ∈ ids /\ exists e, e ∈ flat /\ item (node e) = x)
  /\ (length (getSelectedItems flat ids) <= length ids)%nat.
Proof.
  pose proof (getSelectedItems_dragged flat ids) as E.
  split; [|split; [done|split]].
  - rewrite E, map_map. apply draggedNodesOf_ids.
  - rewrite E. intros x (v & -> & Hv)%list_elem_of_fmap.
    apply draggedNodesOf_elem in Hv as (e & He & <- & Hi & _).
    split; [done|]. by exists e.
  - rewrite <- (length_map TTreeNode.id), E, map_map.
    change (fun x => TTreeNode.id (item x)) with item_id.
    rewrite draggedNodesOf_ids. apply sublist_length, filter_sublist.
Qed.

(** X14.  The completion-time guard: in every payload that [handleDragEnd]
    emits for a tree with unique ids, the parent is a node of the tree,
    every item is a dragged node below the root, and the parent lies in the
    subtree of no item (an item is neither the parent nor one of its
    ancestors). *)
Theorem drop_never_into_itself (data : TTreeNode) (ev : DragEndEvent)
    (s : TreeStore) (payload : DragEndPayload) :
  let root := buildInternalTree data None 0 in
  uniqueIds root ->
  (handleDragEnd root ev s).2 = Some payload ->
  payload_parent payload ∈ rawPreorder data
  /\ forall x, x ∈ payload_items payload ->
       x ∈ tail (rawPreorder data)
       /\ TTreeNode.id x ∈ draggingIds s
       /\ TTreeNode.id (payload_parent payload) ∉ rawIds x.
Proof.
  intros root Hu Hp.
  destruct (handleDragEnd_target data ev s payload Hu Hp)
    as (tp & V & Htp & HVeq & HV & -> & -> & _).
  split.
  { rewrite <- (buildSubtree_items data 0 None). apply list_elem_of_fmap.
    by exists tp. }
  intros x (v & -> & Hv)%list_elem_of_fmap.
  destruct (HV v Hv) as [Hd Hc]. split; [|split].
  - rewrite <- descendants_items. apply list_elem_of_fmap. by exists v.
  - subst V. by apply validNodesOf_elem in Hv as (_ & Hi & _).
  - intros Hin. apply Hc.
    apply (chain_blocks data tp v); [done|done| |done].
    by apply descendants_preorder.
Qed.

Lemma drop_never_into_itself_witness :
  payload_parent payloadBintoA ∈ rawPreorder exampleData
  /\ forall x, x ∈ payload_items payloadBintoA ->
       x ∈ tail (rawPreorder exampleData)
       /\ TTreeNode.id x ∈ draggingIds holdingB
       /\ TTreeNode.id (payload_parent payloadBintoA) ∉ rawIds x.
Proof.
  apply (drop_never_into_itself exampleData dropEvent holdingB payloadBintoA).
  - apply (bool_decide_unpack _). vm_compute. exact I.
  - vm_compute. reflexivity.
Defined.

(** * What the user sees: drop line, ring, overlay *)

Lemma imap_markers {A B C} (g : A -> B) (h : Z -> C) (l : list A) :
  forall j,
    map snd (imap (fun k x => (g x, h (Z.of_nat k + j))) l)
    = map h (seqZ j (Z.of_nat (length l))).
Proof.
  induction l as [|a l IH]; intros j; [done|].
  rewrite imap_cons. cbn [map snd length].
  rewrite seqZ_cons by lia. cbn [map]. f_equal.
  replace (Z.pred (Z.of_nat (S (length l)))) with (Z.of_nat (length l)) by lia.
  rewrite <- (IH (Z.succ j)). f_equal. apply imap_ext. intros k x _. simpl.
  do 2 f_equal. lia.
Qed.

Lemma renderedMarkers_eq root s :
  renderedMarkers root s
  = map (fun k => TreeDropMarker k s)
      (seqZ 0 (Z.of_nat (length (useSelectableItems root (collapsed s))) + 1)).
Proof.
  unfold renderedMarkers, renderRows. cbn [fst snd].
  rewrite seqZ_cons by lia. cbn [map]. f_equal.
  rewrite (imap_markers (fun x => renderRow (node x) s)
             (fun k => TreeDropMarker k s) _ 1).
  do 2 f_equal. lia.
Qed.

Lemma TreeDropMarker_at s hp i d :
  hoveredParent s = hp -> hp_index hp = Some i -> dropIntent hp = Some d ->
  d <> inside ->
  forall k, TreeDropMarker k s
            = if bool_decide (k = i)
              then Some ((default 0 (parentDepth hp) + 1) * DEPTH_PADDING)
              else None.
Proof.
  intros <- Hi Hd Hne k. unfold TreeDropMarker. rewrite Hi, Hd.
  assert (isInside (Some d) = false) as -> by by destruct d.
  rewrite orb_false_r.
  repeat case_bool_decide; simpl; congruence.
Qed.

Lemma visible_depth data c overItem :
  let root := buildInternalTree data None 0 in
  overItem ∈ useSelectableItems root c ->
  exists p, parent (node overItem) = Some p
            /\ depth (node overItem) = depth p + 1.
Proof.
  intros root Hin. apply flat_nodes_descendants in Hin.
  destruct (descendants_parent _ _ Hin) as (q & Hq & _ & _).
  exists q. split; [done|].
  apply descendants_preorder in Hin.
  destruct (build_mirrors_raw data) as (_ & _ & _ & H).
  by destruct (H _ _ Hin Hq).
Qed.

(** X15.  What the user sees after an accepted move over a visible row.
    With intent above, exactly the marker at the row's flat index shows,
    with intent below exactly the marker after it, in both cases with a
    left margin equal to the left padding of the hovered row; with intent
    inside no marker shows at any index and the hovered row has the ring.
    The ring is on no row other than one named like the hovered one, and
    only with intent inside; the flat index written lies between 0 and the
    length of the flat sequence, so a rendered marker carries it. *)
Theorem hover_feedback (data : TTreeNode) (s : TreeStore) (ev : DragMoveEvent)
    (ov : Over) (activeRect : ClientRect) (overItem : SelectableTreeNode) :
  let root := buildInternalTree data None 0 in
  let flat := useSelectableItems root (collapsed s) in
  let t := dropTargetOf (collapsed s) overItem
             (ratioOf activeRect (over_rect ov)) in
  let s' := handleDragMove root ev s in
  let row := renderRow (node overItem) s' in
  over ev = Some ov ->
  translated (active ev) = Some activeRect ->
  over_id ov <> "__catch_zone_start__"%string ->
  over_id ov <> "__catch_zone_end__"%string ->
  List.find (fun x => bool_decide (entry_id x = over_id ov)) flat
  = Some overItem ->
  dropsIntoDragged t (draggingIds s) = false ->
  (target_dropIntent t = above ->
     forall k, TreeDropMarker k s'
               = if bool_decide (k = index overItem)
                 then Some (paddingLeft row) else None)
  /\ (target_dropIntent t = below ->
     forall k, TreeDropMarker k s'
               = if bool_decide (k = index overItem + 1)
                 then Some (paddingLeft row) else None)
  /\ (target_dropIntent t = inside ->
     (forall k, TreeDropMarker k s' = None) /\ ring row = true)
  /\ (forall m, ring (renderRow m s') = true ->
        item_id m = item_id (node overItem) /\ target_dropIntent t = inside)
  /\ 0 <= flatIndex t <= Z.of_nat (length flat).
Proof.
  intros root flat t s' row Hov Hact Hs He Hfind Hdrop.
  assert (Es : s' = setHoveredParent (hoveredOf t) s).
  { unfold s'.
    rewrite (handleDragMove_over_node root ev s ov activeRect overItem
               Hov Hact Hs He Hfind).
    fold t. by rewrite Hdrop. }
  apply find_elem_of in Hfind as [Hin _].
  destruct (visible_depth data (collapsed s) overItem Hin) as (p & Hp & Hd).
  assert (Hidx : 0 <= index overItem < Z.of_nat (length flat)).
  { unfold flat, root in *. rewrite useSelectableItems_built in *.
    pose proof (numbered_index_range 0
                  (List.filter (ancestorsExpanded (collapsed s))
                     (descendants (buildInternalTree data None 0)))) as Hr.
    rewrite Forall_forall in Hr. specialize (Hr _ Hin).
    rewrite numbered_length. lia. }
  assert (Hcases :
    (target_dropIntent t = above /\ targetParent t = Some p
     /\ flatIndex t = index overItem)
    \/ (target_dropIntent t = below /\ targetParent t = Some p
        /\ flatIndex t = index overItem + 1)
    \/ (target_dropIntent t = inside /\ targetParent t = Some (node overItem)
        /\ TTreeNode.type (item (node overItem)) = directory
        /\ (flatIndex t = index overItem
            \/ flatIndex t = index overItem + 1))).
  { subst t. unfold dropTargetOf. rewrite Hp.
    destruct (TTreeNode.type (item (node overItem))); cbn [negb];
      repeat match goal with |- context [if ?b then _ else _] => destruct b end;
      cbn [target_dropIntent targetParent flatIndex]; auto 10. }
  assert (Hpad : paddingLeft row = (depth p + 1) * DEPTH_PADDING).
  { unfold row, renderRow. cbn [paddingLeft]. by rewrite Hd. }
  split; [|split; [|split; [|split]]].
  - intros Hi k. destruct Hcases as [(_ & Ht & Hf)|[(E & _)|(E & _)]];
      [|congruence..].
    rewrite (TreeDropMarker_at s' (hoveredOf t) (index overItem) above);
      [|by rewrite Es|by cbn; rewrite Hf|by cbn; rewrite Hi|done].
    rewrite Hpad. cbn [hoveredOf parentDepth]. by rewrite Ht.
  - intros Hi k. destruct Hcases as [(E & _)|[(_ & Ht & Hf)|(E & _)]];
      [congruence| |congruence].
    rewrite (TreeDropMarker_at s' (hoveredOf t) (index overItem + 1) below);
      [|by rewrite Es|by cbn; rewrite Hf|by cbn; rewrite Hi|done].
    rewrite Hpad. cbn [hoveredOf parentDepth]. by rewrite Ht.
  - intros Hi. destruct Hcases as [(E & _)|[(E & _)|(_ & Ht & Hty & _)]];
      [congruence..|].
    split.
    + intros k. unfold TreeDropMarker. rewrite Es. cbn. rewrite Hi. cbn.
      by rewrite orb_true_r.
    + unfold row, renderRow. cbn [ring]. rewrite Es. cbn. rewrite Ht, Hi, Hty.
      cbn. by rewrite bool_decide_eq_true_2.
  - intros m. unfold renderRow. cbn [ring]. rewrite Es. cbn.
    intros Hr. apply andb_true_iff in Hr as [Hr _].
    apply andb_true_iff in Hr as [Hpid Hins].
    apply bool_decide_eq_true in Hpid.
    destruct (target_dropIntent t) eqn:Ei; try done.
    destruct Hcases as [(E & _)|[(E & _)|(_ & Ht & _)]]; [congruence..|].
    rewrite Ht in Hpid. cbn in Hpid. split; [congruence|done].
  - destruct Hcases as [(_ & _ & ->)|[(_ & _ & ->)|(_ & _ & _ & [->| ->])]];
      lia.
Qed.

Lemma hover_feedback_witness :
  TreeDropMarker 4 (handleDragMove exampleRoot (moveOver "B" 15) holdingA1)
  = Some 20
  /\ TreeDropMarker 3 (handleDragMove exampleRoot (moveOver "B" 15) holdingA1)
     = None.
Proof.
  assert (H : List.find (fun x => bool_decide (entry_id x = "B"%string))
                (useSelectableItems exampleRoot (collapsed holdingA1))
              = Some entryB) by (vm_compute; reflexivity).
  destruct (hover_feedback exampleData holdingA1 (moveOver "B" 15)
              (mkOver "B" (rectAt 100)) (rectAt (90 + 15)) entryB
              eq_refl eq_refl ltac:(done) ltac:(done) H eq_refl)
    as (_ & Hbelow & _).
  split.
  - exact (Hbelow eq_refl 4).
  - exact (Hbelow eq_refl 3).
Defined.

Lemma handleDragMove_collapsed root ev s :
  collapsed (handleDragMove root ev s) = collapsed s.
Proof.
  unfold handleDragMove.
  repeat match goal with
         | |- context [match ?x with _ => _ end] => destruct x
         end; reflexivity.
Qed.

(** A move either leaves the store as it was or writes a flat index that
    one of the rendered markers carries. *)
Lemma handleDragMove_index data ev s :
  let root := buildInternalTree data None 0 in
  handleDragMove root ev s = s
  \/ forall i, hp_index (hoveredParent (handleDragMove root ev s)) = Some i ->
       0 <= i <= Z.of_nat (length (useSelectableItems root (collapsed s))).
Proof.
  intros root. unfold handleDragMove. fold root.
  destruct (over ev) as [ov|]; [|right; by intros i [=]].
  case_bool_decide; [right; intros i [= <-]; lia|].
  case_bool_decide; [right; intros i [= <-]; lia|].
  destruct (List.find _ _) as [overItem|] eqn:Hfind; [|by left].
  destruct (translated (active ev)) as [activeRect|]; [|by left].
  set (t := dropTargetOf _ _ _).
  destruct (dropsIntoDragged t (draggingIds s)); [by left|].
  right. intros i [= <-].
  apply find_elem_of in Hfind as [Hin _].
  assert (Hidx : 0 <= index overItem
                 < Z.of_nat (length (useSelectableItems root (collapsed s)))).
  { unfold root in *. rewrite useSelectableItems_built in *.
    pose proof (numbered_index_range 0
                  (List.filter (ancestorsExpanded (collapsed s))
                     (descendants (buildInternalTree data None 0)))) as Hr.
    rewrite Forall_forall in Hr. specialize (Hr _ Hin).
    rewrite numbered_length. lia. }
  subst t. unfold dropTargetOf.
  repeat match goal with |- context [if ?b then _ else _] => destruct b end;
    cbn [flatIndex]; lia.
Qed.

Lemma filter_length_mono {A} (f g : A -> bool) l :
  (forall x, f x = true -> g x = true) ->
  (length (List.filter f l) <= length (List.filter g l))%nat.
Proof.
  intros H. induction l as [|a l IH]; simpl; [done|].
  destruct (f a) eqn:E.
  - rewrite (H a E). simpl. lia.
  - destruct (g a); simpl; lia.
Qed.

Lemma ancestorsExpanded_expand c i m :
  ancestorsExpanded c m = true ->
  ancestorsExpanded (<[i := false]> c) m = true.
Proof.
  unfold ancestorsExpanded. rewrite !forallb_forall. intros H a Ha.
  specialize (H a Ha). destruct (parent a); [|done].
  rewrite isCollapsedIn_insert. by case_bool_decide.
Qed.

(** Expanding a container never shortens the flat sequence. *)
Lemma expand_grows data c i :
  let root := buildInternalTree data None 0 in
  (length (useSelectableItems root c)
   <= length (useSelectableItems root (<[i := false]> c)))%nat.
Proof.
  intros root. unfold root. rewrite !useSelectableItems_built, !numbered_length.
  apply filter_length_mono. intros m. apply ancestorsExpanded_expand.
Qed.

Lemma dragging_from_index data s0 s :
  let root := buildInternalTree data None 0 in
  dragging_from root s0 s ->
  forall i, hp_index (hoveredParent s) = Some i ->
    0 <= i <= Z.of_nat (length (useSelectableItems root (collapsed s))).
Proof.
  intros root Hs. induction Hs as [a|s ev Hs IH|s it Hs IH].
  - unfold handleDragStart. by case_bool_decide.
  - rewrite handleDragMove_collapsed.
    destruct (handleDragMove_index data ev s) as [E|H]; [|done].
    fold root in E. by rewrite E.
  - intros i Hi. specialize (IH i Hi).
    pose proof (expand_grows data (collapsed s) (TTreeNode.id it)) as H.
    cbn zeta in H. unfold autoExpandFire, setCollapsed. cbn [collapsed].
    unfold root in *. lia.
Qed.

Lemma omap_none {A B} (f : A -> option B) (l : list A) :
  Forall (fun x => f x = None) l -> omap f l = [].
Proof.
  induction 1 as [|a l Ha _ IH]; [done|]. cbn [omap list_omap].
  by rewrite Ha.
Qed.

Lemma omap_single {B} (v : B) (i m : Z) :
  0 <= i < m ->
  omap (fun k => if bool_decide (k = i) then Some v else None) (seqZ 0 m) = [v].
Proof.
  intros Hi.
  replace m with (i + (1 + (m - i - 1))) by lia.
  rewrite seqZ_app, seqZ_app by lia. rewrite !omap_app.
  rewrite (omap_none _ (seqZ 0 i)), (omap_none _ (seqZ (0 + i + 1) _)).
  - change (seqZ (0 + i) 1) with [0 + i]. cbn [omap list_omap].
    by rewrite bool_decide_eq_true_2 by lia.
  - apply Forall_forall. intros k Hk%elem_of_seqZ.
    by rewrite bool_decide_eq_false_2 by lia.
  - apply Forall_forall. intros k Hk%elem_of_seqZ.
    by rewrite bool_decide_eq_false_2 by lia.
Qed.

Lemma omap_map {A B C} (h : A -> B) (g : B -> option C) (l : list A) :
  omap g (map h l) = omap (fun x => g (h x)) l.
Proof.
  induction l as [|a l IH]; [done|]. cbn [map omap list_omap]. by rewrite IH.
Qed.

Lemma omap_pointwise {A B} (f g : A -> option B) (l : list A) :
  (forall x, f x = g x) -> omap f l = omap g l.
Proof.
  intros H. induction l as [|a l IH]; [done|]. cbn [omap list_omap].
  by rewrite H, IH.
Qed.

(** X16.  At every moment of a drag gesture the stored flat index lies
    between 0 and the length of the current flat sequence (auto-expand only
    lengthens it), and the markers that [Tree] renders show at most one
    drop line: exactly one, at the indentation of the target parent's
    children, unless the intent is inside or there is no target. *)
Theorem gesture_marker_rendered (data : TTreeNode) (s0 s : TreeStore) :
  let root := buildInternalTree data None 0 in
  let hp := hoveredParent s in
  dragging_from root s0 s ->
  (forall i, hp_index hp = Some i ->
     0 <= i <= Z.of_nat (length (useSelectableItems root (collapsed s))))
  /\ omap id (renderedMarkers root s)
     = match hp_index hp with
       | Some _ =>
           if isInside (dropIntent hp) then []
           else [(default 0 (parentDepth hp) + 1) * DEPTH_PADDING]
       | None => []
       end.
Proof.
  intros root hp Hs.
  pose proof (dragging_from_index data s0 s Hs) as Hidx. fold root hp in Hidx.
  split; [exact Hidx|].
  rewrite renderedMarkers_eq, omap_map. unfold TreeDropMarker. fold hp.
  destruct (hp_index hp) as [i|] eqn:Ei.
  - destruct (isInside (dropIntent hp)).
    + apply omap_none, Forall_forall. intros k _. cbn.
      by rewrite orb_true_r.
    + specialize (Hidx i eq_refl).
      rewrite <- (omap_single ((default 0 (parentDepth hp) + 1) * DEPTH_PADDING)
                    i (Z.of_nat (length (useSelectableItems root (collapsed s))) + 1))
        by lia.
      apply omap_pointwise. intros k. cbn. rewrite orb_false_r.
      repeat case_bool_decide; simpl; congruence.
  - apply omap_none, Forall_forall. intros k _. cbn.
    by rewrite bool_decide_eq_false_2.
Qed.

Lemma gesture_marker_rendered_witness :
  omap id (renderedMarkers exampleRoot holdingBoverA1) = [40].
Proof.
  destruct (gesture_marker_rendered exampleData selectedA holdingBoverA1)
    as [_ H].
  - apply drag_moved, drag_started.
  - etrans; [exact H|]. vm_compute. reflexivity.
Defined.

(** * The selection *)

Lemma slice_sublist {A} lo hi (l : list A) : sublist (slice lo hi l) l.
Proof.
  unfold slice. etrans; [apply sublist_take|apply sublist_drop].
Qed.

Lemma filter_nodup {A} (f : A -> bool) l : NoDup l -> NoDup (List.filter f l).
Proof. intros H. eapply sublist_NoDup; [exact H|apply filter_sublist]. Qed.

Lemma filter_absent (i : string) l :
  i ∉ l -> List.filter (fun j => negb (bool_decide (j = i))) l = l.
Proof.
  intros H. apply filter_all, Forall_forall. intros j Hj.
  apply negb_true_iff, bool_decide_eq_false. by intros ->.
Qed.

Lemma filter_one_out (i : string) l :
  NoDup l -> i ∈ l ->
  List.filter (fun j => negb (bool_decide (j = i))) l ++ [i] ≡ₚ l.
Proof.
  intros Hn (l1 & l2 & ->)%list_elem_of_split.
  apply NoDup_app in Hn as (_ & Hd & Hn2). apply NoDup_cons in Hn2 as [Hi _].
  rewrite List.filter_app. cbn [List.filter].
  rewrite bool_decide_eq_true_2 by done. cbn [negb].
  rewrite !filter_absent; [|done|].
  - rewrite <- app_assoc. apply Permutation_app_head. symmetry.
    apply Permutation_cons_append.
  - intros H. apply (Hd i H). left.
Qed.

(** X17.  The selection never holds an id twice: for a flat sequence of a
    tree with unique ids, a click of any kind, the first-render
    initialisation and a drag start keep [selectedIds] free of duplicates,
    and the dragged ids of a drag start are free of duplicates too. *)
Theorem selection_no_duplicates (data : TTreeNode) (c : gmap string bool)
    (it : TTreeNode) (e : MouseEvent) (a : string) (s : TreeStore) :
  let root := buildInternalTree data None 0 in
  let flat := useSelectableItems root c in
  uniqueIds root ->
  NoDup (selectedIds s) ->
  NoDup (selectedIds (handleClick it flat e s))
  /\ NoDup (selectedIds (initializeSelection flat s))
  /\ NoDup (selectedIds (handleDragStart a s))
  /\ NoDup (draggingIds (handleDragStart a s)).
Proof.
  intros root flat Hu Hn.
  assert (Hone : forall x : string, NoDup [x]).
  { intros x. apply NoDup_singleton. }
  split; [|split; [|split]].
  - unfold handleClick.
    assert (Hrange : forall anchor s',
              rangeBranch it flat anchor s = Some s' ->
              NoDup (selectedIds s')).
    { intros anchor s'. unfold rangeBranch.
      destruct (_ && _); [|done]. intros [= <-]. cbn [selectedIds setSelectedIds].
      eapply sublist_NoDup; [apply (flat_ids_nodup data c Hu)|].
      apply fmap_sublist, slice_sublist. }
    destruct (anchorId s) as [anchor|].
    + destruct (shiftKey e && truthy anchor).
      * destruct (rangeBranch it flat anchor s) as [s'|] eqn:E;
          [by apply (Hrange anchor)|].
        destruct (metaKey e || ctrlKey e); [|apply Hone].
        case_bool_decide; cbn; [by apply filter_nodup|].
        apply NoDup_app. split; [done|]. split; [|apply Hone].
        intros x Hx ->%list_elem_of_singleton. done.
      * destruct (metaKey e || ctrlKey e); [|apply Hone].
        case_bool_decide; cbn; [by apply filter_nodup|].
        apply NoDup_app. split; [done|]. split; [|apply Hone].
        intros x Hx ->%list_elem_of_singleton. done.
    + destruct (metaKey e || ctrlKey e); [|apply Hone].
      case_bool_decide; cbn; [by apply filter_nodup|].
      apply NoDup_app. split; [done|]. split; [|apply Hone].
      intros x Hx ->%list_elem_of_singleton. done.
  - unfold initializeSelection. destruct (selectedIds s) eqn:E; [|by rewrite E].
    destruct flat; [by rewrite E|]. apply Hone.
  - unfold handleDragStart. case_bool_decide; [done|]. apply Hone.
  - unfold handleDragStart. case_bool_decide; [done|]. apply Hone.
Qed.

Lemma selection_no_duplicates_witness :
  NoDup (selectedIds
           (handleClick (fileNode "B") (useSelectableItems exampleRoot ∅)
              shiftClick
              (mkTreeStore ["A1"%string] (Some "A1"%string) ∅ []
                 initialHoveredParent))).
Proof.
  apply (selection_no_duplicates exampleData ∅ (fileNode "B") shiftClick
           "B"%string).
  - apply (bool_decide_unpack _). vm_compute. exact I.
  - apply NoDup_singleton.
Defined.

(** X18.  A second meta- or ctrl-click (without shift) on the same row
    undoes the first: the id is selected afterwards exactly when it was
    before, the selection is the old one up to order, the store is
    unchanged when the id was not selected, and anchor, collapse map and
    drag state are never touched. *)
Theorem toggle_twice (it : TTreeNode) (flat : list SelectableTreeNode)
    (e : MouseEvent) (s : TreeStore) :
  let s2 := handleClick it flat e (handleClick it flat e s) in
  shiftKey e = false ->
  metaKey e || ctrlKey e = true ->
  (TTreeNode.id it ∉ selectedIds s -> s2 = s)
  /\ (NoDup (selectedIds s) -> selectedIds s2 ≡ₚ selectedIds s)
  /\ (TTreeNode.id it ∈ selectedIds s2 <-> TTreeNode.id it ∈ selectedIds s)
  /\ anchorId s2 = anchorId s
  /\ collapsed s2 = collapsed s
  /\ draggingIds s2 = draggingIds s
  /\ hoveredParent s2 = hoveredParent s.
Proof.
  intros s2 Hshift Hmeta.
  assert (Hclick : forall s, handleClick it flat e s
            = if bool_decide (TTreeNode.id it ∈ selectedIds s)
              then setSelectedIds
                     (List.filter
                        (fun i => negb (bool_decide (i = TTreeNode.id it)))
                        (selectedIds s)) s
              else setSelectedIds (selectedIds s ++ [TTreeNode.id it]) s).
  { intros s'. unfold handleClick. rewrite Hshift, Hmeta. cbn.
    by destruct (anchorId s'). }
  assert (Hnot : forall l : list string,
            TTreeNode.id it
            ∉ List.filter (fun i => negb (bool_decide (i = TTreeNode.id it))) l).
  { intros l [_ H]%filter_elem_of.
    by rewrite bool_decide_eq_true_2 in H. }
  assert (Hin : forall l : list string, TTreeNode.id it ∈ l ++ [TTreeNode.id it]).
  { intros l. apply elem_of_app. right. left. }
  subst s2. rewrite (Hclick s).
  destruct (decide (TTreeNode.id it ∈ selectedIds s)) as [Hi|Hi].
  - rewrite (bool_decide_eq_true_2 _ Hi), Hclick. cbn [selectedIds setSelectedIds].
    rewrite (bool_decide_eq_false_2 _ (Hnot _)). cbn.
    split; [done|]. split; [intros Hn; by apply filter_one_out|].
    split; [|done]. split; [done|]. intros _. apply Hin.
  - rewrite (bool_decide_eq_false_2 _ Hi), Hclick. cbn [selectedIds setSelectedIds].
    rewrite (bool_decide_eq_true_2 _ (Hin _)). cbn.
    rewrite List.filter_app. cbn [List.filter].
    rewrite bool_decide_eq_true_2 by done. cbn [negb].
    rewrite filter_absent, app_nil_r by done.
    split; [intros _; by destruct s|]. split; [done|]. split; [|done].
    done.
Qed.

Lemma toggle_twice_witness :
  handleClick (fileNode "B") (useSelectableItems exampleRoot ∅) metaClick
    (handleClick (fileNode "B") (useSelectableItems exampleRoot ∅) metaClick
       selectedA)
  = selectedA.
Proof.
  destruct (toggle_twice (fileNode "B") (useSelectableItems exampleRoot ∅)
              metaClick selectedA eq_refl eq_refl) as [H _].
  apply H. apply (bool_decide_unpack _). vm_compute. exact I.
Defined.

(** * The end of a gesture *)

Lemma truthy_false i : truthy i = false <-> i = EmptyString.
Proof. by destruct i. Qed.

Lemma validNodesOf_clean tp D (dragging : list string) :
  (forall d, d ∈ dragging -> d ∉ chainIds tp) ->
  (forall v, v ∈ D -> item_id v ∈ dragging) ->
  validNodesOf tp D = D.
Proof.
  intros Hclean HD. apply filter_all, Forall_forall. intros v Hv.
  specialize (Hclean _ (HD v Hv)).
  apply andb_true_iff. split; apply negb_true_iff.
  - apply bool_decide_eq_false. intros E. apply Hclean. rewrite E. left.
  - destruct (hasAncestor (Some tp) (item_id v)) eqn:E; [|done].
    by apply hasAncestor_chain in E.
Qed.

(** X19.  What a gesture hands to [onDragEnd], for a tree with unique ids
    whose root is not dragged.  The completion-time filter removes nothing,
    because hover-time validation already rejected such targets: the items
    are the items of all visible dragged ids, in drag order.  No payload is
    emitted exactly when the pointer is over nothing, no parent or child
    index is stored, the parent id is the empty string, or no dragged id is
    visible. *)
Theorem gesture_drop_complete (data : TTreeNode) (ev : DragEndEvent)
    (s0 s : TreeStore) :
  let root := buildInternalTree data None 0 in
  let flat := useSelectableItems root (collapsed s) in
  let hp := hoveredParent s in
  let result := (handleDragEnd root ev s).2 in
  uniqueIds root ->
  dragging_from root s0 s ->
  item_id root ∉ draggingIds s ->
  (forall payload, result = Some payload ->
     payload_items payload = getSelectedItems flat (draggingIds s))
  /\ (result = None <->
      end_over ev = None \/ parentId hp = None
      \/ parentId hp = Some EmptyString \/ childIndex hp = None
      \/ getSelectedItems flat (draggingIds s) = []).
Proof.
  intros root flat hp result Hu Hs Hroot.
  pose proof (dragging_from_clean data s0 s Hs Hroot) as Hclean.
  fold root in Hclean. subst result. unfold handleDragEnd. cbn [snd].
  fold flat hp. rewrite getSelectedItems_dragged.
  destruct (end_over ev) as [ov|]; [|split; [done|split; auto]].
  destruct (parentId hp) as [pid|] eqn:Hpid; [|split; [done|split; auto]].
  destruct (childIndex hp) as [ci|]; [|split; [done|split; auto 6]].
  destruct (truthy pid) eqn:Ht.
  2:{ apply truthy_false in Ht as ->. split; [done|split; auto 6]. }
  destruct (Hclean pid Hpid) as (tp & Htp & Hid & _ & Hc).
  rewrite <- Hid, (findNodeById_unique root tp Hu Htp).
  set (D := draggedNodesOf flat (draggingIds s)).
  assert (HV : validNodesOf tp D = D).
  { apply (validNodesOf_clean tp D (draggingIds s)); [done|].
    intros v Hv. by apply draggedNodesOf_elem in Hv as (_ & _ & _ & Hi & _). }
  assert (Hne : pid <> EmptyString).
  { intros ->. by rewrite (proj2 (truthy_false _)) in Ht. }
  destruct D as [|v D'] eqn:ED.
  { split; [done|]. split; auto 6. }
  rewrite HV. destruct (fold_left _ _ _) as [cs k]. split.
  - by intros payload [= <-].
  - split; [done|]. intros [H|[H|[H|[H|H]]]]; try done. congruence.
Qed.

Lemma gesture_drop_complete_witness :
  payload_items payloadBintoA
  = getSelectedItems (useSelectableItems exampleRoot (collapsed holdingB))
      (draggingIds holdingB).
Proof.
  destruct (gesture_drop_complete exampleData dropEvent selectedA holdingB)
    as [H _].
  - apply (bool_decide_unpack _). vm_compute. exact I.
  - apply drag_moved, drag_started.
  - apply (bool_decide_unpack _). vm_compute. exact I.
  - apply H. vm_compute. reflexivity.
Defined.

(** * Auto-expand *)

Lemma ancestorsExpanded_ext c1 c2 m :
  (forall k, isCollapsedIn c1 k = isCollapsedIn c2 k) ->
  ancestorsExpanded c1 m = ancestorsExpanded c2 m.
Proof.
  intros H. unfold ancestorsExpanded.
  induction (ancestors m) as [|a l IH]; simpl; [done|].
  rewrite IH. by destruct (parent a); [rewrite H|].
Qed.

(** X20.  When the auto-expand timer of a collapsed container fires, the
    flat sequence before is the one after without the nodes below the
    container; the container stays visible if it was, all its children
    become visible, and the condition that armed the timer no longer
    holds. *)
Theorem auto_expand_reveals (data : TTreeNode) (n : InternalTreeNode)
    (s : TreeStore) :
  let root := buildInternalTree data None 0 in
  let s1 := autoExpandFire (item n) s in
  let before := map node (useSelectableItems root (collapsed s)) in
  let after := map node (useSelectableItems root (collapsed s1)) in
  shouldAutoExpand n s = true ->
  before = List.filter (fun m => negb (belowNamed (item_id n) m)) after
  /\ (n ∈ before ->
      n ∈ after /\ forall ch, ch ∈ default [] (children n) -> ch ∈ after)
  /\ shouldAutoExpand n s1 = false.
Proof.
  intros root s1 before after Hshould.
  unfold shouldAutoExpand in Hshould.
  apply andb_true_iff in Hshould as [Hshould _].
  apply andb_true_iff in Hshould as [Hshould _].
  apply andb_true_iff in Hshould as [_ Hcoll].
  set (i := item_id n) in *. set (c := collapsed s) in *.
  assert (Hc1 : collapsed s1 = <[i := false]> c) by done.
  assert (Hvis : forall m,
            ancestorsExpanded c m
            = ancestorsExpanded (<[i := false]> c) m && negb (belowNamed i m)).
  { intros m. rewrite <- ancestorsExpanded_collapse.
    apply ancestorsExpanded_ext. intros k. rewrite !isCollapsedIn_insert.
    case_bool_decide; [by subst k|done]. }
  unfold before, after, root. rewrite Hc1, !useSelectableItems_built.
  rewrite !numbered_node, filter_filter.
  split; [|split].
  - apply filter_ext_in. intros m _. apply Hvis.
  - intros [Hd Hv]%filter_elem_of. rewrite Hvis in Hv.
    apply andb_true_iff in Hv as [Hv _].
    split; [by apply filter_elem_of|].
    intros ch Hch. apply filter_elem_of.
    assert (Hn : n ∈ preorder (buildInternalTree data None 0))
      by by apply descendants_preorder.
    split.
    + unfold descendants. rewrite preorder_unfold. cbn [tail].
      destruct (descendants_parent _ _ Hd) as (q & Hq & Hqin & Hnq).
      assert (ch ∈ preorder (buildInternalTree data None 0)).
      { apply (preorder_sub_trans _ _ n); [done|].
        rewrite preorder_unfold. right. apply flat_map_elem_of. exists ch.
        split; [done|]. rewrite preorder_unfold. left. }
      rewrite preorder_unfold in H. apply elem_of_cons in H as [->|H]; [|done].
      exfalso. rewrite children_spec in Hch.
      apply list_elem_of_fmap in Hch as (t & E & _). by injection E.
    + rewrite children_spec in Hch.
      apply list_elem_of_fmap in Hch as (t & -> & _).
      rewrite ancestorsExpanded_child, Hv, andb_true_r.
      destruct (parent n); [|done].
      rewrite isCollapsedIn_insert. by rewrite bool_decide_eq_true_2.
  - apply autoExpandFire_disarms.
Qed.

Lemma auto_expand_reveals_witness :
  map item_id
    (map node
       (useSelectableItems exampleRoot
          (collapsed (autoExpandFire (item nodeA)
                        (mkTreeStore [] None {["A"%string := true]}
                           ["B"%string]
                           (mkHoveredParent (Some "A"%string) (Some 1) (Some 0)
                              (Some 0) (Some inside)))))))
  = ["A"; "A1"; "A2"; "B"]%string
  /\ shouldAutoExpand nodeA
       (autoExpandFire (item nodeA)
          (mkTreeStore [] None {["A"%string := true]} ["B"%string]
             (mkHoveredParent (Some "A"%string) (Some 1) (Some 0) (Some 0)
                (Some inside))))
     = false.
Proof.
  split; [vm_compute; reflexivity|].
  apply (auto_expand_reveals exampleData nodeA
           (mkTreeStore [] None {["A"%string := true]} ["B"%string]
              (mkHoveredParent (Some "A"%string) (Some 1) (Some 0) (Some 0)
                 (Some inside)))).
  vm_compute. reflexivity.
Defined.

(** * The first render and the overlay *)

(** X21.  On first render with an empty selection the first visible row
    becomes selection and anchor, and doing it again changes nothing; a
    shift-click on a visible row after that selects the rows from the top
    through the clicked one and keeps the anchor. *)
Theorem first_render_then_shift_click (it : TTreeNode)
    (flat : list SelectableTreeNode) (e : MouseEvent) (s : TreeStore)
    (first : SelectableTreeNode) (rest : list SelectableTreeNode) :
  let s1 := initializeSelection flat s in
  let k := findIndex (fun x => bool_decide (entry_id x = TTreeNode.id it)) flat in
  flat = first :: rest ->
  selectedIds s = [] ->
  entry_id first <> EmptyString ->
  shiftKey e = true ->
  TTreeNode.id it ∈ map entry_id flat ->
  selectedIds s1 = [entry_id first]
  /\ anchorId s1 = Some (entry_id first)
  /\ initializeSelection flat s1 = s1
  /\ selectedIds (handleClick it flat e s1)
     = map entry_id (take (Z.to_nat k + 1) flat)
  /\ anchorId (handleClick it flat e s1) = Some (entry_id first).
Proof.
  intros s1 k Hflat Hsel Hne Hshift Hin.
  assert (Es1 : s1 = setAnchorId (Some (entry_id first))
                       (setSelectedIds [entry_id first] s)).
  { unfold s1, initializeSelection. by rewrite Hsel, Hflat. }
  assert (Hk : 0 <= k < Z.of_nat (length flat))
    by by apply findIndex_id_present.
  assert (Hclick : handleClick it flat e s1
            = setSelectedIds (map entry_id (take (Z.to_nat k + 1) flat)) s1).
  { unfold handleClick. rewrite Es1 at 1. cbn [anchorId setAnchorId].
    rewrite Hshift. unfold truthy. rewrite bool_decide_eq_false_2 by done.
    cbn [negb andb]. unfold rangeBranch. fold k.
    assert (findIndex (fun x => bool_decide (entry_id x = entry_id first)) flat
            = 0) as ->.
    { rewrite Hflat. cbn [findIndex]. by rewrite bool_decide_eq_true_2. }
    replace (k =? -1) with false by (symmetry; apply Z.eqb_neq; lia).
    cbn [Z.eqb negb andb]. rewrite Z.min_l, Z.max_r by lia.
    rewrite slice_spec by lia. rewrite drop_0.
    do 3 f_equal. lia. }
  split; [by rewrite Es1|]. split; [by rewrite Es1|]. split.
  { rewrite Es1. reflexivity. }
  rewrite Hclick. split; [done|]. by rewrite Es1.
Qed.

Lemma first_render_then_shift_click_witness :
  selectedIds
    (handleClick (fileNode "A2") (useSelectableItems exampleRoot ∅) shiftClick
       (initializeSelection (useSelectableItems exampleRoot ∅) initialStore))
  = ["A"; "A1"; "A2"]%string.
Proof.
  destruct (first_render_then_shift_click (fileNode "A2")
              (useSelectableItems exampleRoot ∅) shiftClick initialStore
              entryA (tail (useSelectableItems exampleRoot ∅)))
    as (_ & _ & _ & H & _).
  - vm_compute. reflexivity.
  - reflexivity.
  - done.
  - reflexivity.
  - apply (bool_decide_unpack _). vm_compute. exact I.
  - etrans; [exact H|]. vm_compute. reflexivity.
Defined.

(** X22.  The drag overlay shows the item found for the first dragged id:
    the grabbed row when it was not selected, and otherwise the first id of
    the selection, which need not be the grabbed row; when that id is not
    visible there is no overlay item at all. *)
Theorem drag_overlay_item (root : InternalTreeNode) (a : string)
    (s : TreeStore) :
  let flat := useSelectableItems root (collapsed s) in
  let s' := handleDragStart a s in
  let shown i :=
    (fun x => item (node x))
      <$> List.find (fun x => bool_decide (entry_id x = i)) flat in
  (a ∉ selectedIds s ->
     primaryDragItem root s' = shown a /\ draggingIds s' = [a])
  /\ (a ∈ selectedIds s ->
      draggingIds s' = selectedIds s
      /\ exists first others,
           selectedIds s = first :: others
           /\ primaryDragItem root s' = shown first)
  /\ (forall i, i ∉ map entry_id flat -> shown i = None)
  /\ (forall x, shown a = Some x -> TTreeNode.id x = a).
Proof.
  intros flat s' shown. unfold s', handleDragStart, primaryDragItem.
  split; [|split; [|split]].
  - intros Ha. by rewrite bool_decide_eq_false_2.
  - intros Ha. rewrite bool_decide_eq_true_2 by done.
    cbn [draggingIds setDraggingIds collapsed]. split; [done|].
    destruct (selectedIds s) as [|first others]; [by apply elem_of_nil in Ha|].
    by exists first, others.
  - intros i Hi. unfold shown.
    destruct (List.find _ flat) as [x|] eqn:E; [|done].
    apply find_elem_of in E as [Hx Hid]. apply bool_decide_eq_true in Hid.
    exfalso. apply Hi, list_elem_of_fmap. by exists x.
  - intros x. unfold shown.
    destruct (List.find _ flat) as [y|] eqn:E; [|done].
    apply find_elem_of in E as [_ Hid]. apply bool_decide_eq_true in Hid.
    by intros [= <-].
Qed.

(** * The owner's guard *)

Lemma rawIds_sub t x j :
  x ∈ rawPreorder t -> j ∈ rawIds x -> j ∈ rawIds t.
Proof.
  induction t as [nm rid ty|nm rid ty cs IH] using TTreeNode_nested_ind.
  { by intros ->%list_elem_of_singleton. }
  rewrite rawPreorder_unfold. intros [->|Hx]%elem_of_cons Hj; [done|].
  apply flat_map_elem_of in Hx as (c & Hc & Hx).
  rewrite rawIds_unfold. right. apply flat_map_elem_of. exists c.
  split; [done|]. rewrite Forall_forall in IH. by apply (IH c).
Qed.

Lemma NoDup_flat_map_same {A B} (f : A -> list B) l a b j :
  NoDup (flat_map f l) -> a ∈ l -> b ∈ l -> j ∈ f a -> j ∈ f b ->
  exists l1 l2, l = l1 ++ a :: l2 /\ a = b.
Proof.
  intros Hn Ha Hb Hja Hjb.
  apply list_elem_of_split in Ha as (l1 & l2 & ->). exists l1, l2.
  split; [done|].
  rewrite flat_map_app in Hn. cbn [flat_map] in Hn.
  apply NoDup_app in Hn as (_ & Hd1 & Hn). apply NoDup_app in Hn as (_ & Hd2 & _).
  apply elem_of_app in Hb as [Hb|Hb].
  - exfalso. apply (Hd1 j); [apply flat_map_elem_of; by exists b|].
    apply elem_of_app. by left.
  - apply elem_of_cons in Hb as [->|Hb]; [done|].
    exfalso. apply (Hd2 j Hja). apply flat_map_elem_of. by exists b.
Qed.

(** With unique ids, no id from inside a removed subtree is left. *)
Lemma prune_drops_inside I t x j :
  NoDup (rawIds t) -> x ∈ tail (rawPreorder t) -> TTreeNode.id x ∈ I ->
  j ∈ rawIds x -> j ∉ rawIds (prune I t).
Proof.
  induction t as [nm rid ty|nm rid ty cs IH] using TTreeNode_nested_ind.
  { by intros _ ?%elem_of_nil. }
  intros Hn Hx HxI Hj.
  rewrite (rawPreorder_unfold (TTreeNode.mk _ _ _ _)) in Hx.
  cbn [tail TTreeNode.children from_option id] in Hx.
  apply flat_map_elem_of in Hx as (c & Hc & Hx).
  pose proof (rawIds_sub c x j Hx Hj) as Hjc.
  pose proof (NoDup_rawIds_child (TTreeNode.mk nm rid ty (Some cs)) cs c
                eq_refl Hn Hc) as Hnc.
  rewrite rawIds_unfold in Hn. cbn [TTreeNode.id TTreeNode.children from_option id] in Hn.
  apply NoDup_cons in Hn as [Hroot Hn].
  rewrite rawIds_unfold.
  cbn [prune TTreeNode.id TTreeNode.children from_option id].
  intros [->|Hin]%elem_of_cons.
  { apply Hroot, flat_map_elem_of. by exists c. }
  apply flat_map_elem_of in Hin as (c' & Hc' & Hin).
  apply filter_elem_of in Hc' as [Hc' Hkeep].
  apply list_elem_of_fmap in Hc' as (c0 & -> & Hc0).
  rewrite prune_id in Hkeep. apply negb_true_iff in Hkeep.
  apply bool_decide_eq_false in Hkeep.
  assert (Hjc0 : j ∈ rawIds c0).
  { eapply elem_of_sublist; [exact Hin|apply rawIds_prune_sublist]. }
  destruct (NoDup_flat_map_same rawIds cs c c0 j Hn Hc Hc0 Hjc Hjc0)
    as (l1 & l2 & _ & Ecc). subst c0.
  rewrite rawPreorder_unfold in Hx. apply elem_of_cons in Hx as [->|Hx]; [done|].
  rewrite Forall_forall in IH. apply (IH c Hc Hnc); try done.
  by rewrite rawPreorder_unfold.
Qed.

Lemma flat_map_sublist_same {A B} (f : A -> list B) l1 l2 :
  sublist l1 l2 -> sublist (flat_map f l1) (flat_map f l2).
Proof.
  induction 1; simpl; [done| |].
  - by apply sublist_app.
  - by apply sublist_inserts_l.
Qed.

Lemma removeEach_sublist rm cs :
  Forall (fun c => sublist (rawIds (rm c).1) (rawIds c)) cs ->
  sublist (flat_map rawIds (removeEach rm cs).1) (flat_map rawIds cs).
Proof.
  induction 1 as [|c cs Hc _ IH]; [done|]. cbn [removeEach].
  fold (removeEach rm). destruct (rm c) as [c' b]. cbn [fst] in Hc.
  destruct b; cbn [fst flat_map].
  - by apply sublist_app.
  - destruct (removeEach rm cs) as [rest' r]. cbn [fst flat_map] in *.
    by apply sublist_app.
Qed.

(** A removal adds no id, whatever the ids of the tree are. *)
Lemma removeNodeFromTree_sublist t i :
  sublist (rawIds (ImplApp.removeNodeFromTree t i).1) (rawIds t).
Proof.
  induction t as [nm rid ty|nm rid ty cs IH] using TTreeNode_nested_ind;
    [done|].
  rewrite removeNodeFromTree_eq. cbn zeta.
  destruct (negb _); cbn [fst].
  - rewrite !rawIds_unfold.
    cbn [TTreeNode.id TTreeNode.children from_option id].
    apply sublist_skip, flat_map_sublist_same, sublist_delete.
  - pose proof (removeEach_sublist
                  (fun c => ImplApp.removeNodeFromTree c i) cs IH) as H.
    destruct (removeEach _ cs) as [cs' b]. cbn [fst] in *.
    rewrite !rawIds_unfold.
    cbn [TTreeNode.id TTreeNode.children from_option id].
    by apply sublist_skip.
Qed.

Lemma removeAll_sublist items t :
  sublist (rawIds (ImplApp.removeAll items t)) (rawIds t).
Proof.
  unfold ImplApp.removeAll. revert t.
  induction items as [|y items IH]; intros t; [done|]. cbn [fold_left].
  etrans; [apply IH|apply removeNodeFromTree_sublist].
Qed.

(** X23.  The owner leaves the tree exactly as it was whenever the target
    parent cannot be found after the removals: when the parent id names no
    node, and, with unique ids, when the parent lies inside one of the
    items that are nodes of the tree. *)
Theorem owner_rejects_cycle (payload : DragEndPayload) (prevTree : TTreeNode)
    (x : TTreeNode) :
  let parentId := TTreeNode.id (payload_parent payload) in
  (ImplApp.findNodeByIdMutable
     (ImplApp.removeAll (payload_items payload) prevTree) parentId = None ->
   ImplApp.handleDragEnd payload prevTree = prevTree)
  /\ (parentId ∉ rawIds prevTree ->
      ImplApp.handleDragEnd payload prevTree = prevTree)
  /\ (NoDup (rawIds prevTree) ->
      x ∈ payload_items payload -> x ∈ tail (rawPreorder prevTree) ->
      parentId ∈ rawIds x ->
      ImplApp.handleDragEnd payload prevTree = prevTree).
Proof.
  intros parentId.
  assert (Hnone :
    ImplApp.findNodeByIdMutable
      (ImplApp.removeAll (payload_items payload) prevTree) parentId = None ->
    ImplApp.handleDragEnd payload prevTree = prevTree).
  { intros H. unfold ImplApp.handleDragEnd. fold parentId.
    apply (updateFound_none
             (ImplApp.insertChildren (insertAt payload) (payload_items payload)))
      in H.
    by rewrite H. }
  split; [exact Hnone|]. split.
  - intros Hnot. apply Hnone, findNodeByIdMutable_none. intros Hin.
    apply Hnot. eapply elem_of_sublist; [exact Hin|apply removeAll_sublist].
  - intros Hn Hx Hxt Hin. apply Hnone, findNodeByIdMutable_none.
    rewrite removeAll_prune by done.
    apply (prune_drops_inside _ _ x); [done|done| |done].
    apply list_elem_of_fmap. by exists x.
Qed.

Lemma owner_rejects_cycle_witness :
  ImplApp.handleDragEnd
    (mkDragEndPayload [dirNode "A" [fileNode "A1"; fileNode "A2"]]
       (fileNode "A1") [] 0)
    exampleData
  = exampleData.
Proof.
  destruct (owner_rejects_cycle
              (mkDragEndPayload [dirNode "A" [fileNode "A1"; fileNode "A2"]]
                 (fileNode "A1") [] 0)
              exampleData (dirNode "A" [fileNode "A1"; fileNode "A2"]))
    as (_ & _ & H).
  apply H.
  - apply (bool_decide_unpack _). vm_compute. exact I.
  - apply list_elem_of_here.
  - vm_compute. left.
  - apply (bool_decide_unpack _). vm_compute. exact I.
Defined.

(** * Dropping a node where it already is *)

Lemma rawPreorder_trans t p c :
  p ∈ rawPreorder t -> c ∈ rawPreorder p -> c ∈ rawPreorder t.
Proof.
  induction t as [nm rid ty|nm rid ty cs IH] using TTreeNode_nested_ind.
  { by intros ->%list_elem_of_singleton. }
  rewrite (rawPreorder_unfold (TTreeNode.mk _ _ _ _)).
  intros [->|Hp]%elem_of_cons Hc; [by rewrite rawPreorder_unfold in Hc|].
  right. apply flat_map_elem_of in Hp as (ch & Hch & Hp).
  apply flat_map_elem_of. exists ch. split; [done|].
  rewrite Forall_forall in IH. by apply (IH ch).
Qed.

Lemma rawIds_elem t x : x ∈ rawPreorder t -> TTreeNode.id x ∈ rawIds t.
Proof. intros H. apply list_elem_of_fmap. by exists x. Qed.

(** With unique ids, cutting out a direct child leaves its siblings as they
    were. *)
Lemma prune_direct_child nm rid ty l1 c l2 :
  NoDup (rawIds (TTreeNode.mk nm rid ty (Some (l1 ++ c :: l2)))) ->
  prune [TTreeNode.id c] (TTreeNode.mk nm rid ty (Some (l1 ++ c :: l2)))
  = TTreeNode.mk nm rid ty (Some (l1 ++ l2)).
Proof.
  intros Hn.
  pose proof (removeNodeFromTree_prune _ (TTreeNode.id c) Hn) as E.
  rewrite removeNodeFromTree_eq in E. cbn zeta in E.
  assert (Hl1 : Forall (fun y => bool_decide (TTreeNode.id y = TTreeNode.id c)
                                 = false) l1).
  { rewrite rawIds_unfold in Hn. apply NoDup_cons in Hn as [_ Hn].
    cbn [TTreeNode.children from_option id] in Hn.
    rewrite flat_map_app in Hn. apply NoDup_app in Hn as (_ & Hd & _).
    apply Forall_forall. intros y Hy. apply bool_decide_eq_false. intros Ey.
    apply (Hd (TTreeNode.id y)).
    - apply flat_map_elem_of. exists y. split; [done|apply rawIds_self].
    - cbn [flat_map]. apply elem_of_app. left. rewrite Ey. apply rawIds_self. }
  rewrite (findIndex_first _ l1 c l2 Hl1) in E
    by by apply bool_decide_eq_true.
  replace (Z.of_nat (length l1) =? -1) with false in E
    by (symmetry; apply Z.eqb_neq; lia).
  cbn [negb] in E. rewrite Nat2Z.id, delete_middle in E.
  injection E as E1 _. cbn [prune]. by rewrite <- E1.
Qed.

(** With unique ids, removing a child of [p] and inserting it again at its
    old position gives back the tree. *)
Lemma reinsert_in_place t p l1 c l2 :
  NoDup (rawIds t) -> p ∈ rawPreorder t ->
  TTreeNode.children p = Some (l1 ++ c :: l2) ->
  ImplApp.updateFound (ImplApp.insertChildren (Z.of_nat (length l1)) [c])
    (prune [TTreeNode.id c] t) (TTreeNode.id p)
  = Some t.
Proof.
  induction t as [nm rid ty|nm rid ty cs IH] using TTreeNode_nested_ind;
    intros Hn Hp Hch.
  { apply list_elem_of_singleton in Hp as ->. done. }
  destruct (decide (rid = TTreeNode.id p)) as [E|E].
  - assert (p = TTreeNode.mk nm rid ty (Some cs)) as ->.
    { apply (unique_raw (TTreeNode.mk nm rid ty (Some cs))); [done|done| |done].
      rewrite rawPreorder_unfold. left. }
    cbn [TTreeNode.children] in Hch. injection Hch as ->.
    rewrite prune_direct_child by done. rewrite updateFound_eq.
    cbn [TTreeNode.id]. rewrite bool_decide_eq_true_2 by done.
    unfold ImplApp.insertChildren.
    cbn [TTreeNode.name TTreeNode.id TTreeNode.type TTreeNode.children
         from_option id].
    rewrite spliceInsert_in_range by (rewrite length_app; lia).
    rewrite Nat2Z.id, take_app_length, drop_app_length. done.
  - rewrite (rawPreorder_unfold (TTreeNode.mk _ _ _ _)) in Hp.
    apply elem_of_cons in Hp as [->|Hp]; [done|].
    cbn [TTreeNode.children from_option id] in Hp.
    apply flat_map_elem_of in Hp as (ch & Hchin & Hp).
    pose proof (NoDup_rawIds_child (TTreeNode.mk nm rid ty (Some cs)) cs ch
                  eq_refl Hn Hchin) as Hnch.
    assert (Hc : c ∈ tail (rawPreorder p)).
    { rewrite rawPreorder_unfold, Hch. cbn [tail from_option id].
      apply flat_map_elem_of. exists c. split; [|rewrite rawPreorder_unfold; left].
      apply elem_of_app. right. left. }
    assert (Hcch : TTreeNode.id c ∈ tail (rawIds ch)).
    { rewrite (rawPreorder_unfold ch) in Hp.
      apply elem_of_cons in Hp as [->|Hp].
      - unfold rawIds. rewrite (rawPreorder_unfold ch) in Hc |- *.
        cbn [tail map] in *. apply list_elem_of_fmap. by exists c.
      - rewrite rawIds_unfold. cbn [tail].
        apply flat_map_elem_of in Hp as (g & Hg & Hp).
        apply flat_map_elem_of. exists g. split; [done|].
        apply rawIds_elem, (rawPreorder_trans g p); [done|].
        by apply rawPreorder_tail. }
    assert (Hpch : TTreeNode.id p ∈ rawIds ch) by by apply rawIds_elem.
    rewrite rawIds_unfold in Hn.
    cbn [TTreeNode.id TTreeNode.children from_option id] in Hn.
    apply NoDup_cons in Hn as [_ Hn].
    apply list_elem_of_split in Hchin as (m1 & m2 & ->).
    assert (Hothers : forall a j, a ∈ m1 ++ m2 -> j ∈ rawIds ch -> j ∉ rawIds a).
    { intros a j Ha Hj Hja. rewrite flat_map_app in Hn. cbn [flat_map] in Hn.
      apply NoDup_app in Hn as (_ & Hd1 & Hn).
      apply NoDup_app in Hn as (_ & Hd2 & _).
      apply elem_of_app in Ha as [Ha|Ha].
      - apply (Hd1 j); [apply flat_map_elem_of; by exists a|].
        apply elem_of_app. by left.
      - apply (Hd2 j Hj). apply flat_map_elem_of. by exists a. }
    assert (Hsame : forall l, (forall a, a ∈ l -> a ∈ m1 ++ m2) ->
              List.filter
                (fun a => negb (bool_decide (TTreeNode.id a ∈ [TTreeNode.id c])))
                (map (prune [TTreeNode.id c]) l) = l).
    { induction l as [|a l IHl]; intros Hl; cbn [map List.filter]; [done|].
      assert (Ha : TTreeNode.id c ∉ rawIds a).
      { apply Hothers; [apply Hl; left|by apply rawIds_tail]. }
      rewrite prune_id, bool_decide_eq_false_2.
      - cbn [negb]. rewrite prune_absent, IHl; [done| |].
        + intros b Hb. apply Hl. by right.
        + intros j ->%list_elem_of_singleton Hj. by apply Ha, rawIds_tail.
      - intros Ea%list_elem_of_singleton. apply Ha. rewrite <- Ea.
        apply rawIds_self. }
    cbn [prune]. rewrite map_app, List.filter_app. cbn [map List.filter].
    rewrite prune_id, bool_decide_eq_false_2.
    2:{ intros Ec%list_elem_of_singleton.
        rewrite rawIds_unfold in Hnch. apply NoDup_cons in Hnch as [Hnot _].
        apply Hnot. rewrite Ec. by rewrite rawIds_unfold in Hcch. }
    cbn [negb].
    rewrite !Hsame by (intros a Ha; apply elem_of_app; auto).
    rewrite updateFound_eq, bool_decide_eq_false_2 by done.
    rewrite Forall_forall in IH.
    rewrite (updateEach_at _ m1 (prune [TTreeNode.id c] ch) ch m2); [done| |].
    + apply Forall_forall. intros a Ha. apply updateFound_none.
      apply findNodeByIdMutable_none. apply Hothers; [|done].
      apply elem_of_app. by left.
    + apply IH; [|done|done|done]. apply elem_of_app. right. left.
Qed.

Lemma ancestors_depth data q :
  let root := buildInternalTree data None 0 in
  q ∈ preorder root ->
  forall a, a ∈ ancestors q -> a ∈ preorder root /\ depth a < depth q.
Proof.
  intros root.
  destruct (build_mirrors_raw data) as (_ & _ & _ & Hstep). fold root in Hstep.
  induction q as [t|t p IH] using InternalTreeNode_chain_ind; intros Hq a Ha.
  { by apply elem_of_nil in Ha. }
  rewrite ancestors_eq in Ha. cbn [parent] in Ha.
  destruct (Hstep _ p Hq eq_refl) as (Hd & Hp & _).
  apply elem_of_cons in Ha as [->|Ha]; [split; [done|lia]|].
  destruct (IH Hp a Ha) as [Hin Hlt]. split; [done|lia].
Qed.

(** In a tree with unique ids a node is not named like its parent or any
    node above it. *)
Lemma parent_chain_free data n q :
  let root := buildInternalTree data None 0 in
  uniqueIds root -> n ∈ preorder root -> parent n = Some q ->
  item_id n ∉ chainIds q.
Proof.
  intros root Hu Hn Hq.
  destruct (build_mirrors_raw data) as (_ & _ & _ & Hstep). fold root in Hstep.
  destruct (Hstep n q Hn Hq) as (Hd & Hqin & _).
  intros (a & E & Ha)%list_elem_of_fmap.
  assert (Hain : a ∈ preorder root /\ depth a <= depth q).
  { apply elem_of_cons in Ha as [->|Ha]; [split; [done|lia]|].
    destruct (ancestors_depth data q Hqin a Ha). split; [done|lia]. }
  destruct Hain as [Hain Hle].
  assert (n = a) by by apply (unique_node root). subst a. lia.
Qed.

Lemma draggedNodesOf_single flat x :
  NoDup (map entry_id flat) -> x ∈ flat ->
  draggedNodesOf flat [entry_id x] = [node x].
Proof.
  intros Hn Hx. unfold draggedNodesOf. cbn [omap list_omap].
  by rewrite (find_nodup flat x Hn Hx).
Qed.

(** X24.  Dropping a single dragged row directly above or below itself
    changes nothing: the payload carries the node, its parent and its old
    position, and the tree the owner returns is the previous tree. *)
Theorem drop_in_place (data : TTreeNode) (ev : DragEndEvent) (s : TreeStore)
    (x : SelectableTreeNode) (q : InternalTreeNode) :
  let root := buildInternalTree data None 0 in
  let flat := useSelectableItems root (collapsed s) in
  let n := node x in
  let hp := hoveredParent s in
  uniqueIds root ->
  x ∈ flat ->
  draggingIds s = [item_id n] ->
  is_Some (end_over ev) ->
  parent n = Some q ->
  parentId hp = Some (item_id q) ->
  item_id q <> EmptyString ->
  childIndex hp = Some (getChildIndex n)
  \/ childIndex hp = Some (getChildIndex n + 1) ->
  exists payload,
    (handleDragEnd root ev s).2 = Some payload
    /\ payload_items payload = [item n]
    /\ payload_parent payload = item q
    /\ insertAt payload = getChildIndex n
    /\ ImplApp.handleDragEnd payload data = data.
Proof.
  intros root flat n hp Hu Hx Hdrag [ov Hov] Hq Hpid Hne Hci.
  destruct (visible_node_position data (collapsed s) x Hu Hx)
    as (p & cs & k & Hpin & Hp & Hcs & Hk & Hidx).
  fold root n in Hpin, Hp, Hk, Hidx. rewrite Hq in Hp. injection Hp as <-.
  assert (Hn : n ∈ preorder root).
  { apply descendants_preorder. by apply (flat_nodes_descendants data (collapsed s)). }
  pose proof (children_nodup root q Hu Hpin) as Hnd. rewrite Hcs in Hnd.
  cbn [from_option id] in Hnd.
  assert (Hvalid : validNodesOf q [n] = [n]).
  { apply (validNodesOf_clean q [n] [item_id n]).
    - intros d ->%list_elem_of_singleton.
      by apply (parent_chain_free data n q).
    - intros v ->%list_elem_of_singleton. left. }
  assert (Hstep : forall ci, ci = Z.of_nat k \/ ci = Z.of_nat k + 1 ->
            removeDragged (cs, ci) n = (delete k cs, Z.of_nat k)).
  { intros ci Hc. destruct (removeDragged_step cs ci n Hnd) as [Hrm _].
    rewrite (Hrm k n Hk eq_refl). f_equal.
    destruct Hc as [->| ->].
    - by rewrite Z.ltb_irrefl.
    - replace (Z.of_nat k <? Z.of_nat k + 1) with true
        by (symmetry; apply Z.ltb_lt; lia). lia. }
  assert (Hpayload : (handleDragEnd root ev s).2
            = Some (mkDragEndPayload [item n] (item q)
                      (map item (delete k cs)) (Z.of_nat k))).
  { unfold handleDragEnd. cbn [snd]. fold flat hp. rewrite Hov, Hpid.
    assert (truthy (item_id q) = true) as ->.
    { destruct (truthy (item_id q)) eqn:Et; [done|].
      by apply truthy_false in Et. }
    rewrite (findNodeById_unique root q Hu Hpin), Hdrag.
    change (item_id n) with (entry_id x).
    rewrite (draggedNodesOf_single flat x (flat_ids_nodup data _ Hu) Hx).
    fold n. rewrite Hvalid, Hcs. cbn [from_option id fold_left].
    destruct Hci as [-> | ->]; rewrite Hidx, Hstep by auto; done. }
  eexists. split; [exact Hpayload|].
  cbn [payload_items payload_parent insertAt]. repeat split; [done|].
  unfold ImplApp.handleDragEnd.
  cbn [payload_items payload_parent insertAt].
  assert (HnD : NoDup (rawIds data)) by by rewrite <- built_ids.
  rewrite removeAll_prune by done. cbn [map].
  pose proof (built_children data q Hpin) as Hraw. rewrite Hcs in Hraw.
  cbn [from_option id] in Hraw.
  destruct (TTreeNode.children (item q)) as [rcs|] eqn:Erc;
    cbn [from_option id] in Hraw.
  2:{ apply map_eq_nil in Hraw. by subst cs. }
  assert (Hrk : rcs !! k = Some (item n)).
  { rewrite <- Hraw, list_lookup_fmap, Hk. done. }
  pose proof (take_drop_middle rcs k (item n) Hrk) as Hsplit.
  pose proof (lookup_lt_Some _ _ _ Hrk) as Hlt.
  replace (Z.of_nat k) with (Z.of_nat (length (take k rcs)))
    by (rewrite length_take; lia).
  rewrite (reinsert_in_place data (item q) (take k rcs) (item n)
             (drop (S k) rcs)); [done|done| |by rewrite Hsplit].
  rewrite <- (buildSubtree_items data 0 None). apply list_elem_of_fmap.
  by exists q.
Qed.

Lemma drop_in_place_witness :
  exists payload,
    (handleDragEnd exampleRoot dropEvent
       (hoverStore ["B"%string]
          (mkHoveredParent (Some "root"%string) (Some 0) (Some 4) (Some 2)
             (Some below)))).2 = Some payload
    /\ payload_items payload = [item (node entryB)]
    /\ payload_parent payload = item exampleRoot
    /\ insertAt payload = getChildIndex (node entryB)
    /\ ImplApp.handleDragEnd payload exampleData = exampleData.
Proof.
  apply (drop_in_place exampleData dropEvent
           (hoverStore ["B"%string]
              (mkHoveredParent (Some "root"%string) (Some 0) (Some 4) (Some 2)
                 (Some below)))
           entryB exampleRoot).
  - apply (bool_decide_unpack _). vm_compute. exact I.
  - vm_compute. do 3 right. left.
  - reflexivity.
  - by eexists.
  - reflexivity.
  - reflexivity.
  - done.
  - right. vm_compute. reflexivity.
Defined.

(** * Where a dropped row appears *)

Lemma rows_eq c t :
  rows c t
  = TTreeNode.id t
    :: if isCollapsedIn c (TTreeNode.id t) then [] else rawFlat c t.
Proof. by destruct t as [nm i ty [cs|]]. Qed.

Lemma filter_flat_map {A B} (f : B -> bool) (g : A -> list B) l :
  List.filter f (flat_map g l) = flat_map (fun a => List.filter f (g a)) l.
Proof.
  induction l as [|a l IH]; simpl; [done|].
  by rewrite List.filter_app, IH.
Qed.

Lemma flat_map_pointwise {A B} (f g : A -> list B) l :
  Forall (fun a => f a = g a) l -> flat_map f l = flat_map g l.
Proof. induction 1 as [|a l Ha _ IH]; simpl; [done|]. by rewrite Ha, IH. Qed.

Lemma flat_map_nil_all {A B} (f : A -> list B) l :
  Forall (fun a => f a = []) l -> flat_map f l = [].
Proof. induction 1 as [|a l Ha _ IH]; simpl; [done|]. by rewrite Ha, IH. Qed.

(** The visible nodes of a built subtree, by ids. *)
Lemma visible_rows c raw :
  forall d par,
    map item_id
      (List.filter (ancestorsExpanded c)
         (preorder_sub (buildSubtree raw d) (Some par)))
    = if ancestorsExpanded c (mkInternalTreeNode (buildSubtree raw d) (Some par))
      then rows c raw else [].
Proof.
  induction raw as [nm i ty|nm i ty cs IH] using TTreeNode_nested_ind;
    intros d par.
  { cbn [buildSubtree preorder_sub List.filter].
    destruct (ancestorsExpanded c _); [|done]. cbn.
    by destruct (isCollapsedIn c i). }
  set (n0 := mkInternalTreeNode
               (buildSubtree (TTreeNode.mk nm i ty (Some cs)) d) (Some par)).
  destruct (ancestorsExpanded c n0) eqn:Evis.
  2:{ by rewrite filter_hidden_subtree. }
  rewrite preorder_sub_unfold. fold n0. cbn [List.filter]. rewrite Evis.
  cbn [map]. rewrite rows_eq. f_equal.
  rewrite filter_flat_map, map_flat_map.
  assert (Hchild : forall t,
            ancestorsExpanded c (mkInternalTreeNode t (Some n0))
            = negb (isCollapsedIn c i)).
  { intros t. rewrite ancestorsExpanded_child, Evis, andb_true_r. done. }
  cbn [TTreeNode.id]. unfold rawFlat. cbn [TTreeNode.children from_option id].
  destruct cs as [|c0 cs0].
  { cbn. by destruct (isCollapsedIn c i). }
  cbn [buildSubtree sub_children from_option id]. rewrite flat_map_map.
  destruct (isCollapsedIn c i) eqn:Ecol.
  - apply flat_map_nil_all, Forall_forall. intros rc Hrc.
    rewrite Forall_forall in IH. rewrite (IH rc Hrc). fold n0.
    by rewrite Hchild.
  - apply flat_map_pointwise, Forall_forall. intros rc Hrc.
    rewrite Forall_forall in IH. rewrite (IH rc Hrc). fold n0.
    by rewrite Hchild.
Qed.

(** The ids of the flat sequence are the rows of the root's children. *)
Lemma flat_ids_raw data c :
  map entry_id (useSelectableItems (buildInternalTree data None 0) c)
  = rawFlat c data.
Proof.
  rewrite useSelectableItems_built.
  change (map entry_id) with (map (fun x => item_id (node x))).
  rewrite <- (map_map node item_id), numbered_node.
  rewrite descendants_unfold, filter_flat_map, map_flat_map.
  rewrite children_spec, flat_map_map. unfold rawFlat.
  destruct data as [nm i ty [[|c0 cs0]|]]; try done.
  cbn [buildInternalTree subtree buildSubtree sub_children from_option id
       TTreeNode.children].
  rewrite flat_map_map. apply flat_map_pointwise, Forall_forall.
  intros rc _. unfold preorder. cbn [subtree parent].
  rewrite visible_rows, ancestorsExpanded_child.
  unfold buildInternalTree. by rewrite ancestorsExpanded_root.
Qed.

Lemma rows_sub c t j : j ∈ rows c t -> j ∈ rawIds t.
Proof.
  induction t as [nm i ty|nm i ty cs IH] using TTreeNode_nested_ind.
  { cbn. destruct (isCollapsedIn c i); by intros ->%list_elem_of_singleton; left. }
  rewrite rows_eq, rawIds_unfold. unfold rawFlat.
  cbn [TTreeNode.id TTreeNode.children from_option id].
  intros [->|Hj]%elem_of_cons; [left|right].
  destruct (isCollapsedIn c i); [by apply elem_of_nil in Hj|].
  apply flat_map_elem_of in Hj as (ch & Hch & Hj).
  apply flat_map_elem_of. exists ch. split; [done|].
  rewrite Forall_forall in IH. by apply IH.
Qed.

Lemma children_default t :
  default [] (TTreeNode.children t) <> [] ->
  TTreeNode.children t = Some (default [] (TTreeNode.children t)).
Proof. by destruct (TTreeNode.children t). Qed.

Lemma rawFlat_children c t :
  rawFlat c t = flat_map (rows c) (default [] (TTreeNode.children t)).
Proof. reflexivity. Qed.

Lemma SplitAt_flat c t pid L R B A :
  SplitAt c t pid L R B A -> rawFlat c t = B ++ A.
Proof.
  induction 1 as [t L R Hc|t pid l1 ch l2 L R b a Hc Hne Hcol _ IH].
  - unfold rawFlat. by rewrite Hc, flat_map_app.
  - unfold rawFlat. rewrite Hc. cbn [from_option id].
    rewrite flat_map_app. cbn [flat_map]. rewrite rows_eq, Hcol, IH.
    rewrite <- !app_assoc. cbn [app]. by rewrite <- !app_assoc.
Qed.

Lemma SplitAt_node c t pid L R B A :
  SplitAt c t pid L R B A ->
  exists p, p ∈ rawPreorder t /\ TTreeNode.id p = pid
            /\ default [] (TTreeNode.children p) = L ++ R.
Proof.
  induction 1 as [t L R Hc|t pid l1 ch l2 L R b a Hc Hne Hcol _ IH].
  - exists t. split; [rewrite rawPreorder_unfold; left|done].
  - destruct IH as (p & Hp & Hid & Hch). exists p. split; [|done].
    rewrite rawPreorder_unfold, Hc. right. apply flat_map_elem_of. exists ch.
    split; [|done]. apply elem_of_app. right. left.
Qed.

Lemma tail_rawIds_sub t p :
  p ∈ tail (rawPreorder t) -> forall j, j ∈ rawIds p -> j ∈ tail (rawIds t).
Proof.
  intros Hp j Hj. rewrite rawPreorder_unfold in Hp. cbn [tail] in Hp.
  apply flat_map_elem_of in Hp as (ch & Hch & Hp).
  rewrite rawIds_unfold. cbn [tail]. apply flat_map_elem_of. exists ch.
  split; [done|]. by apply (rawIds_sub ch p).
Qed.

Lemma root_id_once t : NoDup (rawIds t) -> TTreeNode.id t ∉ tail (rawIds t).
Proof.
  rewrite rawIds_unfold. cbn [tail]. by intros [H _]%NoDup_cons.
Qed.

(** With unique ids, the split at a child that is shown exists, before the
    child and after it. *)
Lemma split_exists c t p L x R :
  NoDup (rawIds t) -> p ∈ rawPreorder t ->
  default [] (TTreeNode.children p) = L ++ x :: R ->
  TTreeNode.id x ∈ rawFlat c t ->
  exists B A,
    SplitAt c t (TTreeNode.id p) L (x :: R) B (rows c x ++ A)
    /\ SplitAt c t (TTreeNode.id p) (L ++ [x]) R (B ++ rows c x) A.
Proof.
  induction t as [nm i ty|nm i ty cs IH] using TTreeNode_nested_ind;
    intros Hn Hp Hch Hx.
  { by apply elem_of_nil in Hx. }
  destruct (decide (i = TTreeNode.id p)) as [E|E].
  - assert (p = TTreeNode.mk nm i ty (Some cs)) as ->.
    { apply (unique_raw (TTreeNode.mk nm i ty (Some cs))); [done|done| |done].
      rewrite rawPreorder_unfold. left. }
    exists (flat_map (rows c) L), (flat_map (rows c) R). split.
    + by apply (split_here c (TTreeNode.mk nm i ty (Some cs)) L (x :: R)).
    + pose proof (split_here c (TTreeNode.mk nm i ty (Some cs)) (L ++ [x]) R)
        as H.
      rewrite flat_map_app in H. cbn [flat_map] in H.
      rewrite app_nil_r in H. apply H. by rewrite <- app_assoc.
  - rewrite (rawPreorder_unfold (TTreeNode.mk _ _ _ _)) in Hp.
    apply elem_of_cons in Hp as [Ep|Hp]; [by subst p|].
    cbn [TTreeNode.children from_option id] in Hp.
    apply flat_map_elem_of in Hp as (ch & Hchin & Hp).
    pose proof (NoDup_rawIds_child (TTreeNode.mk nm i ty (Some cs)) cs ch
                  eq_refl Hn Hchin) as Hnch.
    assert (Hxp : x ∈ tail (rawPreorder p)).
    { rewrite rawPreorder_unfold, Hch. cbn [tail].
      apply flat_map_elem_of. exists x. split; [|rewrite rawPreorder_unfold; left].
      apply elem_of_app. right. left. }
    assert (Hxch : TTreeNode.id x ∈ tail (rawIds ch)).
    { rewrite (rawPreorder_unfold ch) in Hp.
      apply elem_of_cons in Hp as [->|Hp].
      - apply (tail_rawIds_sub ch x Hxp), rawIds_self.
      - apply (tail_rawIds_sub ch p); [by rewrite rawPreorder_unfold|].
        apply rawIds_elem. by apply rawPreorder_tail. }
    unfold rawFlat in Hx. cbn [TTreeNode.children from_option id] in Hx.
    apply flat_map_elem_of in Hx as (ch' & Hch' & Hx').
    rewrite rawIds_unfold in Hn.
    cbn [TTreeNode.id TTreeNode.children from_option id] in Hn.
    apply NoDup_cons in Hn as [_ Hn].
    destruct (NoDup_flat_map_same rawIds cs ch ch' (TTreeNode.id x) Hn Hchin
                Hch' (rawIds_tail _ _ Hxch) (rows_sub c ch' _ Hx'))
      as (l1 & l2 & -> & Ech). subst ch'.
    rewrite rows_eq in Hx'. apply elem_of_cons in Hx' as [Ex|Hx'].
    { exfalso. apply (root_id_once ch Hnch). by rewrite <- Ex. }
    destruct (isCollapsedIn c (TTreeNode.id ch)) eqn:Ecol;
      [by apply elem_of_nil in Hx'|].
    rewrite Forall_forall in IH.
    destruct (IH ch Hchin Hnch Hp Hch Hx') as (B & A & H1 & H2).
    exists (flat_map (rows c) l1 ++ TTreeNode.id ch :: B),
      (A ++ flat_map (rows c) l2).
    split.
    + rewrite app_assoc.
      by apply (split_below c (TTreeNode.mk nm i ty (Some (l1 ++ ch :: l2)))
                  (TTreeNode.id p) l1 ch l2).
    + rewrite <- app_assoc. cbn [app].
      by apply (split_below c (TTreeNode.mk nm i ty (Some (l1 ++ ch :: l2)))
                  (TTreeNode.id p) l1 ch l2).
Qed.

Lemma pruned_app I l1 l2 : pruned I (l1 ++ l2) = pruned I l1 ++ pruned I l2.
Proof. unfold pruned. by rewrite map_app, List.filter_app. Qed.

Lemma pruned_cons I ch l :
  pruned I (ch :: l)
  = if bool_decide (TTreeNode.id ch ∈ I) then pruned I l
    else prune I ch :: pruned I l.
Proof.
  unfold pruned. cbn [map List.filter]. rewrite prune_id.
  by destruct (bool_decide _).
Qed.

Lemma prune_children_pruned I t :
  default [] (TTreeNode.children (prune I t))
  = pruned I (default [] (TTreeNode.children t)).
Proof. by destruct t as [nm i ty [cs|]]. Qed.

Lemma unmoved_app moved l1 l2 :
  unmoved moved (l1 ++ l2) = unmoved moved l1 ++ unmoved moved l2.
Proof. apply List.filter_app. Qed.

(** A child that is not cut out keeps its id in the flat sequence, and the
    moved ids below it are again those of subtrees cut out below it. *)
Lemma child_kept I moved t ch :
  NoDup (rawIds t) -> movedWithin I moved t ->
  ch ∈ default [] (TTreeNode.children t) ->
  TTreeNode.id ch ∉ I ->
  (TTreeNode.id ch ∉ moved) /\ NoDup (rawIds ch) /\ movedWithin I moved ch.
Proof.
  intros Hn [Hin Hout] Hch HchI.
  assert (Hcs : TTreeNode.children t
                = Some (default [] (TTreeNode.children t))).
  { apply children_default. intros E. rewrite E in Hch.
    by apply elem_of_nil in Hch. }
  pose proof (NoDup_rawIds_child t _ ch Hcs Hn Hch) as Hnch.
  assert (Hroot : forall z j,
            z ∈ tail (rawPreorder t) -> j ∈ rawIds z -> j ∈ rawIds ch ->
            z ∈ rawPreorder ch).
  { intros z j Hz Hjz Hjch. rewrite rawPreorder_unfold in Hz. cbn [tail] in Hz.
    apply flat_map_elem_of in Hz as (ch' & Hch' & Hz).
    rewrite rawIds_unfold in Hn. apply NoDup_cons in Hn as [_ Hn].
    destruct (NoDup_flat_map_same rawIds _ ch' ch j Hn Hch' Hch
                (rawIds_sub ch' z j Hz Hjz) Hjch) as (_ & _ & _ & E).
    by subst ch'. }
  assert (Hbelow : forall z j,
            z ∈ tail (rawPreorder t) -> TTreeNode.id z ∈ I ->
            j ∈ rawIds z -> j ∈ rawIds ch -> z ∈ tail (rawPreorder ch)).
  { intros z j Hz HzI Hjz Hjch.
    pose proof (Hroot z j Hz Hjz Hjch) as Hzch.
    rewrite rawPreorder_unfold in Hzch |- *.
    apply elem_of_cons in Hzch as [->|Hzch]; done. }
  split; [|split; [done|split]].
  - intros Hm.
    destruct (Hin _ Hm) as (z & Hz & HzI & Hjz).
    { apply (rawIds_child t _ ch _ Hcs Hch), rawIds_self. }
    pose proof (Hbelow z _ Hz HzI Hjz (rawIds_self ch)) as Hzt.
    apply (root_id_once ch Hnch). by apply (tail_rawIds_sub ch z).
  - intros j Hj Hjch.
    destruct (Hin j Hj) as (z & Hz & HzI & Hjz).
    { apply (rawIds_child t _ ch _ Hcs Hch). by apply rawIds_tail. }
    exists z. split; [|done].
    apply (Hbelow z j Hz HzI Hjz). by apply rawIds_tail.
  - intros z Hz. apply Hout.
    rewrite rawPreorder_unfold, Hcs. cbn [tail from_option id].
    apply flat_map_elem_of. exists ch. split; [done|].
    by apply rawPreorder_tail.
Qed.

Lemma child_moved I moved t ch :
  movedWithin I moved t ->
  ch ∈ default [] (TTreeNode.children t) ->
  TTreeNode.id ch ∈ I ->
  forall c, unmoved moved (rows c ch) = [].
Proof.
  intros [_ Hout] Hch HchI c. apply filter_none, Forall_forall.
  intros j Hj. apply negb_false_iff, bool_decide_eq_true.
  apply (Hout ch); [|done|by apply (rows_sub c)].
  rewrite rawPreorder_unfold. cbn [tail]. apply flat_map_elem_of.
  exists ch. split; [done|]. rewrite rawPreorder_unfold. left.
Qed.

(** The flat sequence of the pruned tree is the flat sequence without the
    moved rows. *)
Lemma rawFlat_prune c I moved t :
  NoDup (rawIds t) -> movedWithin I moved t ->
  rawFlat c (prune I t) = unmoved moved (rawFlat c t).
Proof.
  induction t as [nm i ty|nm i ty cs IH] using TTreeNode_nested_ind;
    intros Hn Hm; [done|].
  unfold rawFlat. rewrite prune_children_pruned.
  cbn [TTreeNode.children from_option id].
  assert (Hall : forall l, (forall ch, ch ∈ l -> ch ∈ cs) ->
            flat_map (rows c) (pruned I l)
            = unmoved moved (flat_map (rows c) l)).
  { induction l as [|ch l IHl]; intros Hl; [done|].
    assert (Hch : ch ∈ cs) by (apply Hl; left).
    rewrite pruned_cons. cbn [flat_map]. rewrite unmoved_app.
    rewrite <- IHl by (intros a Ha; apply Hl; by right).
    case_bool_decide as E.
    - by rewrite (child_moved I moved _ ch Hm Hch E).
    - destruct (child_kept I moved _ ch Hn Hm Hch E) as (Hk & Hnch & Hmch).
      cbn [flat_map]. f_equal. rewrite !rows_eq, prune_id.
      unfold unmoved at 1. cbn [List.filter].
      rewrite bool_decide_eq_false_2 by done. cbn [negb]. f_equal.
      destruct (isCollapsedIn c (TTreeNode.id ch)); [done|].
      rewrite Forall_forall in IH. by apply IH. }
  apply Hall. auto.
Qed.

Lemma rows_pruned c I moved t l :
  NoDup (rawIds t) -> movedWithin I moved t ->
  (forall ch, ch ∈ l -> ch ∈ default [] (TTreeNode.children t)) ->
  flat_map (rows c) (pruned I l) = unmoved moved (flat_map (rows c) l).
Proof.
  intros Hn Hm. induction l as [|ch l IHl]; intros Hl; [done|].
  assert (Hch : ch ∈ default [] (TTreeNode.children t)) by (apply Hl; left).
  rewrite pruned_cons. cbn [flat_map]. rewrite unmoved_app.
  rewrite <- IHl by (intros a Ha; apply Hl; by right).
  case_bool_decide as E.
  - by rewrite (child_moved I moved _ ch Hm Hch E).
  - destruct (child_kept I moved _ ch Hn Hm Hch E) as (Hk & Hnch & Hmch).
    cbn [flat_map]. f_equal. rewrite !rows_eq, prune_id.
    unfold unmoved at 1. cbn [List.filter].
    rewrite bool_decide_eq_false_2 by done. cbn [negb]. f_equal.
    destruct (isCollapsedIn c (TTreeNode.id ch)); [done|].
    by apply rawFlat_prune.
Qed.

(** Pruning keeps a split whose node lies in no subtree that is cut out. *)
Lemma SplitAt_prune c I moved t pid L R B A :
  SplitAt c t pid L R B A ->
  NoDup (rawIds t) -> movedWithin I moved t ->
  (forall z, z ∈ tail (rawPreorder t) -> TTreeNode.id z ∈ I ->
             pid ∉ rawIds z) ->
  SplitAt c (prune I t) pid (pruned I L) (pruned I R)
    (unmoved moved B) (unmoved moved A).
Proof.
  induction 1 as [t L R Hc|t pid l1 ch l2 L R b a Hc Hne Hcol Hs IH];
    intros Hn Hm Hclean.
  - rewrite <- (prune_id I t).
    rewrite <- (rows_pruned c I moved t L), <- (rows_pruned c I moved t R);
      try done.
    + apply split_here. by rewrite prune_children_pruned, Hc, pruned_app.
    + intros a Ha. rewrite Hc. apply elem_of_app. by right.
    + intros a Ha. rewrite Hc. apply elem_of_app. by left.
  - assert (Hch' : ch ∈ l1 ++ ch :: l2) by (apply elem_of_app; right; left).
    assert (Hch : ch ∈ default [] (TTreeNode.children t)) by by rewrite Hc.
    destruct (SplitAt_node c ch pid L R b a Hs) as (p & Hp & Hid & _).
    assert (HchI : TTreeNode.id ch ∉ I).
    { intros HI. apply (Hclean ch); [|done|].
      - rewrite rawPreorder_unfold, Hc. cbn [tail from_option id].
        apply flat_map_elem_of. exists ch. split; [done|].
        rewrite rawPreorder_unfold. left.
      - rewrite <- Hid. by apply rawIds_elem. }
    destruct (child_kept I moved t ch Hn Hm Hch HchI) as (Hk & Hnch & Hmch).
    rewrite !unmoved_app. unfold unmoved at 2. cbn [List.filter].
    rewrite bool_decide_eq_false_2 by done. cbn [negb].
    fold (unmoved moved b).
    rewrite <- (rows_pruned c I moved t l1), <- (rows_pruned c I moved t l2);
      try done.
    + rewrite <- (prune_id I ch).
      apply (split_below c (prune I t) pid (pruned I l1) (prune I ch)
               (pruned I l2)).
      * destruct t as [nm i ty chs]. cbn [TTreeNode.children] in Hc.
        subst chs. cbn [prune TTreeNode.children]. f_equal.
        fold (pruned I (l1 ++ ch :: l2)).
        rewrite pruned_app, pruned_cons.
        by rewrite bool_decide_eq_false_2.
      * by rewrite prune_id.
      * by rewrite prune_id.
      * apply IH; [done|done|].
        intros z Hz. apply Hclean.
        rewrite rawPreorder_unfold, Hc. cbn [tail from_option id].
        apply flat_map_elem_of. exists ch. split; [done|].
        by apply rawPreorder_tail.
    + intros a0 Ha. rewrite Hc. cbn [from_option id].
      apply elem_of_app. right. by right.
    + intros a0 Ha. rewrite Hc. cbn [from_option id].
      apply elem_of_app. by left.
Qed.

Lemma updateFound_id f t i t' :
  (forall y, TTreeNode.id (f y) = TTreeNode.id y) ->
  ImplApp.updateFound f t i = Some t' -> TTreeNode.id t' = TTreeNode.id t.
Proof.
  intros Hid. destruct t as [nm rid ty ch]. rewrite updateFound_eq.
  case_bool_decide; [intros [= <-]; apply Hid|].
  destruct ch as [cs|]; [|done].
  destruct (updateEach _ cs); [|done]. by intros [= <-].
Qed.

(** Inserting at a split puts the rows of the new children where the split
    is. *)
Lemma SplitAt_insert c t pid L R B A new :
  SplitAt c t pid L R B A -> NoDup (rawIds t) ->
  exists t',
    ImplApp.updateFound
      (ImplApp.insertChildren (Z.of_nat (length L)) new) t pid = Some t'
    /\ rawFlat c t' = B ++ flat_map (rows c) new ++ A.
Proof.
  induction 1 as [t L R Hc|t pid l1 ch l2 L R b a Hc Hne Hcol Hs IH];
    intros Hn.
  - destruct t as [nm i ty chs]. cbn [TTreeNode.id] in *.
    rewrite updateFound_eq, bool_decide_eq_true_2 by done.
    eexists. split; [done|]. unfold rawFlat, ImplApp.insertChildren.
    cbn [TTreeNode.children from_option id] in *. rewrite Hc.
    rewrite spliceInsert_in_range by (rewrite length_app; lia).
    rewrite Nat2Z.id, take_app_length, drop_app_length.
    by rewrite !flat_map_app.
  - destruct t as [nm i ty chs]. cbn [TTreeNode.id TTreeNode.children] in *.
    subst chs.
    pose proof (NoDup_rawIds_child
                  (TTreeNode.mk nm i ty (Some (l1 ++ ch :: l2))) _ ch eq_refl Hn)
      as Hnch.
    destruct IH as (ch' & Hup & Hflat).
    { apply Hnch, elem_of_app. right. left. }
    destruct (SplitAt_node c ch pid L R b a Hs) as (p & Hp & Hid & _).
    rewrite updateFound_eq, bool_decide_eq_false_2 by done.
    rewrite (updateEach_at _ l1 ch ch' l2); [|
      |exact Hup].
    + eexists. split; [done|]. unfold rawFlat.
      cbn [TTreeNode.children from_option id].
      rewrite flat_map_app. cbn [flat_map].
      rewrite rows_eq, (updateFound_id _ _ _ _ (insertChildren_id _ _) Hup).
      rewrite Hcol, Hflat. rewrite <- !app_assoc. cbn [app].
      by rewrite <- !app_assoc.
    + apply Forall_forall. intros a0 Ha. apply updateFound_none.
      apply findNodeByIdMutable_none. intros Hin.
      rewrite rawIds_unfold in Hn.
      cbn [TTreeNode.children from_option id] in Hn.
      apply NoDup_cons in Hn as [_ Hn].
      rewrite flat_map_app in Hn. apply NoDup_app in Hn as (_ & Hd & _).
      apply (Hd pid).
      * apply flat_map_elem_of. by exists a0.
      * cbn [flat_map]. apply elem_of_app. left. rewrite <- Hid.
        by apply rawIds_elem.
Qed.

Lemma numbered_elem ns x :
  x ∈ numbered 0 ns ->
  exists i : nat, numbered 0 ns !! i = Some x /\ index x = Z.of_nat i.
Proof.
  intros [i Hi]%list_elem_of_lookup. exists i. split; [done|].
  apply numbered_lookup in Hi. lia.
Qed.

(** The moved ids of a payload are the ids of the subtrees that the owner
    removes. *)
Lemma payload_movedWithin data (V : list InternalTreeNode) :
  let root := buildInternalTree data None 0 in
  uniqueIds root ->
  (forall v, v ∈ V -> v ∈ descendants root) ->
  movedWithin (map TTreeNode.id (map item V))
    (flat_map rawIds (map item V)) data.
Proof.
  intros root Hu HV.
  assert (Hn : NoDup (rawIds data)) by by rewrite <- built_ids.
  assert (Hitem : forall v, v ∈ V -> item v ∈ tail (rawPreorder data)).
  { intros v Hv. rewrite <- descendants_items. apply list_elem_of_fmap.
    exists v. split; [done|]. by apply HV. }
  split.
  - intros j (x & Hx & Hj)%flat_map_elem_of _.
    exists x. pose proof Hx as Hx'.
    apply list_elem_of_fmap in Hx as (v & -> & Hv).
    split; [by apply Hitem|]. split; [|done].
    apply list_elem_of_fmap. by exists (item v).
  - intros z Hz (x & E & Hx)%list_elem_of_fmap j Hj.
    pose proof Hx as Hx'.
    apply list_elem_of_fmap in Hx as (v & -> & Hv).
    assert (z = item v) as ->.
    { apply (unique_raw data); [done| | |done].
      - by apply rawPreorder_tail.
      - by apply rawPreorder_tail, Hitem. }
    apply flat_map_elem_of. by exists (item v).
Qed.

Lemma pruned_length V (l : list InternalTreeNode) :
  length (pruned (map TTreeNode.id (map item V)) (map item l))
  = length (List.filter (notDragged V) l).
Proof.
  unfold pruned.
  pose proof (filter_keeps_ids TTreeNode.id
                (prune (map TTreeNode.id (map item V)))
                (fun i => negb (bool_decide
                                  (i ∈ map TTreeNode.id (map item V))))
                (map item l) (prune_id _)) as E.
  cbn beta in E. rewrite E, length_map.
  rewrite <- (length_map TTreeNode.id), filter_items_ids.
  by rewrite !length_map.
Qed.

Lemma handleDragEnd_insertAt data ev s payload :
  let root := buildInternalTree data None 0 in
  uniqueIds root ->
  (handleDragEnd root ev s).2 = Some payload ->
  exists tp V childIdx,
    tp ∈ preorder root
    /\ parentId (hoveredParent s) = Some (item_id tp)
    /\ childIndex (hoveredParent s) = Some childIdx
    /\ (forall v, v ∈ V -> v ∈ descendants root /\ item_id v ∉ chainIds tp)
    /\ payload_items payload = map item V
    /\ payload_parent payload = item tp
    /\ insertAt payload
       = childIdx
         - Z.of_nat (length (List.filter (fun ch => negb (notDragged V ch))
                               (take (Z.to_nat childIdx)
                                  (default [] (children tp))))).
Proof.
  intros root Hu Hp.
  apply handleDragEnd_payload in Hp
    as (pid & childIdx & tp & Hpid & Hci & Hfind & _ & ->).
  apply findNodeById_found in Hfind as [Htp <-].
  eexists tp, _, childIdx. split; [done|]. split; [done|]. split; [done|].
  split.
  { intros v Hv. apply validNodesOf_elem in Hv as ((x & Hx & <-) & _ & Hc).
    split; [|done]. by apply flat_nodes_descendants in Hx. }
  cbn [payload_items payload_parent insertAt].
  rewrite fold_removeDragged_closed by by apply (children_nodup root).
  done.
Qed.

(** X25.  The drop line tells the truth.  For a tree with unique ids in
    which files have no children, let the stored target be the one that a
    move over a visible row writes with intent above or below.  Then the
    flat sequence of the tree that the owner returns for the emitted
    payload is the previous flat sequence without the rows of the moved
    subtrees, with the rows of the items (each item followed by its visible
    descendants, in drag order) put in at the flat index where the marker
    was shown: the rows before that index that did not move, the moved
    rows, the rows from that index on that did not move. *)
Theorem drop_line_truthful (data : TTreeNode) (s : TreeStore)
    (ev : DragEndEvent) (overItem : SelectableTreeNode) (r : float)
    (payload : DragEndPayload) :
  let root := buildInternalTree data None 0 in
  let c := collapsed s in
  let flat := useSelectableItems root c in
  let t := dropTargetOf c overItem r in
  let next := ImplApp.handleDragEnd payload data in
  let F := map entry_id flat in
  let F' := map entry_id (useSelectableItems (buildInternalTree next None 0) c) in
  let moved := flat_map rawIds (payload_items payload) in
  let at_ := Z.to_nat (flatIndex t) in
  uniqueIds root ->
  overItem ∈ flat ->
  hoveredParent s = hoveredOf t ->
  target_dropIntent t = above \/ target_dropIntent t = below ->
  (TTreeNode.type (item (node overItem)) = file ->
   children (node overItem) = None) ->
  (handleDragEnd root ev s).2 = Some payload ->
  F' = unmoved moved (take at_ F)
       ++ flat_map (rows c) (payload_items payload)
       ++ unmoved moved (drop at_ F).
Proof.
  intros root c flat t next F F' moved at_ Hu Hin Hhp Hintent Hleaf Hp.
  assert (Hn : NoDup (rawIds data)) by by rewrite <- built_ids.
  (* the hovered row and its place among its siblings *)
  destruct (visible_node_position data c overItem Hu Hin)
    as (p & siblings & k & Hpin & Hpar & Hsib & Hk & Hci).
  fold root in Hpin.
  set (x := item (node overItem)).
  pose proof (built_children data p Hpin) as Hraw. rewrite Hsib in Hraw.
  cbn [from_option id] in Hraw.
  set (rcs := default [] (TTreeNode.children (item p))) in *.
  assert (Hrk : rcs !! k = Some x).
  { rewrite <- Hraw, list_lookup_fmap, Hk. done. }
  pose proof (take_drop_middle rcs k x Hrk) as Hsplit.
  pose proof (lookup_lt_Some _ _ _ Hrk) as Hklt.
  assert (Hklen : (k < length siblings)%nat) by by eapply lookup_lt_Some.
  (* the flat sequence around the hovered row *)
  assert (HF : F = rawFlat c data) by apply flat_ids_raw.
  assert (Hxvis : TTreeNode.id x ∈ rawFlat c data).
  { rewrite <- HF. apply list_elem_of_fmap. by exists overItem. }
  assert (Hpraw : item p ∈ rawPreorder data).
  { rewrite <- (buildSubtree_items data 0 None). apply list_elem_of_fmap.
    by exists p. }
  destruct (split_exists c data (item p) (take k rcs) x (drop (S k) rcs)
              Hn Hpraw (eq_sym Hsplit) Hxvis) as (B & A & Habove & Hbelow).
  pose proof (SplitAt_flat _ _ _ _ _ _ _ Habove) as HBA.
  assert (HnF : NoDup F) by apply (flat_ids_nodup data c Hu).
  assert (Hidx : index overItem = Z.of_nat (length B)).
  { unfold flat, root in Hin. rewrite useSelectableItems_built in Hin.
    destruct (numbered_elem _ _ Hin) as (i & Hi & ->). f_equal.
    assert (HFi : F !! i = Some (TTreeNode.id x)).
    { unfold F, flat, root. rewrite useSelectableItems_built.
      by rewrite list_lookup_fmap, Hi. }
    assert (HFB : F !! length B = Some (TTreeNode.id x)).
    { rewrite HF, HBA, lookup_app_r by lia. rewrite Nat.sub_diag.
      by rewrite rows_eq. }
    by apply (NoDup_lookup F i (length B) (TTreeNode.id x)). }
  (* the target written by the move *)
  assert (Hcases :
    (targetParent t = Some p /\ targetChildIndex t = Z.of_nat k
     /\ flatIndex t = index overItem)
    \/ (targetParent t = Some p /\ targetChildIndex t = Z.of_nat k + 1
        /\ flatIndex t = index overItem + 1
        /\ rows c x = [TTreeNode.id x])).
  { subst t. unfold dropTargetOf in *. rewrite Hpar, Hci in *.
    fold x in Hleaf, Hintent |- *.
    destruct (TTreeNode.type x) eqn:Ety; cbn [negb] in *.
    - destruct (r <? 0.25)%float; [left; done|].
      destruct (isCollapsedIn c (item_id (node overItem))) eqn:Ecol;
        cbn [negb andb] in *.
      + destruct (0.75 <? r)%float; cbn [andb] in *.
        * right. repeat split; try done. rewrite rows_eq.
          change (TTreeNode.id x) with (item_id (node overItem)).
          by rewrite Ecol.
        * cbn in Hintent. by destruct Hintent.
      + rewrite andb_false_r in *. cbn in Hintent. by destruct Hintent.
    - destruct (r <? 0.5)%float; [left; done|].
      right. repeat split; try done.
      specialize (Hleaf eq_refl).
      pose proof (built_children data (node overItem)) as Hb.
      rewrite Hleaf in Hb. cbn [from_option id map] in Hb. fold x in Hb.
      rewrite rows_eq. unfold rawFlat. rewrite <- Hb; [|].
      + by destruct (isCollapsedIn c (TTreeNode.id x)).
      + apply descendants_preorder.
        by apply (flat_nodes_descendants data c). }
  (* the payload *)
  destruct (handleDragEnd_insertAt data ev s payload Hu Hp)
    as (tp & V & childIdx & Htp & Hpid & Hcidx & HV & Hitems & Hparent & Hat).
  fold root in Htp, HV.
  rewrite Hhp in Hpid, Hcidx. cbn [hoveredOf parentId childIndex] in Hpid, Hcidx.
  injection Hcidx as Hcidx.
  assert (Htpp : targetParent t = Some p)
    by (destruct Hcases as [[? _]|[? _]]; done).
  rewrite Htpp in Hpid. cbn in Hpid. injection Hpid as Hpid.
  assert (tp = p) as -> by by apply (unique_node root).
  rewrite Hsib in Hat. cbn [from_option id] in Hat.
  (* the split the target names, before and after pruning *)
  set (I := map TTreeNode.id (map item V)).
  assert (Hmoved : moved = flat_map rawIds (map item V)).
  { unfold moved. by rewrite Hitems. }
  assert (Hmw : movedWithin I moved data).
  { rewrite Hmoved. apply payload_movedWithin; [done|].
    intros v Hv. by apply HV. }
  assert (Hclean : forall z, z ∈ tail (rawPreorder data) ->
            TTreeNode.id z ∈ I -> TTreeNode.id (item p) ∉ rawIds z).
  { intros z Hz HzI Hinz. apply rawPreorder_tail in Hz.
    rewrite <- (buildSubtree_items data 0 None) in Hz.
    apply list_elem_of_fmap in Hz as (nz & -> & Hnz).
    unfold I in HzI. rewrite map_map in HzI.
    apply list_elem_of_fmap in HzI as (v & Ev & Hv).
    destruct (HV v Hv) as [_ Hc]. apply Hc.
    change (TTreeNode.id (item v)) with (item_id v) in Ev. rewrite <- Ev.
    by apply (chain_blocks data p nz). }
  assert (Hfinal : forall Ls Rs Bs As,
            SplitAt c data (TTreeNode.id (item p)) Ls Rs Bs As ->
            Ls = take (Z.to_nat childIdx) rcs ->
            0 <= childIdx <= Z.of_nat (length siblings) ->
            rawFlat c next
            = unmoved moved Bs ++ flat_map (rows c) (payload_items payload)
              ++ unmoved moved As).
  { intros Ls Rs Bs As Hs HLs Hrange.
    pose proof (SplitAt_prune c I moved data _ Ls Rs Bs As Hs Hn Hmw Hclean)
      as Hs'.
    destruct (SplitAt_insert c _ _ _ _ _ _ (map item V) Hs') as (t'' & Hup & Hfl).
    { eapply sublist_NoDup; [exact Hn|apply rawIds_prune_sublist]. }
    unfold next, ImplApp.handleDragEnd.
    rewrite removeAll_prune by done. rewrite Hitems, Hparent. fold I.
    replace (insertAt payload) with (Z.of_nat (length (pruned I Ls))).
    { by rewrite Hup. }
    rewrite Hat, HLs, <- Hraw, <- fmap_take. unfold I. rewrite pruned_length.
    pose proof (filter_length_split (notDragged V)
                  (take (Z.to_nat childIdx) siblings)) as Hlen.
    rewrite length_take in Hlen. lia. }
  unfold F'. rewrite flat_ids_raw. fold next.
  assert (Hsiblen : length rcs = length siblings).
  { by rewrite <- Hraw, length_map. }
  destruct Hcases as [(_ & Htci & Hfi)|(_ & Htci & Hfi & Hrow)].
  - rewrite (Hfinal _ _ _ _ Habove).
    + unfold at_. rewrite Hfi, Hidx, Nat2Z.id, HF, HBA.
      by rewrite take_app_length, drop_app_length.
    + by rewrite <- Hcidx, Htci, Nat2Z.id.
    + rewrite <- Hcidx, Htci. lia.
  - rewrite (Hfinal _ _ _ _ Hbelow).
    + unfold at_. rewrite Hfi, Hidx.
      replace (Z.to_nat (Z.of_nat (length B) + 1))
        with (length (B ++ rows c x)) by (rewrite length_app, Hrow; simpl; lia).
      rewrite HF, HBA, (app_assoc B (rows c x) A).
      by rewrite take_app_length, drop_app_length.
    + rewrite <- Hcidx, Htci.
      replace (Z.to_nat (Z.of_nat k + 1)) with (S k) by lia.
      by rewrite (take_S_r rcs k x Hrk).
    + rewrite <- Hcidx, Htci. lia.
Qed.
Lemma drop_line_truthful_witness :
  map entry_id
    (useSelectableItems
       (buildInternalTree (ImplApp.handleDragEnd payloadBbelowA1 exampleData)
          None 0)
       (collapsed holdingBoverA1))
  = ["A"; "A1"; "B"; "A2"]%string.
Proof.
  etrans.
  { apply (drop_line_truthful exampleData holdingBoverA1 dropEvent entryA1
             (ratioOf (rectAt (90 + 15)) (rectAt 100)) payloadBbelowA1).
    - apply (bool_decide_unpack _). vm_compute. exact I.
    - vm_compute. right. left.
    - vm_compute. reflexivity.
    - right. vm_compute. reflexivity.
    - intros _. reflexivity.
    - vm_compute. reflexivity. }
  vm_compute. reflexivity.
Defined.

(** * Dropping into a container *)

(** With unique ids, the split in front of the first child of a node that
    is shown and not collapsed ends with the row of the node. *)
Lemma split_at_node c t x :
  NoDup (rawIds t) -> x ∈ tail (rawPreorder t) ->
  TTreeNode.id x ∈ rawFlat c t ->
  isCollapsedIn c (TTreeNode.id x) = false ->
  exists B A,
    SplitAt c t (TTreeNode.id x) [] (default [] (TTreeNode.children x))
      (B ++ [TTreeNode.id x]) A.
Proof.
  induction t as [nm i ty|nm i ty cs IH] using TTreeNode_nested_ind;
    intros Hn Hx Hvis Hcol.
  { by apply elem_of_nil in Hx. }
  rewrite (rawPreorder_unfold (TTreeNode.mk _ _ _ _)) in Hx.
  cbn [tail TTreeNode.children from_option id] in Hx.
  apply flat_map_elem_of in Hx as (ch & Hch & Hx).
  pose proof (NoDup_rawIds_child (TTreeNode.mk nm i ty (Some cs)) cs ch
                eq_refl Hn Hch) as Hnch.
  assert (Hne : i <> TTreeNode.id x).
  { intros E. apply (root_id_once _ Hn). cbn [TTreeNode.id]. rewrite E.
    apply (rawIds_child (TTreeNode.mk nm i ty (Some cs)) cs ch _ eq_refl Hch).
    by apply rawIds_elem. }
  unfold rawFlat in Hvis. cbn [TTreeNode.children from_option id] in Hvis.
  apply flat_map_elem_of in Hvis as (ch' & Hch' & Hvis).
  pose proof Hn as Hn'. rewrite rawIds_unfold in Hn'.
  cbn [TTreeNode.id TTreeNode.children from_option id] in Hn'.
  apply NoDup_cons in Hn' as [_ Hn'].
  destruct (NoDup_flat_map_same rawIds cs ch ch' (TTreeNode.id x) Hn' Hch
              Hch' (rawIds_elem _ _ Hx) (rows_sub c ch' _ Hvis))
    as (l1 & l2 & -> & Ech). subst ch'.
  rewrite rows_eq in Hvis.
  rewrite (rawPreorder_unfold ch) in Hx.
  apply elem_of_cons in Hx as [->|Hx].
  - exists (flat_map (rows c) l1), (rawFlat c ch ++ flat_map (rows c) l2).
    apply (split_below c (TTreeNode.mk nm i ty (Some (l1 ++ ch :: l2)))
             (TTreeNode.id ch) l1 ch l2 [] _ [] (rawFlat c ch));
      [done|done|done|].
    by apply (split_here c ch []).
  - assert (Hxt : x ∈ tail (rawPreorder ch)) by by rewrite rawPreorder_unfold.
    apply elem_of_cons in Hvis as [E|Hvis].
    { exfalso. apply (root_id_once ch Hnch). rewrite <- E.
      apply (tail_rawIds_sub ch x Hxt), rawIds_self. }
    destruct (isCollapsedIn c (TTreeNode.id ch)) eqn:Ecol;
      [by apply elem_of_nil in Hvis|].
    rewrite Forall_forall in IH.
    destruct (IH ch Hch Hnch Hxt Hvis Hcol) as (B & A & Hs).
    exists (flat_map (rows c) l1 ++ TTreeNode.id ch :: B),
      (A ++ flat_map (rows c) l2).
    rewrite <- app_assoc. cbn [app].
    by apply (split_below c (TTreeNode.mk nm i ty (Some (l1 ++ ch :: l2)))
                (TTreeNode.id x) l1 ch l2).
Qed.

Lemma updateEach_some up cs cs' :
  updateEach up cs = Some cs' ->
  exists l1 ch ch' l2, cs = l1 ++ ch :: l2 /\ cs' = l1 ++ ch' :: l2
                       /\ up ch = Some ch'.
Proof.
  revert cs'. induction cs as [|a cs IH]; intros cs'; [done|].
  cbn [updateEach]. fold (updateEach up).
  destruct (up a) as [a'|] eqn:Ea.
  - intros [= <-]. by exists [], a, a', cs.
  - destruct (updateEach up cs) as [rest|]; [|done]. intros [= <-].
    destruct (IH rest eq_refl) as (l1 & ch & ch' & l2 & -> & -> & Hup).
    by exists (a :: l1), ch, ch', l2.
Qed.

(** A write to the children of a collapsed node changes no row. *)
Lemma rows_update_collapsed c f t pid t' :
  (forall y, TTreeNode.id (f y) = TTreeNode.id y) ->
  isCollapsedIn c pid = true ->
  ImplApp.updateFound f t pid = Some t' ->
  rows c t' = rows c t.
Proof.
  intros Hid Hcol. revert t'.
  induction t as [nm i ty|nm i ty cs IH] using TTreeNode_nested_ind;
    intros t'; rewrite updateFound_eq; case_bool_decide as E.
  - intros [= <-]. rewrite !rows_eq, Hid. cbn [TTreeNode.id].
    by rewrite E, Hcol.
  - done.
  - intros [= <-]. rewrite !rows_eq, Hid. cbn [TTreeNode.id].
    by rewrite E, Hcol.
  - destruct (updateEach _ cs) as [cs'|] eqn:Eup; [|done]. intros [= <-].
    apply updateEach_some in Eup as (l1 & ch & ch' & l2 & -> & -> & Hup).
    rewrite !rows_eq. cbn [TTreeNode.id]. f_equal.
    destruct (isCollapsedIn c i); [done|]. unfold rawFlat.
    cbn [TTreeNode.children from_option id].
    rewrite !flat_map_app. cbn [flat_map]. do 2 f_equal.
    rewrite Forall_forall in IH. apply IH; [|done].
    apply elem_of_app. right. left.
Qed.

Lemma rawFlat_update_collapsed c f t pid t' :
  (forall y, TTreeNode.id (f y) = TTreeNode.id y) ->
  isCollapsedIn c pid = true -> TTreeNode.id t <> pid ->
  ImplApp.updateFound f t pid = Some t' ->
  rawFlat c t' = rawFlat c t.
Proof.
  intros Hid Hcol Hne. destruct t as [nm i ty ch]. rewrite updateFound_eq.
  cbn [TTreeNode.id] in Hne. rewrite bool_decide_eq_false_2 by done.
  destruct ch as [cs|]; [|done].
  destruct (updateEach _ cs) as [cs'|] eqn:Eup; [|done]. intros [= <-].
  apply updateEach_some in Eup as (l1 & ch & ch' & l2 & -> & -> & Hup).
  unfold rawFlat. cbn [TTreeNode.children from_option id].
  rewrite !flat_map_app. cbn [flat_map]. do 2 f_equal.
  by apply (rows_update_collapsed c f ch pid).
Qed.

(** X26.  Dropping into a container.  For a tree with unique ids and a
    stored target with intent inside over a visible row, the emitted
    payload names the hovered node as parent and position 0; in the tree
    the owner returns, the moved rows follow the row of the container
    directly when the container is expanded, and are in no row of the flat
    sequence when it is collapsed; the other rows keep their order. *)
Theorem drop_inside_container (data : TTreeNode) (s : TreeStore)
    (ev : DragEndEvent) (overItem : SelectableTreeNode) (r : float)
    (payload : DragEndPayload) :
  let root := buildInternalTree data None 0 in
  let c := collapsed s in
  let flat := useSelectableItems root c in
  let t := dropTargetOf c overItem r in
  let next := ImplApp.handleDragEnd payload data in
  let F := map entry_id flat in
  let F' := map entry_id (useSelectableItems (buildInternalTree next None 0) c) in
  let moved := flat_map rawIds (payload_items payload) in
  let after := S (Z.to_nat (index overItem)) in
  uniqueIds root ->
  overItem ∈ flat ->
  hoveredParent s = hoveredOf t ->
  target_dropIntent t = inside ->
  (handleDragEnd root ev s).2 = Some payload ->
  payload_parent payload = item (node overItem)
  /\ insertAt payload = 0
  /\ (isCollapsedIn c (entry_id overItem) = false ->
      F' = unmoved moved (take after F)
           ++ flat_map (rows c) (payload_items payload)
           ++ unmoved moved (drop after F))
  /\ (isCollapsedIn c (entry_id overItem) = true -> F' = unmoved moved F).
Proof.
  intros root c flat t next F F' moved after Hu Hin Hhp Hintent Hp.
  assert (Hn : NoDup (rawIds data)) by by rewrite <- built_ids.
  set (n := node overItem). set (x := item n).
  assert (Hnd : n ∈ descendants root)
    by by apply (flat_nodes_descendants data c).
  assert (Hnp : n ∈ preorder root) by by apply descendants_preorder.
  assert (Hxt : x ∈ tail (rawPreorder data)).
  { rewrite <- descendants_items. apply list_elem_of_fmap. by exists n. }
  assert (HF : F = rawFlat c data) by apply flat_ids_raw.
  assert (Hxvis : TTreeNode.id x ∈ rawFlat c data).
  { rewrite <- HF. apply list_elem_of_fmap. by exists overItem. }
  assert (Htarget : targetParent t = Some n /\ targetChildIndex t = 0).
  { subst t. unfold dropTargetOf in *. fold n in Hintent |- *.
    repeat match goal with
           | |- context [if ?b then _ else _] => destruct b
           end; cbn in Hintent |- *; try done. }
  destruct Htarget as [Htp Htci].
  destruct (handleDragEnd_insertAt data ev s payload Hu Hp)
    as (tp & V & childIdx & Htpin & Hpid & Hcidx & HV & Hitems & Hparent & Hat).
  fold root in Htpin, HV.
  rewrite Hhp in Hpid, Hcidx. cbn [hoveredOf parentId childIndex] in Hpid, Hcidx.
  rewrite Htp in Hpid. cbn in Hpid. injection Hpid as Hpid.
  injection Hcidx as Hcidx. rewrite Htci in Hcidx. subst childIdx.
  assert (tp = n) as -> by by apply (unique_node root).
  cbn [Z.to_nat take List.filter length] in Hat.
  split; [done|]. split; [done|].
  set (I := map TTreeNode.id (map item V)).
  assert (Hmoved : moved = flat_map rawIds (map item V)).
  { unfold moved. by rewrite Hitems. }
  assert (Hmw : movedWithin I moved data).
  { rewrite Hmoved. apply payload_movedWithin; [done|].
    intros v Hv. by apply HV. }
  assert (Hclean : forall z, z ∈ tail (rawPreorder data) ->
            TTreeNode.id z ∈ I -> TTreeNode.id x ∉ rawIds z).
  { intros z Hz HzI Hinz. apply rawPreorder_tail in Hz.
    rewrite <- (buildSubtree_items data 0 None) in Hz.
    apply list_elem_of_fmap in Hz as (nz & -> & Hnz).
    unfold I in HzI. rewrite map_map in HzI.
    apply list_elem_of_fmap in HzI as (v & Ev & Hv).
    destruct (HV v Hv) as [_ Hc]. apply Hc.
    change (TTreeNode.id (item v)) with (item_id v) in Ev. rewrite <- Ev.
    by apply (chain_blocks data n nz). }
  assert (Hnext : next
            = default data
                (ImplApp.updateFound (ImplApp.insertChildren 0 (map item V))
                   (prune I data) (TTreeNode.id x))).
  { unfold next, ImplApp.handleDragEnd.
    rewrite removeAll_prune by done. rewrite Hitems, Hparent, Hat. fold I.
    by destruct (ImplApp.updateFound _ _ _). }
  unfold F'. rewrite flat_ids_raw. fold next. split.
  - intros Hcol.
    destruct (split_at_node c data x Hn Hxt Hxvis Hcol) as (B & A & Hs).
    pose proof (SplitAt_flat _ _ _ _ _ _ _ Hs) as HBA.
    assert (Hidx : Z.to_nat (index overItem) = length B).
    { unfold flat, root in Hin. rewrite useSelectableItems_built in Hin.
      destruct (numbered_elem _ _ Hin) as (i & Hi & ->). rewrite Nat2Z.id.
      assert (HFi : F !! i = Some (TTreeNode.id x)).
      { unfold F, flat, root. rewrite useSelectableItems_built.
        by rewrite list_lookup_fmap, Hi. }
      assert (HFB : F !! length B = Some (TTreeNode.id x)).
      { rewrite HF, HBA, <- app_assoc, lookup_app_r by lia.
        by rewrite Nat.sub_diag. }
      apply (NoDup_lookup F i (length B) (TTreeNode.id x)); [|done|done].
      apply (flat_ids_nodup data c Hu). }
    pose proof (SplitAt_prune c I moved data _ _ _ _ _ Hs Hn Hmw Hclean) as Hs'.
    destruct (SplitAt_insert c _ _ _ _ _ _ (map item V) Hs') as (t'' & Hup & Hfl).
    { eapply sublist_NoDup; [exact Hn|apply rawIds_prune_sublist]. }
    change (Z.of_nat (length (pruned I []))) with 0 in Hup.
    rewrite Hnext, Hup. cbn [from_option id]. rewrite Hfl, Hitems.
    unfold after. rewrite Hidx, HF, HBA.
    replace (S (length B)) with (length (B ++ [TTreeNode.id x]))
      by (rewrite length_app; simpl; lia).
    by rewrite take_app_length, drop_app_length.
  - intros Hcol.
    assert (HV' : forall v, v ∈ V ->
              v ∈ preorder root /\ item_id v ∉ chainIds n).
    { intros v Hv. destruct (HV v Hv). split; [|done].
      by apply descendants_preorder. }
    destruct (removeAll_target data n V Hu Hnp HV') as (tp0 & Hfind & _ & _).
    rewrite removeAll_prune in Hfind by done. fold I in Hfind.
    destruct (updateFound_some
                (ImplApp.insertChildren 0 (map item V))
                (flat_map rawIds (map item V)) _ _ _
                (insertChildren_id _ _) (insertChildren_ids _ _) Hfind)
      as (t'' & Hup & _).
    change (item_id n) with (TTreeNode.id x) in Hup.
    rewrite Hnext, Hup. cbn [from_option id].
    assert (Hne : TTreeNode.id (prune I data) <> TTreeNode.id x).
    { rewrite prune_id. intros E. apply (root_id_once data Hn). rewrite E.
      apply (tail_rawIds_sub data x Hxt), rawIds_self. }
    rewrite (rawFlat_update_collapsed c _ _ _ _ (insertChildren_id _ _)
               Hcol Hne Hup).
    rewrite HF. by apply rawFlat_prune.
Qed.

Lemma drop_inside_container_witness :
  map entry_id
    (useSelectableItems
       (buildInternalTree (ImplApp.handleDragEnd payloadBintoA exampleData)
          None 0)
       (collapsed holdingB))
  = ["A"; "B"; "A1"; "A2"]%string.
Proof.
  destruct (drop_inside_container exampleData holdingB dropEvent entryA
              (ratioOf (rectAt (90 + 10)) (rectAt 100)) payloadBintoA)
    as (_ & _ & H & _).
  - apply (bool_decide_unpack _). vm_compute. exact I.
  - vm_compute. left.
  - vm_compute. reflexivity.
  - vm_compute. reflexivity.
  - vm_compute. reflexivity.
  - etrans; [apply H; reflexivity|]. vm_compute. reflexivity.
Defined.

(** * Ids named like a property of Object.prototype *)

#[global] Instance ownOrPlain_dec c i : Decision (ownOrPlain c i).
Proof. unfold ownOrPlain. apply _. Defined.

Lemma isCollapsedIn_marked c i :
  ownOrPlain c i -> isCollapsedIn c i = markedCollapsed c i.
Proof.
  unfold ownOrPlain, isCollapsedIn, readCollapsed, markedCollapsed. intros H.
  destruct (c !! i) as [b|] eqn:E; [done|].
  case_bool_decide as Hk; [|done].
  destruct (H Hk) as [b Hb]. congruence.
Qed.

Lemma isCollapsedIn_inherited c i :
  c !! i = None -> i ∈ objectPrototypeKeys -> isCollapsedIn c i = true.
Proof.
  unfold isCollapsedIn, readCollapsed. intros -> H.
  by rewrite bool_decide_eq_true_2.
Qed.

Lemma ancestors_in_tree root n :
  parent root = None -> n ∈ preorder root ->
  forall a, a ∈ ancestors n -> a ∈ preorder root.
Proof.
  intros Hr. induction n as [t|t p IH] using InternalTreeNode_chain_ind.
  - intros _ a Ha. by apply elem_of_nil in Ha.
  - intros Hn a. rewrite ancestors_eq. cbn [parent].
    destruct (preorder_parent root _ p Hn eq_refl Hr) as [Hp _].
    intros [->|Ha]%elem_of_cons; [done|]. by apply IH.
Qed.

Lemma below_root root a q :
  parent root = None -> a ∈ preorder root -> parent a = Some q ->
  a ∈ descendants root.
Proof.
  intros Hr Ha Hq. rewrite preorder_unfold in Ha. rewrite descendants_unfold.
  apply elem_of_cons in Ha as [->|Ha]; [congruence|done].
Qed.

Lemma ancestorsExpanded_marked root c n :
  parent root = None ->
  Forall (fun m => ownOrPlain c (item_id m)) (descendants root) ->
  n ∈ preorder root ->
  ancestorsExpanded c n = chainUncollapsed c n.
Proof.
  intros Hr Hown Hn. unfold ancestorsExpanded, chainUncollapsed.
  pose proof (ancestors_in_tree root n Hr Hn) as Hanc.
  induction (ancestors n) as [|a l IH]; [done|].
  cbn [forallb]. rewrite IH by (intros b Hb; apply Hanc; by right).
  f_equal. destruct (parent a) as [q|] eqn:Hq; [|done].
  rewrite isCollapsedIn_marked; [done|].
  rewrite Forall_forall in Hown. apply Hown.
  apply (below_root root a q); [done| |done]. apply Hanc. left.
Qed.

(** X27.  Flatten correctness against the map.  For a tree none of whose
    nodes below the root is named like a property of [Object.prototype]
    without an entry of its own in the collapse map, the flat sequence
    holds exactly the nodes below the root none of whose ancestors (the
    root aside) is marked [true] in the map, in depth-first pre-order, and
    its [index] values are 0, 1, ..., n-1. *)
Theorem flatten_matches_map (data : TTreeNode) (c : gmap string bool) :
  let root := buildInternalTree data None 0 in
  let flat := useSelectableItems root c in
  Forall (fun m => ownOrPlain c (item_id m)) (descendants root) ->
  map node flat = List.filter (chainUncollapsed c) (descendants root)
  /\ map index flat = seqZ 0 (Z.of_nat (length flat)).
Proof.
  intros root flat Hown. subst flat.
  assert (useSelectableItems root c
          = numbered 0 (List.filter (ancestorsExpanded c) (descendants root)))
    as -> by apply useSelectableItems_built.
  rewrite numbered_node, numbered_index, numbered_length. split; [|done].
  apply List.filter_ext_in. intros n Hn%list_elem_of_In.
  apply (ancestorsExpanded_marked root); [by destruct data|done|].
  by apply descendants_preorder.
Qed.

Lemma flatten_matches_map_witness :
  map node (useSelectableItems ctorRoot {["constructor"%string := false]})
  = List.filter (chainUncollapsed {["constructor"%string := false]})
      (descendants ctorRoot)
  /\ map entry_id (useSelectableItems ctorRoot {["constructor"%string := false]})
     = ["constructor"; "c1"; "B"]%string.
Proof.
  split.
  - apply (flatten_matches_map ctorData {["constructor"%string := false]}).
    apply (bool_decide_unpack _). vm_compute. exact I.
  - vm_compute. reflexivity.
Defined.

(** C1.  The flattener on a tree with a directory named [constructor] and
    the empty collapse map: [collapsed[id] ?? false] finds the inherited
    [Object.prototype.constructor], the directory reads as collapsed and
    its child [c1] is not in the flat sequence, although no ancestor of
    [c1] is marked collapsed in the map; with an entry [false] of its own
    the same tree flattens to all three nodes. *)
Theorem flatten_inherited_key :
  let flat := useSelectableItems ctorRoot ∅ in
  map (fun x => (entry_id x, index x)) flat
  = [("constructor", 0); ("B", 1)]%string
  /\ map item_id (List.filter (chainUncollapsed ∅) (descendants ctorRoot))
     = ["constructor"; "c1"; "B"]%string
  /\ map (fun x => (entry_id x, index x))
       (useSelectableItems ctorRoot {["constructor"%string := false]})
     = [("constructor", 0); ("c1", 1); ("B", 2)]%string.
Proof. vm_compute. repeat split; reflexivity. Qed.

(** X28.  The zones of a container against the map.  Hovering a visible
    directory of a built tree with unique ids, the id not named like a
    property of [Object.prototype] unless the map has an entry of its own
    for it, and "expanded" read as "not marked [true] in the collapse
    map": with [p] the parent of the hovered node, [k] its position among
    the children of [p] and [i] its position in the flat sequence, the top
    quarter resolves to (p, k, above, i), the bottom quarter of a directory
    that is not expanded to (p, k+1, below, i+1), and everything else to
    (the directory itself, 0, inside, i+1 if expanded with a child, else i);
    the store takes that target unless validation discards it. *)
Theorem container_drop_zones (data : TTreeNode) (s : TreeStore)
    (ev : DragMoveEvent) (ov : Over) (activeRect : ClientRect)
    (overItem : SelectableTreeNode) :
  let root := buildInternalTree data None 0 in
  let flat := useSelectableItems root (collapsed s) in
  let overNode := node overItem in
  let r := ratioOf activeRect (over_rect ov) in
  let expanded := negb (markedCollapsed (collapsed s) (item_id overNode)) in
  let hasChild :=
    match children overNode with Some (_ :: _) => true | _ => false end in
  let t := dropTargetOf (collapsed s) overItem r in
  uniqueIds root ->
  over ev = Some ov ->
  translated (active ev) = Some activeRect ->
  overItem ∈ flat ->
  over_id ov = item_id overNode ->
  over_id ov <> "__catch_zone_start__"%string ->
  over_id ov <> "__catch_zone_end__"%string ->
  TTreeNode.type (item overNode) = directory ->
  ownOrPlain (collapsed s) (item_id overNode) ->
  exists (p : InternalTreeNode) (siblings : list InternalTreeNode) (k i : nat),
    parent overNode = Some p /\ children p = Some siblings
    /\ siblings !! k = Some overNode
    /\ flat !! i = Some overItem
    /\ ((r <? 0.25)%float = true ->
        t = mkDropTarget (Some p) (Z.of_nat k) above (Z.of_nat i))
    /\ ((r <? 0.25)%float = false -> (0.75 <? r)%float = true ->
        expanded = false ->
        t = mkDropTarget (Some p) (Z.of_nat k + 1) below (Z.of_nat i + 1))
    /\ ((r <? 0.25)%float = false ->
        (0.75 <? r)%float = false \/ expanded = true ->
        t = mkDropTarget (Some overNode) 0 inside
              (if expanded && hasChild then Z.of_nat i + 1 else Z.of_nat i))
    /\ handleDragMove root ev s
       = if dropsIntoDragged t (draggingIds s) then s
         else setHoveredParent (hoveredOf t) s.
Proof.
  intros root flat overNode r expanded hasChild t Hu Hov Hrect Hin Hid Hs He Hdir Hown.
  pose proof (flat_nodes_descendants _ _ _ Hin) as Hdesc. fold root overNode in Hdesc.
  destruct (descendants_parent _ _ Hdesc) as (p & Hp & Hpin & Hch).
  destruct (children p) as [siblings|] eqn:Hsib; [|by apply elem_of_nil in Hch].
  simpl in Hch. apply list_elem_of_lookup in Hch as [k Hk].
  pose proof Hin as Hin'. apply list_elem_of_lookup in Hin' as [i Hi].
  assert (index overItem = Z.of_nat i) as Hidx.
  { unfold flat, root in Hi. rewrite useSelectableItems_built in Hi.
    apply numbered_lookup in Hi. lia. }
  assert (getChildIndex overNode = Z.of_nat k) as Hci.
  { apply (getChildIndex_position _ p siblings); [done..|].
    pose proof (children_nodup root p Hu Hpin) as Hnd. by rewrite Hsib in Hnd. }
  exists p, siblings, k, i. repeat (split; [done|]).
  assert (hasChild = match children overNode with
                     | Some cs => 0 <? Z.of_nat (length cs)
                     | None => false
                     end) as Hhc.
  { subst hasChild. by destruct (children overNode) as [[|]|]. }
  assert (t = if (r <? 0.25)%float
              then mkDropTarget (Some p) (Z.of_nat k) above (Z.of_nat i)
              else if (0.75 <? r)%float && negb expanded
                   then mkDropTarget (Some p) (Z.of_nat k + 1) below (Z.of_nat i + 1)
                   else mkDropTarget (Some overNode) 0 inside
                          (if expanded && hasChild then Z.of_nat i + 1
                           else Z.of_nat i)) as Ht.
  { subst t. unfold dropTargetOf. fold overNode.
    rewrite Hdir, Hp, Hci, Hidx, <- Hhc.
    rewrite (isCollapsedIn_marked _ _ Hown). by fold expanded. }
  split; [intros Hr; by rewrite Ht, Hr|].
  split; [intros Hr1 Hr2 Hx; by rewrite Ht, Hr1, Hr2, Hx|].
  split.
  - intros Hr1 [Hr2|Hx]; rewrite Ht, Hr1, ?Hr2, ?Hx; [done|].
    simpl. by rewrite andb_false_r.
  - apply (handleDragMove_over_node root ev s ov activeRect overItem); try done.
    rewrite Hid. apply find_nodup; [|done]. by apply flat_ids_nodup.
Qed.

Lemma container_drop_zones_witness :
  hoveredParent
    (handleDragMove exampleRoot (moveOver "A" 10)
       (hoverStore ["B"%string] initialHoveredParent))
  = mkHoveredParent (Some "A"%string) (Some 1) (Some 1) (Some 0) (Some inside).
Proof.
  destruct (container_drop_zones exampleData
              (hoverStore ["B"%string] initialHoveredParent) (moveOver "A" 10)
              (mkOver "A" (rectAt 100)) (rectAt (90 + 10)) entryA)
    as (p & siblings & k & i & _ & _ & _ & _ & _ & _ & _ & Hmove).
  - apply (bool_decide_unpack _). vm_compute. exact I.
  - reflexivity.
  - reflexivity.
  - vm_compute. left.
  - reflexivity.
  - discriminate.
  - discriminate.
  - reflexivity.
  - intros H. exfalso. revert H. apply (bool_decide_unpack _). vm_compute. exact I.
  - fold exampleRoot in Hmove. rewrite Hmove. vm_compute. reflexivity.
Defined.

(** C2.  The drag target resolver over the directory named [constructor]
    with the empty collapse map, the pointer in the bottom quarter: the map has no
    entry for the directory, yet [collapsed[id] ?? false] finds the
    inherited [Object.prototype.constructor], the directory reads as not
    expanded and the target is (root, 1, below, 1) instead of
    (the directory, 0, inside, 1); with an entry [false] of its own the
    same hover resolves to inside. *)
Theorem container_inherited_key :
  let s := hoverStore ["B"%string] initialHoveredParent in
  let ev := moveOver "constructor" 18 in
  (0.75 <? ratioOf (rectAt (90 + 18)) (rectAt 100))%float = true
  /\ collapsed s !! "constructor"%string = None
  /\ map entry_id (useSelectableItems ctorRoot (collapsed s))
     = ["constructor"; "B"]%string
  /\ hoveredParent (handleDragMove ctorRoot ev s)
     = mkHoveredParent (Some "root"%string) (Some 0) (Some 1) (Some 1) (Some below)
  /\ hoveredParent
       (handleDragMove ctorRoot ev (setCollapsed "constructor" false s))
     = mkHoveredParent (Some "constructor"%string) (Some 1) (Some 1) (Some 0)
         (Some inside).
Proof. vm_compute. repeat split; reflexivity. Qed.
